(** * Radha-Radha app: the unlock / reveal orchestrator of [RadhaRadhaApp.tsx]

    A shallow embedding of the stateful core of the single source file:
    the phrase test of the lock screen, the melody scheduler of
    [BackgroundMusic], the three screens with their timers, the
    [CombinedApp] stage switch, the drifting particles of
    [ParticleSystem] and the star canvas of the proposal screen.
    [RadhaKrishnaBackground] is markup only and is not modelled.

    Conventions.
    - A JavaScript string is the list of its UTF-16 code units ([list N]).
    - Timer delays and the wall clock are integers in milliseconds ([Z]).
    - Audio times, frequencies, gains and screen percentages are exact
      rationals ([Q]); the source computes them in binary64, rounding is
      not modelled.
    - React state is a record per component; a handler is a function from
      state to state; [setTimeout]/[setInterval] add entries to an explicit
      timer table that a logical clock fires in order of expiry. *)

From Stdlib Require Import List ZArith NArith Bool String Ascii QArith Qround Lia Arith.
From Stdlib Require Import Lqa DecimalString.
Import ListNotations.

(* ================================================================== *)
(** * JavaScript strings *)
(* ================================================================== *)

Module JSString.

(** UTF-16 code units. *)
Definition jsstring := list N.

Open Scope N_scope.

(** ** Writing source literals

    The literals of the source are written as ordinary (UTF-8) string
    literals and decoded once into code units. *)

Definition cont (b : N) : N := N.land b 0x3F.

Fixpoint code_points (bs : list N) : list N :=
  match bs with
  | [] => []
  | b0 :: r0 =>
      if b0 <? 0x80 then b0 :: code_points r0
      else
        match r0 with
        | [] => [0xFFFD]
        | b1 :: r1 =>
            if b0 <? 0xE0 then
              (N.land b0 0x1F * 0x40 + cont b1) :: code_points r1
            else
              match r1 with
              | [] => [0xFFFD]
              | b2 :: r2 =>
                  if b0 <? 0xF0 then
                    (N.land b0 0x0F * 0x1000 + cont b1 * 0x40 + cont b2)
                      :: code_points r2
                  else
                    match r2 with
                    | [] => [0xFFFD]
                    | b3 :: r3 =>
                        (N.land b0 0x07 * 0x40000 + cont b1 * 0x1000
                         + cont b2 * 0x40 + cont b3) :: code_points r3
                    end
              end
        end
  end.

Definition units_of_code_point (cp : N) : jsstring :=
  if cp <? 0x10000 then [cp]
  else [0xD800 + (cp - 0x10000) / 0x400; 0xDC00 + (cp - 0x10000) mod 0x400].

Definition js (s : string) : jsstring :=
  flat_map units_of_code_point
           (code_points (map N_of_ascii (list_ascii_of_string s))).

(** ** [String.prototype.includes] *)

Fixpoint startsWith (s p : jsstring) {struct p} : bool :=
  match p, s with
  | [], _ => true
  | _ :: _, [] => false
  | v :: p', u :: s' => (u =? v) && startsWith s' p'
  end.

Fixpoint includes (s p : jsstring) : bool :=
  startsWith s p ||
  match s with
  | [] => false
  | _ :: s' => includes s' p
  end.

(** ** [String.prototype.toLowerCase]

    The ASCII part of the Unicode lower-case mapping is written out.  The
    mapping of every other code unit belongs to the platform's Unicode
    tables; it is the parameter [uni_lower], which sees the unit together
    with the units before and after it (final sigma, surrogate pairs). *)

Definition is_ascii (c : N) : bool := c <? 0x80.

Definition lower_ascii (c : N) : N :=
  if (0x41 <=? c) && (c <=? 0x5A) then c + 0x20 else c.

Section CaseFolding.
Variable uni_lower : jsstring -> N -> jsstring -> jsstring.

Definition lower_unit (before : jsstring) (c : N) (after : jsstring) : jsstring :=
  if is_ascii c then [lower_ascii c] else uni_lower before c after.

Fixpoint lower_from (before rest : jsstring) : jsstring :=
  match rest with
  | [] => []
  | c :: after => lower_unit before c after ++ lower_from (before ++ [c]) after
  end.

Definition toLowerCase (s : jsstring) : jsstring := lower_from [] s.
End CaseFolding.

(** The mapping that changes no unit outside ASCII: what the platform does
    on, among others, every string of ASCII and Devanagari text. *)
Definition uni_keep : jsstring -> N -> jsstring -> jsstring :=
  fun _ c _ => [c].

End JSString.
Import JSString.

(* ================================================================== *)
(** * The phrase test of the lock screen *)
(* ================================================================== *)

Module Matcher.

Open Scope N_scope.

Definition radha_radha : jsstring := Eval vm_compute in js "radha radha".
Definition radha_radha_hi : jsstring := Eval vm_compute in js "राधा राधा".
Definition radha : jsstring := Eval vm_compute in js "radha".
Definition radha_hi : jsstring := Eval vm_compute in js "राधा".

(** The accepted phrases, in the order the source tests them. *)
Definition accepted : list jsstring :=
  [radha_radha; radha_radha_hi; radha; radha_hi].

Section Matches.
Variable uni_lower : jsstring -> N -> jsstring -> jsstring.

(** The condition of [onResult] and of [handleFallbackSubmit]: the two
    handlers spell out the same four tests on the lower-cased text. *)
Definition matches (text : jsstring) : bool :=
  let lower := toLowerCase uni_lower text in
  includes lower radha_radha
  || includes lower radha_radha_hi
  || includes lower radha
  || includes lower radha_hi.
End Matches.

(** ** What "contains a phrase in any mixture of case" means

    A window of the text that equals the phrase up to the case of its
    ASCII letters (Devanagari has no case). *)

Definition same_letter (u v : N) : Prop := lower_ascii u = v.

Definition contains_phrase (s p : jsstring) : Prop :=
  exists pre w post, s = pre ++ w ++ post /\ Forall2 same_letter w p.

Definition contains_accepted (s : jsstring) : Prop :=
  exists p, In p accepted /\ contains_phrase s p.

(** Executable form of [contains_phrase]. *)
Fixpoint startsWith_ci (s p : jsstring) {struct p} : bool :=
  match p, s with
  | [], _ => true
  | _ :: _, [] => false
  | v :: p', u :: s' => (lower_ascii u =? v) && startsWith_ci s' p'
  end.

Fixpoint includes_ci (s p : jsstring) : bool :=
  startsWith_ci s p ||
  match s with
  | [] => false
  | _ :: s' => includes_ci s' p
  end.

(** The code units of the two scripts that occur in the phrases. *)
Definition devanagari_unit (c : N) : bool := (0x900 <=? c) && (c <=? 0x97F).

(** What the lock screen needs of the platform's lower-case tables: a
    Devanagari unit is left as it is, and the image of any other unit
    outside ASCII is not empty and holds neither an ASCII letter of
    "radha" nor a Devanagari unit.  (In Unicode the only characters
    outside ASCII whose lower case holds an ASCII letter are U+0130 and
    U+212A, which give i and k.) *)
Definition radha_letter (c : N) : bool :=
  (c =? 0x72) || (c =? 0x61) || (c =? 0x64) || (c =? 0x68).

Definition keeps_devanagari (uni_lower : jsstring -> N -> jsstring -> jsstring) : Prop :=
  forall before c after, devanagari_unit c = true -> uni_lower before c after = [c].

Definition no_radha_from_elsewhere (uni_lower : jsstring -> N -> jsstring -> jsstring) : Prop :=
  forall before c after,
    is_ascii c = false -> devanagari_unit c = false ->
    uni_lower before c after <> [] /\
    forall u, In u (uni_lower before c after) ->
              radha_letter u = false /\ devanagari_unit u = false.

(** Units whose presence in lower-cased text the phrase tests look at, and
    units that lower-casing maps one to one. *)
Definition key (u : N) : bool := radha_letter u || devanagari_unit u.
Definition stable (u : N) : bool := is_ascii u || devanagari_unit u.

End Matcher.

(* ================================================================== *)
(** * The melody scheduler of [BackgroundMusic] *)
(* ================================================================== *)

Module Audio.

Open Scope Q_scope.

(** One automation call on the gain of a note. *)
Inductive GainEvent :=
| setValueAtTime (value time : Q)
| linearRampToValueAtTime (value time : Q)
| exponentialRampToValueAtTime (value time : Q).

(** What one call of [playNote] puts into the audio graph: a sine
    oscillator, its gain envelope, and its start and stop times. *)
Record Oscillator := {
  frequency : Q;
  gain : list GainEvent;
  start : Q;
  stop : Q
}.

Definition playNote (frequency startTime duration volume : Q) : Oscillator :=
  let baseVolume := 0.03 * volume in
  {| frequency := frequency;
     gain := [ setValueAtTime 0 startTime;
               linearRampToValueAtTime baseVolume (startTime + 0.2);
               exponentialRampToValueAtTime (baseVolume * 0.5) (startTime + duration - 0.2);
               exponentialRampToValueAtTime 0.001 (startTime + duration) ];
     start := startTime;
     stop := startTime + duration |}.

Record Note := { note : Q; duration : Q }.

Definition melody : list Note :=
  [ {| note := 261.63; duration := 1.0 |};
    {| note := 293.66; duration := 1.0 |};
    {| note := 329.63; duration := 1.2 |};
    {| note := 392.00; duration := 1.5 |};
    {| note := 349.23; duration := 1.0 |};
    {| note := 329.63; duration := 1.8 |};
    {| note := 440.00; duration := 1.2 |};
    {| note := 392.00; duration := 1.5 |};
    {| note := 349.23; duration := 1.0 |};
    {| note := 329.63; duration := 2.0 |} ].

(** The oscillators one melody note starts at position [index] when the
    running clock of the pass reads [currentTime]. *)
Definition voices (index : nat) (n : Note) (currentTime : Q) : list Oscillator :=
  playNote (note n) currentTime (duration n) 1.0
  :: (if (index mod 3 =? 0)%nat
      then [playNote (note n * 1.5) currentTime (duration n) 0.3] else [])
  ++ (if (index mod 4 =? 0)%nat
      then [playNote (note n * 2) (currentTime + 0.1) (duration n * 0.8) 0.2] else []).

(** The [forEach] of [playMelody]: the oscillators started, in order, and
    the value of [currentTime] when it ends. *)
Fixpoint forEach (index : nat) (notes : list Note) (currentTime : Q)
  : list Oscillator * Q :=
  match notes with
  | [] => ([], currentTime)
  | n :: rest =>
      let (more, final) := forEach (S index) rest (currentTime + duration n) in
      (voices index n currentTime ++ more, final)
  end.

(** [melody.reduce((sum, note) => sum + note.duration, 0) * 1000], as
    [setTimeout] takes it: whole milliseconds. *)
Definition passLength : Q :=
  fold_left (fun sum n => sum + duration n) melody 0.

Definition rearmDelay : Z := Qfloor (passLength * 1000).

(** Start clock of the [index]-th note of a pass that begins at [t0]. *)
Definition noteStart (t0 : Q) (index : nat) : Q :=
  fold_left (fun t n => t + duration n) (firstn index melody) t0.

(** The note read past the end of the melody. *)
Definition rest : Note := {| note := 0; duration := 0 |}.

(** ** Reading a pass

    The envelope of the specification: silence at [start], a linear ramp to
    [peak] over 0.2, an exponential decay to half of [peak] until 0.2 before
    [stop], and a second exponential decay to 0.001 at [stop]. *)
Definition envelope (peak start stop : Q) : list GainEvent :=
  [ setValueAtTime 0 start;
    linearRampToValueAtTime peak (start + 0.2);
    exponentialRampToValueAtTime (peak * 0.5) (stop - 0.2);
    exponentialRampToValueAtTime 0.001 stop ].

(** The peak gain of a note played at [volume]. *)
Definition peak (volume : Q) : Q := 0.03 * volume.

Definition isLinear (e : GainEvent) : bool :=
  match e with linearRampToValueAtTime _ _ => true | _ => false end.
Definition isExponential (e : GainEvent) : bool :=
  match e with exponentialRampToValueAtTime _ _ => true | _ => false end.

(** The oscillators of one pass and the clock after it. *)
Definition pass (t0 : Q) : list Oscillator := fst (forEach 0 melody t0).
Definition passEnd (t0 : Q) : Q := snd (forEach 0 melody t0).

End Audio.

(* ================================================================== *)
(** * Timers *)
(* ================================================================== *)

Module Timers.

(** The callbacks the source hands to [setTimeout] and [setInterval]. *)
Inductive TimerAction :=
| ResetStatus                 (* LockScreen: setStatus(<prompt>) *)
| CallOnUnlock                (* LockScreen.handleUnlock: onUnlock() *)
| StartMusic                  (* LoveLetter: setIsPlaying(true) *)
| RevealTick                  (* LoveLetter: the setVisibleParagraphs interval *)
| Rearm (isPlaying : bool) (currentTime : Q)
                              (* playMelody: if (isPlaying) playMelody() *)
| ShowHint                    (* ProposalScreen: setShowHint(true) *)
| ShowButtons                 (* handleRevealProposal: setShowButtons(true) *)
| MoveNoButton                (* handleNo: second setButtonPosition *)
| SpawnParticle               (* handleYes: one celebration particle *)
| RemoveParticle.             (* particle.remove() *)

(** A pending timer: its handle, its expiry on the wall clock, its period
    when it came from [setInterval], the component instance whose closure
    it runs, and the closure. *)
Record Timer := {
  tid : nat;
  due : Z;
  every : option Z;
  owner : nat;
  action : TimerAction
}.

(** [setTimeout(callback, delay)] calls a handler makes, in order. *)
Definition Effects := list (Z * TimerAction).

Definition earlier (x y : Timer) : bool :=
  (due x <? due y)%Z || ((due x =? due y)%Z && (tid x <=? tid y)%nat).

(** The pending timer that fires next: the earliest expiry, the older
    handle first among equals. *)
Fixpoint nextToFire (l : list Timer) : option Timer :=
  match l with
  | [] => None
  | x :: rest =>
      match nextToFire rest with
      | None => Some x
      | Some y => Some (if earlier x y then x else y)
      end
  end.

(** [clearTimeout] / [clearInterval]. *)
Definition clear (id : nat) (l : list Timer) : list Timer :=
  filter (fun t => negb (tid t =? id)%nat) l.

Definition reschedule (t : Timer) : list Timer :=
  match every t with
  | Some period =>
      [ {| tid := tid t; due := (due t + period)%Z; every := every t;
           owner := owner t; action := action t |} ]
  | None => []
  end.

End Timers.
Import Timers.

(* ================================================================== *)
(** * The lock screen *)
(* ================================================================== *)

Module Lock.

(** ** The literals of [LockScreen] *)

Definition promptText : jsstring := Eval vm_compute in
  js "राधा रानी का नाम बोलकर ताले पर टैप करो... ✨".
Definition heardPrefix : jsstring := Eval vm_compute in
  js "ऊप्स! मैंने सुना: ".
Definition heardSuffix : jsstring := Eval vm_compute in
  js "... फिर से कोशिश करो 😉".
Definition quote : jsstring := [0x22%N].
Definition errorText : jsstring := Eval vm_compute in
  js "कुछ गड़बड़ हुई, फिर से कोशिश करें।".
Definition listeningText : jsstring := Eval vm_compute in
  js "मैं ध्यान से सुन रहा हूँ... 🤫".
Definition unsupportedText : jsstring := Eval vm_compute in
  js "माफ़ करना, आपका ब्राउज़र यह जादू नहीं चला सकता। नीचे दिए बॉक्स में राधा रानी का नाम टाइप करें।".
Definition unlockedText : jsstring := Eval vm_compute in
  js "ताला खुल गया! 🔓🎉".
Definition wrongWordText : jsstring := Eval vm_compute in
  js "ऊप्स! गलत शब्द... फिर से कोशिश करो 😉".
Definition lockedIcon : jsstring := Eval vm_compute in js "🔒".
Definition openIcon : jsstring := Eval vm_compute in js "🔓".

(** The template literal of [onResult]. *)
Definition heardText (transcript : jsstring) : jsstring :=
  heardPrefix ++ quote ++ transcript ++ quote ++ heardSuffix.

(** ** Component state: the [useState] cells of [LockScreen] and the
    [isSupported] cell of its [useVoiceRecognition] hook. *)
Record LockScreen := {
  showFallback : bool;
  fallbackValue : jsstring;
  status : jsstring;
  lockIcon : jsstring;
  isListening : bool;
  isSupported : bool
}.

Definition setShowFallback v l :=
  {| showFallback := v; fallbackValue := fallbackValue l; status := status l;
     lockIcon := lockIcon l; isListening := isListening l; isSupported := isSupported l |}.
Definition setFallbackValue v l :=
  {| showFallback := showFallback l; fallbackValue := v; status := status l;
     lockIcon := lockIcon l; isListening := isListening l; isSupported := isSupported l |}.
Definition setStatus v l :=
  {| showFallback := showFallback l; fallbackValue := fallbackValue l; status := v;
     lockIcon := lockIcon l; isListening := isListening l; isSupported := isSupported l |}.
Definition setLockIcon v l :=
  {| showFallback := showFallback l; fallbackValue := fallbackValue l; status := status l;
     lockIcon := v; isListening := isListening l; isSupported := isSupported l |}.
Definition setIsListening v l :=
  {| showFallback := showFallback l; fallbackValue := fallbackValue l; status := status l;
     lockIcon := lockIcon l; isListening := v; isSupported := isSupported l |}.
Definition setIsSupported v l :=
  {| showFallback := showFallback l; fallbackValue := fallbackValue l; status := status l;
     lockIcon := lockIcon l; isListening := isListening l; isSupported := v |}.

(** A handler may run after its screen is gone (a recognition callback, a
    timer): its [set...] calls then do nothing, its [setTimeout] calls
    still happen.  So a handler works on [option LockScreen], [None]
    being the unmounted screen. *)
Definition Mounted := option LockScreen.
Definition upd (f : LockScreen -> LockScreen) (m : Mounted) : Mounted := option_map f m.

Definition initial : LockScreen :=
  {| showFallback := false; fallbackValue := []; status := promptText;
     lockIcon := lockedIcon; isListening := false; isSupported := false |}.

(** The two mount effects.  The hook's effect runs first and sets
    [isSupported] when the platform has speech recognition; the effect of
    [LockScreen] runs in the same commit and still reads the [isSupported]
    of the first render, which is [false]; when it runs again after
    [isSupported] has changed it does nothing. *)
Definition mount (speechRecognition : bool) : LockScreen :=
  let firstRender := initial in
  let l1 := if speechRecognition then setIsSupported true firstRender else firstRender in
  if negb (isSupported firstRender)
  then setShowFallback true (setStatus unsupportedText l1)
  else l1.

Section Handlers.
Variable uni_lower : jsstring -> N -> jsstring -> jsstring.

Definition handleUnlock (m : Mounted) : Mounted * Effects :=
  (upd (setLockIcon openIcon) (upd (setStatus unlockedText) m),
   [(1500%Z, CallOnUnlock)]).

Definition onResult (transcript : jsstring) (m : Mounted) : Mounted * Effects :=
  let (m1, fx) :=
    if Matcher.matches uni_lower transcript
    then handleUnlock m
    else (upd (setStatus (heardText transcript)) m, [(3000%Z, ResetStatus)]) in
  (upd (setIsListening false) m1, fx).

Definition onError (m : Mounted) : Mounted * Effects :=
  (upd (setIsListening false) (upd (setStatus errorText) m),
   [(2000%Z, ResetStatus)]).

Definition onStart (m : Mounted) : Mounted * Effects :=
  (upd (setIsListening true) (upd (setStatus listeningText) m), []).

(** [handleFallbackSubmit] reads [fallbackValue]; it is bound to controls
    of the screen, so the screen is mounted when it runs. *)
Definition handleFallbackSubmit (l : LockScreen) : Mounted * Effects :=
  if Matcher.matches uni_lower (fallbackValue l)
  then handleUnlock (Some l)
  else (Some (setStatus wrongWordText l), [(2000%Z, ResetStatus)]).
End Handlers.

(** The timer callback [() => setStatus(<prompt>)]. *)
Definition resetStatus (m : Mounted) : Mounted := upd (setStatus promptText) m.

(** [handleLockClick] starts a capture exactly when this holds. *)
Definition startsListening (l : LockScreen) : bool :=
  isSupported l && negb (isListening l).

End Lock.

(* ================================================================== *)
(** * The letter screen and its background music *)
(* ================================================================== *)

Module Letter.

Inductive ContextState := running | suspended.

(** The [AudioContext] held by [audioContextRef]: its state, the wall-clock
    instant at which its [currentTime] was zero, and the oscillators
    connected to it so far. *)
Record AudioContext := {
  state : ContextState;
  epoch : Z;
  graph : list Audio.Oscillator
}.

Definition currentTime (ctx : AudioContext) (now : Z) : Q :=
  match state ctx with
  | running => inject_Z (now - epoch ctx) / 1000
  | suspended => 0
  end.

(** The refs and the [isSupported] cell of [BackgroundMusic].
    [oscillatorRef] holds the position in [graph] of an oscillator;
    [halted] lists the positions [stopMusic] has stopped. *)
Record BackgroundMusic := {
  isSupported : bool;
  audioContextRef : option AudioContext;
  gainNodeRef : bool;
  oscillatorRef : option nat;
  halted : list nat
}.

(** The first effect of [BackgroundMusic]: the context and its gain and
    delay nodes, or [setIsSupported(false)] when the platform has none. *)
Definition mountMusic (audioContext startsSuspended : bool) (now : Z) : BackgroundMusic :=
  if audioContext then
    {| isSupported := true;
       audioContextRef :=
         Some {| state := if startsSuspended then suspended else running;
                 epoch := now; graph := [] |};
       gainNodeRef := true;
       oscillatorRef := None;
       halted := [] |}
  else
    {| isSupported := false; audioContextRef := None; gainNodeRef := false;
       oscillatorRef := None; halted := [] |}.

Definition stopMusic (b : BackgroundMusic) : BackgroundMusic :=
  match oscillatorRef b with
  | Some o =>
      {| isSupported := isSupported b; audioContextRef := audioContextRef b;
         gainNodeRef := gainNodeRef b; oscillatorRef := None;
         halted := o :: halted b |}
  | None => b
  end.

(** The guard at the head of the [isPlaying] effect. *)
Definition effectRuns (b : BackgroundMusic) : bool :=
  isSupported b
  && (match audioContextRef b with Some _ => true | None => false end)
  && gainNodeRef b.

Definition withContext (ctx : AudioContext) (b : BackgroundMusic) : BackgroundMusic :=
  {| isSupported := isSupported b; audioContextRef := Some ctx;
     gainNodeRef := gainNodeRef b; oscillatorRef := oscillatorRef b;
     halted := halted b |}.

Definition resume (now : Z) (ctx : AudioContext) : AudioContext :=
  {| state := running; epoch := now; graph := graph ctx |}.

Definition connect (oscs : list Audio.Oscillator) (ctx : AudioContext) : AudioContext :=
  {| state := state ctx; epoch := epoch ctx; graph := graph ctx ++ oscs |}.

(** [letterParagraphs.length]: the array literal has ten entries. *)
Definition paragraphCount : nat := 10.

(** The cells of [LoveLetter], the two handles its mount effect keeps, the
    instance number of this mount, and its [BackgroundMusic] child. *)
Record LoveLetter := {
  instance : nat;
  visibleParagraphs : nat;
  isPlaying : bool;
  musicTimer : nat;
  timer : nat;
  music : BackgroundMusic
}.

Definition setVisibleParagraphs v l :=
  {| instance := instance l; visibleParagraphs := v; isPlaying := isPlaying l;
     musicTimer := musicTimer l; timer := timer l; music := music l |}.
Definition setIsPlaying v l :=
  {| instance := instance l; visibleParagraphs := visibleParagraphs l; isPlaying := v;
     musicTimer := musicTimer l; timer := timer l; music := music l |}.
Definition setMusic v l :=
  {| instance := instance l; visibleParagraphs := visibleParagraphs l;
     isPlaying := isPlaying l; musicTimer := musicTimer l; timer := timer l; music := v |}.

(** The updater of the reveal interval: the new count, and whether it
    called [clearInterval(timer)]. *)
Definition revealUpdater (prev : nat) : nat * bool :=
  if (prev <? paragraphCount)%nat then (prev + 1, false)%nat else (prev, true).

(** The "next page" button is rendered under this condition. *)
Definition continueShown (l : LoveLetter) : bool :=
  (paragraphCount <=? visibleParagraphs l)%nat.

End Letter.

(* ================================================================== *)
(** * The proposal screen *)
(* ================================================================== *)

Module Proposal.

Open Scope Q_scope.

Record Position := { x : Q; y : Q }.

Record ProposalScreen := {
  instance : nat;
  showHint : bool;
  showProposal : bool;
  showButtons : bool;
  celebrationMode : bool;
  buttonPosition : Position;
  timer1 : nat
}.

Definition setShowHint v p :=
  {| instance := instance p; showHint := v; showProposal := showProposal p;
     showButtons := showButtons p; celebrationMode := celebrationMode p;
     buttonPosition := buttonPosition p; timer1 := timer1 p |}.
Definition setShowProposal v p :=
  {| instance := instance p; showHint := showHint p; showProposal := v;
     showButtons := showButtons p; celebrationMode := celebrationMode p;
     buttonPosition := buttonPosition p; timer1 := timer1 p |}.
Definition setShowButtons v p :=
  {| instance := instance p; showHint := showHint p; showProposal := showProposal p;
     showButtons := v; celebrationMode := celebrationMode p;
     buttonPosition := buttonPosition p; timer1 := timer1 p |}.
Definition setCelebrationMode v p :=
  {| instance := instance p; showHint := showHint p; showProposal := showProposal p;
     showButtons := showButtons p; celebrationMode := v;
     buttonPosition := buttonPosition p; timer1 := timer1 p |}.
Definition setButtonPosition v p :=
  {| instance := instance p; showHint := showHint p; showProposal := showProposal p;
     showButtons := showButtons p; celebrationMode := celebrationMode p;
     buttonPosition := v; timer1 := timer1 p |}.

Definition initial (instance timer1 : nat) : ProposalScreen :=
  {| instance := instance; showHint := false; showProposal := false;
     showButtons := false; celebrationMode := false;
     buttonPosition := {| x := 50; y := 80 |}; timer1 := timer1 |}.

(** [{ x: Math.random() * 80 + 10, y: Math.random() * 80 + 10 }] for the
    two values [rx], [ry] that [Math.random] returns. *)
Definition randomPosition (rx ry : Q) : Position :=
  {| x := rx * 80 + 10; y := ry * 80 + 10 |}.

Definition handleRevealProposal (p : ProposalScreen) : ProposalScreen * Effects :=
  (setShowProposal true (setShowHint false p), [(2000%Z, ShowButtons)]).

(** The hundred [setTimeout(..., i * 10)] of the celebration loop. *)
Definition celebration : Effects :=
  map (fun i => (Z.of_nat i * 10, SpawnParticle)%Z) (seq 0 100).

Definition handleYes (p : ProposalScreen) : ProposalScreen * Effects :=
  (setShowButtons false (setCelebrationMode true p), celebration).

Definition handleNo (rx ry : Q) (p : ProposalScreen) : ProposalScreen * Effects :=
  (setButtonPosition (randomPosition rx ry) p, [(1000%Z, MoveNoButton)]).

(** The callback of the timer [handleNo] sets. *)
Definition moveAgain (rx ry : Q) (p : ProposalScreen) : ProposalScreen :=
  setButtonPosition (randomPosition rx ry) p.

(** Which control is on screen. *)
Definition hintShown (p : ProposalScreen) : bool := showHint p && negb (showProposal p).
Definition buttonsShown (p : ProposalScreen) : bool :=
  showButtons p && negb (celebrationMode p).

(** [ProposalOutcome] of the specification, read off [celebrationMode]. *)
Inductive Outcome := Pending | Accepted.
Definition outcome (p : ProposalScreen) : Outcome :=
  if celebrationMode p then Accepted else Pending.

End Proposal.

(* ================================================================== *)
(** * The application: [CombinedApp] with its screens, timers and clock *)
(* ================================================================== *)

Module App.

Inductive AppStage := lock | letter | proposal.

Definition stage_eqb (s s' : AppStage) : bool :=
  match s, s' with
  | lock, lock | letter, letter | proposal, proposal => true
  | _, _ => false
  end.

(** What the browser contributes: which capabilities exist, how the audio
    context behaves, the lower-case tables outside ASCII, and the values
    [Math.random] returns to [handleNo] and its timer, in call order. *)
Record Env := {
  speechRecognition : bool;
  audioContext : bool;
  startsSuspended : bool;
  resumeSucceeds : bool;
  closedContextThrows : bool;
  uni_lower : jsstring -> N -> jsstring -> jsstring;
  random : nat -> Q
}.

(** The whole state: the [currentStage] cell of [CombinedApp]; the state of
    each screen while it is mounted; the pending timers and the next
    handle; the number of screen instances mounted so far; the instances
    whose audio context has been closed; the wall clock; the capture
    sessions of the recognition service that were started and have not yet
    reported a start ([requested]) or a result ([capturing]); how many
    values [Math.random] has handed out; and the celebration particles in
    the document. *)
Record App := {
  currentStage : AppStage;
  lockScreen : option Lock.LockScreen;
  loveLetter : option Letter.LoveLetter;
  proposalScreen : option Proposal.ProposalScreen;
  timers : list Timer;
  nextTimer : nat;
  mounts : nat;
  closed : list nat;
  now : Z;
  requested : nat;
  capturing : nat;
  draws : nat;
  confetti : nat
}.

Definition withStage v (a : App) : App :=
  {| currentStage := v; lockScreen := lockScreen a; loveLetter := loveLetter a;
     proposalScreen := proposalScreen a; timers := timers a; nextTimer := nextTimer a;
     mounts := mounts a; closed := closed a; now := now a; requested := requested a;
     capturing := capturing a; draws := draws a; confetti := confetti a |}.
Definition withLock v (a : App) : App :=
  {| currentStage := currentStage a; lockScreen := v; loveLetter := loveLetter a;
     proposalScreen := proposalScreen a; timers := timers a; nextTimer := nextTimer a;
     mounts := mounts a; closed := closed a; now := now a; requested := requested a;
     capturing := capturing a; draws := draws a; confetti := confetti a |}.
Definition withLetter v (a : App) : App :=
  {| currentStage := currentStage a; lockScreen := lockScreen a; loveLetter := v;
     proposalScreen := proposalScreen a; timers := timers a; nextTimer := nextTimer a;
     mounts := mounts a; closed := closed a; now := now a; requested := requested a;
     capturing := capturing a; draws := draws a; confetti := confetti a |}.
Definition withProposal v (a : App) : App :=
  {| currentStage := currentStage a; lockScreen := lockScreen a;
     loveLetter := loveLetter a; proposalScreen := v; timers := timers a;
     nextTimer := nextTimer a; mounts := mounts a; closed := closed a; now := now a;
     requested := requested a; capturing := capturing a; draws := draws a;
     confetti := confetti a |}.
Definition withTimers v (a : App) : App :=
  {| currentStage := currentStage a; lockScreen := lockScreen a;
     loveLetter := loveLetter a; proposalScreen := proposalScreen a; timers := v;
     nextTimer := nextTimer a; mounts := mounts a; closed := closed a; now := now a;
     requested := requested a; capturing := capturing a; draws := draws a;
     confetti := confetti a |}.
Definition withNow v (a : App) : App :=
  {| currentStage := currentStage a; lockScreen := lockScreen a;
     loveLetter := loveLetter a; proposalScreen := proposalScreen a;
     timers := timers a; nextTimer := nextTimer a; mounts := mounts a;
     closed := closed a; now := v; requested := requested a; capturing := capturing a;
     draws := draws a; confetti := confetti a |}.
Definition withVoice r c (a : App) : App :=
  {| currentStage := currentStage a; lockScreen := lockScreen a;
     loveLetter := loveLetter a; proposalScreen := proposalScreen a;
     timers := timers a; nextTimer := nextTimer a; mounts := mounts a;
     closed := closed a; now := now a; requested := r; capturing := c;
     draws := draws a; confetti := confetti a |}.
Definition withDraws v (a : App) : App :=
  {| currentStage := currentStage a; lockScreen := lockScreen a;
     loveLetter := loveLetter a; proposalScreen := proposalScreen a;
     timers := timers a; nextTimer := nextTimer a; mounts := mounts a;
     closed := closed a; now := now a; requested := requested a;
     capturing := capturing a; draws := v; confetti := confetti a |}.
Definition withConfetti v (a : App) : App :=
  {| currentStage := currentStage a; lockScreen := lockScreen a;
     loveLetter := loveLetter a; proposalScreen := proposalScreen a;
     timers := timers a; nextTimer := nextTimer a; mounts := mounts a;
     closed := closed a; now := now a; requested := requested a;
     capturing := capturing a; draws := draws a; confetti := v |}.
Definition withMounts v (a : App) : App :=
  {| currentStage := currentStage a; lockScreen := lockScreen a;
     loveLetter := loveLetter a; proposalScreen := proposalScreen a;
     timers := timers a; nextTimer := nextTimer a; mounts := v; closed := closed a;
     now := now a; requested := requested a; capturing := capturing a;
     draws := draws a; confetti := confetti a |}.
Definition withClosed v (a : App) : App :=
  {| currentStage := currentStage a; lockScreen := lockScreen a;
     loveLetter := loveLetter a; proposalScreen := proposalScreen a;
     timers := timers a; nextTimer := nextTimer a; mounts := mounts a; closed := v;
     now := now a; requested := requested a; capturing := capturing a;
     draws := draws a; confetti := confetti a |}.

(** ** [setTimeout], [setInterval], [clearTimeout] *)

Definition addTimer (every : option Z) (delay : Z) (owner : nat)
           (act : TimerAction) (a : App) : App :=
  {| currentStage := currentStage a; lockScreen := lockScreen a;
     loveLetter := loveLetter a; proposalScreen := proposalScreen a;
     timers := timers a ++ [ {| tid := nextTimer a; due := (now a + delay)%Z;
                                every := every; owner := owner; action := act |} ];
     nextTimer := S (nextTimer a); mounts := mounts a; closed := closed a;
     now := now a; requested := requested a; capturing := capturing a;
     draws := draws a; confetti := confetti a |}.

Definition setTimeout (delay : Z) := addTimer None delay.
Definition setInterval (period : Z) := addTimer (Some period) period.
Definition clearTimeout (id : nat) (a : App) : App := withTimers (clear id (timers a)) a.

Fixpoint schedule (owner : nat) (fx : Effects) (a : App) : App :=
  match fx with
  | [] => a
  | (delay, act) :: rest => schedule owner rest (setTimeout delay owner act a)
  end.

(** A timer expires: the clock moves to its expiry and it leaves the table;
    an interval is entered again one period later. *)
Definition expire (t : Timer) (a : App) : App :=
  withTimers (clear (tid t) (timers a) ++ reschedule t)
             (withNow (Z.max (now a) (due t)) a).

Section Platform.
Variable env : Env.

(** ** [BackgroundMusic] *)

(** [playMelody] of the [startMusic] call made by instance [owner], whose
    closure holds [isPlaying] and the running [currentTime].  When that
    instance is gone its context has been closed: the first [playNote]
    either throws, which ends the pass before it re-arms, or it does
    not and the pass re-arms as before. *)
Definition playMelody (owner : nat) (isPlaying : bool) (currentTime : Q)
           (a : App) : App :=
  let (oscs, final) := Audio.forEach 0 Audio.melody currentTime in
  let rearm := setTimeout Audio.rearmDelay owner (Rearm isPlaying final) in
  match loveLetter a with
  | Some l =>
      if (Letter.instance l =? owner)%nat then
        match Letter.audioContextRef (Letter.music l) with
        | Some ctx =>
            rearm (withLetter
                     (Some (Letter.setMusic
                              (Letter.withContext (Letter.connect oscs ctx)
                                                  (Letter.music l)) l)) a)
        | None => a
        end
      else if closedContextThrows env then a else rearm a
  | None => if closedContextThrows env then a else rearm a
  end.

(** [startMusic], called by the effect of a render whose [isPlaying] is
    the argument.  A suspended context is resumed first; the outcome of
    [resume()] is the platform's. *)
Definition startMusic (isPlaying : bool) (a : App) : App :=
  match loveLetter a with
  | None => a
  | Some l =>
      match Letter.audioContextRef (Letter.music l) with
      | None => a
      | Some ctx =>
          if negb (Letter.gainNodeRef (Letter.music l)) then a
          else
            match Letter.state ctx with
            | Letter.suspended =>
                if resumeSucceeds env then
                  let ctx' := Letter.resume (now a) ctx in
                  playMelody (Letter.instance l) isPlaying
                             (Letter.currentTime ctx' (now a))
                             (withLetter
                                (Some (Letter.setMusic
                                         (Letter.withContext ctx' (Letter.music l)) l)) a)
                else a
            | Letter.running =>
                playMelody (Letter.instance l) isPlaying
                           (Letter.currentTime ctx (now a)) a
            end
      end
  end.

(** The [isPlaying] effect after a change of [isPlaying]: the cleanup of
    its previous run, then the effect of the new render. *)
Definition isPlayingEffect (a : App) : App :=
  match loveLetter a with
  | None => a
  | Some l =>
      if Letter.effectRuns (Letter.music l) then
        let l1 := Letter.setMusic (Letter.stopMusic (Letter.music l)) l in
        if Letter.isPlaying l1
        then startMusic (Letter.isPlaying l1) (withLetter (Some l1) a)
        else withLetter
               (Some (Letter.setMusic (Letter.stopMusic (Letter.music l1)) l1)) a
      else a
  end.

(** [setIsPlaying(v)] of [LoveLetter]. *)
Definition setIsPlaying (v : bool) (a : App) : App :=
  match loveLetter a with
  | None => a
  | Some l =>
      if Bool.eqb v (Letter.isPlaying l) then a
      else isPlayingEffect (withLetter (Some (Letter.setIsPlaying v l)) a)
  end.

(** [handleToggle] of the music button, then [toggleMusic]. *)
Definition handleToggle (a : App) : App :=
  match loveLetter a with
  | None => a
  | Some l =>
      let b := Letter.music l in
      let b1 :=
        match Letter.audioContextRef b with
        | Some ctx =>
            match Letter.state ctx with
            | Letter.suspended =>
                if negb (Letter.isPlaying l) && resumeSucceeds env
                then Letter.withContext (Letter.resume (now a) ctx) b
                else b
            | Letter.running => b
            end
        | None => b
        end in
      setIsPlaying (negb (Letter.isPlaying l))
                   (withLetter (Some (Letter.setMusic b1 l)) a)
  end.

(** ** Mounting and unmounting the screens *)

Definition mountLoveLetter (a : App) : App :=
  let i := mounts a in
  let b := Letter.mountMusic (audioContext env) (startsSuspended env) (now a) in
  let b := if Letter.effectRuns b then Letter.stopMusic b else b in
  let musicTimer := nextTimer a in
  let a1 := setTimeout 500 i StartMusic a in
  let timer := nextTimer a1 in
  let a2 := setInterval 1200 i RevealTick a1 in
  withMounts (S i)
    (withLetter
       (Some {| Letter.instance := i; Letter.visibleParagraphs := 0;
                Letter.isPlaying := false; Letter.musicTimer := musicTimer;
                Letter.timer := timer; Letter.music := b |}) a2).

(** The cleanups of [LoveLetter] and of its [BackgroundMusic]:
    [clearInterval(timer)], [clearTimeout(musicTimer)], [stopMusic()],
    [audioContextRef.current.close()]. *)
Definition unmountLoveLetter (a : App) : App :=
  match loveLetter a with
  | None => a
  | Some l =>
      let a1 := clearTimeout (Letter.musicTimer l) (clearTimeout (Letter.timer l) a) in
      let b := Letter.music l in
      let b1 := if Letter.effectRuns b then Letter.stopMusic b else b in
      let released :=
        match Letter.audioContextRef b1 with
        | Some _ => Letter.instance l :: closed a1
        | None => closed a1
        end in
      withClosed released (withLetter None a1)
  end.

Definition mountProposal (a : App) : App :=
  let i := mounts a in
  let timer1 := nextTimer a in
  withMounts (S i)
    (withProposal (Some (Proposal.initial i timer1))
                  (setTimeout 1000 i ShowHint a)).

Definition unmountProposal (a : App) : App :=
  match proposalScreen a with
  | None => a
  | Some p => withProposal None (clearTimeout (Proposal.timer1 p) a)
  end.

Definition mountLockScreen (a : App) : App :=
  withLock (Some (Lock.mount (speechRecognition env))) a.

(** [LockScreen] and its hook register no cleanup. *)
Definition unmountLockScreen (a : App) : App := withLock None a.

Definition unmount (a : App) : App :=
  match currentStage a with
  | lock => unmountLockScreen a
  | letter => unmountLoveLetter a
  | proposal => unmountProposal a
  end.

Definition mount (s : AppStage) (a : App) : App :=
  match s with
  | lock => mountLockScreen a
  | letter => mountLoveLetter a
  | proposal => mountProposal a
  end.

(** [setCurrentStage(s)] and the render that follows: nothing when the
    cell already holds [s]; otherwise the screen of the old stage is
    unmounted and the screen of [s] is mounted. *)
Definition setCurrentStage (s : AppStage) (a : App) : App :=
  if stage_eqb s (currentStage a) then a
  else mount s (withStage s (unmount a)).

(** [CombinedApp.handleUnlock] and [CombinedApp.handleRevealProposal]. *)
Definition handleUnlock (a : App) : App := setCurrentStage letter a.
Definition handleRevealProposal (a : App) : App := setCurrentStage proposal a.

(** ** Handlers of the screens, run on the application state *)

Definition lockHandler (h : Lock.Mounted -> Lock.Mounted * Effects) (a : App) : App :=
  let (m, fx) := h (lockScreen a) in
  schedule 0 fx (withLock m a).

Definition onProposal (owner : nat)
           (f : Proposal.ProposalScreen -> Proposal.ProposalScreen) (a : App) : App :=
  match proposalScreen a with
  | Some p =>
      if (Proposal.instance p =? owner)%nat then withProposal (Some (f p)) a else a
  | None => a
  end.

Definition proposalHandler
           (h : Proposal.ProposalScreen -> Proposal.ProposalScreen * Effects)
           (p : Proposal.ProposalScreen) (a : App) : App :=
  let (p', fx) := h p in
  schedule (Proposal.instance p) fx (withProposal (Some p') a).

(** The interval callback of [LoveLetter]. *)
Definition revealTick (owner : nat) (a : App) : App :=
  match loveLetter a with
  | Some l =>
      if (Letter.instance l =? owner)%nat then
        let (v, cleared) := Letter.revealUpdater (Letter.visibleParagraphs l) in
        let a1 := withLetter (Some (Letter.setVisibleParagraphs v l)) a in
        if cleared then clearTimeout (Letter.timer l) a1 else a1
      else a
  | None => a
  end.

(** ** Firing a timer *)

Definition runAction (t : Timer) (a : App) : App :=
  match action t with
  | ResetStatus => withLock (Lock.resetStatus (lockScreen a)) a
  | CallOnUnlock => handleUnlock a
  | StartMusic =>
      match loveLetter a with
      | Some l => if (Letter.instance l =? owner t)%nat then setIsPlaying true a else a
      | None => a
      end
  | RevealTick => revealTick (owner t) a
  | Rearm isPlaying currentTime =>
      if isPlaying then playMelody (owner t) isPlaying currentTime a else a
  | ShowHint => onProposal (owner t) (Proposal.setShowHint true) a
  | ShowButtons => onProposal (owner t) (Proposal.setShowButtons true) a
  | MoveNoButton =>
      let rx := random env (draws a) in
      let ry := random env (S (draws a)) in
      withDraws (2 + draws a) (onProposal (owner t) (Proposal.moveAgain rx ry) a)
  | SpawnParticle =>
      setTimeout 2000 (owner t) RemoveParticle (withConfetti (S (confetti a)) a)
  | RemoveParticle => withConfetti (pred (confetti a)) a
  end.

(** The timer that expires first fires: it expires, then its callback
    runs. *)
Definition fire (a : App) : option App :=
  match nextToFire (timers a) with
  | None => None
  | Some t => Some (runAction t (expire t a))
  end.

(** ** Events *)

Inductive Event :=
| Wait (t : Z)                     (* the clock reaches t, no timer expiring before *)
| FireTimer                        (* the next timer fires *)
| LockClick                        (* tap on the lock *)
| VoiceStart                       (* recognition.onstart *)
| VoiceResult (transcript : jsstring)   (* recognition.onresult *)
| VoiceError                       (* recognition.onerror *)
| TypeFallback (value : jsstring)  (* onChange of the text box *)
| SubmitFallback                   (* Submit / Enter *)
| ToggleMusic                      (* the music button *)
| ClickContinue                    (* the "next page" button of the letter *)
| ClickRevealProposal              (* the button of the hint *)
| ClickYes
| ClickNo.

(** One event; [None] when the event cannot happen in this state (its
    control is not on screen, no capture is under way, no timer is
    pending, a timer expires before the time waited for). *)
Definition step (e : Event) (a : App) : option App :=
  match e with
  | Wait t =>
      if (now a <=? t)%Z && forallb (fun x => (t <=? due x)%Z) (timers a)
      then Some (withNow t a) else None
  | FireTimer => fire a
  | LockClick =>
      match lockScreen a with
      | Some l =>
          Some (if Lock.startsListening l && speechRecognition env
                then withVoice (S (requested a)) (capturing a) a
                else a)
      | None => None
      end
  | VoiceStart =>
      match requested a with
      | S r => Some (lockHandler Lock.onStart (withVoice r (S (capturing a)) a))
      | O => None
      end
  | VoiceResult transcript =>
      match capturing a with
      | S c => Some (lockHandler (Lock.onResult (uni_lower env) transcript)
                                 (withVoice (requested a) c a))
      | O => None
      end
  | VoiceError =>
      match requested a, capturing a with
      | S r, c => Some (lockHandler Lock.onError (withVoice r c a))
      | O, S c => Some (lockHandler Lock.onError (withVoice O c a))
      | O, O => None
      end
  | TypeFallback value =>
      match lockScreen a with
      | Some l =>
          if Lock.showFallback l
          then Some (withLock (Some (Lock.setFallbackValue value l)) a)
          else None
      | None => None
      end
  | SubmitFallback =>
      match lockScreen a with
      | Some l =>
          if Lock.showFallback l
          then Some (lockHandler
                       (fun _ => Lock.handleFallbackSubmit (uni_lower env) l) a)
          else None
      | None => None
      end
  | ToggleMusic =>
      match loveLetter a with
      | Some l =>
          if Letter.isSupported (Letter.music l) then Some (handleToggle a) else None
      | None => None
      end
  | ClickContinue =>
      match loveLetter a with
      | Some l => if Letter.continueShown l then Some (handleRevealProposal a) else None
      | None => None
      end
  | ClickRevealProposal =>
      match proposalScreen a with
      | Some p =>
          if Proposal.hintShown p
          then Some (proposalHandler Proposal.handleRevealProposal p a)
          else None
      | None => None
      end
  | ClickYes =>
      match proposalScreen a with
      | Some p =>
          if Proposal.buttonsShown p
          then Some (proposalHandler Proposal.handleYes p a)
          else None
      | None => None
      end
  | ClickNo =>
      match proposalScreen a with
      | Some p =>
          if Proposal.buttonsShown p
          then
            let rx := random env (draws a) in
            let ry := random env (S (draws a)) in
            Some (withDraws (2 + draws a)
                    (proposalHandler (Proposal.handleNo rx ry) p a))
          else None
      | None => None
      end
  end.

Fixpoint run (es : list Event) (a : App) : option App :=
  match es with
  | [] => Some a
  | e :: rest =>
      match step e a with
      | Some a' => run rest a'
      | None => None
      end
  end.

(** The stages an execution passes through, the first state included. *)
Fixpoint stages (es : list Event) (a : App) : list AppStage :=
  currentStage a ::
  match es with
  | [] => []
  | e :: rest =>
      match step e a with
      | Some a' => stages rest a'
      | None => []
      end
  end.

(** The page is loaded at clock 0 and shows the lock screen. *)
Definition init : App :=
  mountLockScreen
    {| currentStage := lock; lockScreen := None; loveLetter := None;
       proposalScreen := None; timers := []; nextTimer := 0; mounts := 1;
       closed := []; now := 0; requested := 0; capturing := 0;
       draws := 0; confetti := 0 |}.

Definition reachable (a : App) : Prop := exists es, run es init = Some a.

End Platform.

(** ** Reading a state *)

(** The stage changes of a list of stages, in order. *)
Fixpoint transitions (l : list AppStage) : list (AppStage * AppStage) :=
  match l with
  | s :: (s' :: _) as rest =>
      if stage_eqb s s' then transitions rest else (s, s') :: transitions rest
  | _ => []
  end.

Definition pending (act : TimerAction -> bool) (a : App) : list Timer :=
  filter (fun t => act (action t)) (timers a).

Definition isRearm (act : TimerAction) : bool :=
  match act with Rearm _ _ => true | _ => false end.
Definition isUnlock (act : TimerAction) : bool :=
  match act with CallOnUnlock => true | _ => false end.
Definition isReveal (act : TimerAction) : bool :=
  match act with RevealTick => true | _ => false end.
Definition isStartMusic (act : TimerAction) : bool :=
  match act with StartMusic => true | _ => false end.

(** How many screens are mounted. *)
Definition mountedScreens (a : App) : nat :=
  (match lockScreen a with Some _ => 1 | None => 0 end)
  + (match loveLetter a with Some _ => 1 | None => 0 end)
  + (match proposalScreen a with Some _ => 1 | None => 0 end).

(** A platform for examples: every capability present, the audio context
    running from the start, no case mapping outside ASCII, and
    [Math.random] returning 1/4, 3/4, 1/4, ... *)
Definition demo : Env :=
  {| speechRecognition := true; audioContext := true; startsSuspended := false;
     resumeSucceeds := true; closedContextThrows := false;
     uni_lower := uni_keep;
     random := fun i => if Nat.even i then (1 # 4)%Q else (3 # 4)%Q |}.

End App.


(* ================================================================== *)
(** * Vocabulary of the invariants *)
(* ================================================================== *)

Module Inv.
Import App.

Open Scope Z_scope.

Definition isMounted {A : Type} (o : option A) : bool :=
  match o with Some _ => true | None => false end.

(** The screens agree with [currentStage]: the screen of the stage is
    mounted and no other. *)
Definition consistent (a : App) : bool :=
  match currentStage a with
  | lock =>
      isMounted (lockScreen a) && negb (isMounted (loveLetter a))
      && negb (isMounted (proposalScreen a))
  | letter =>
      negb (isMounted (lockScreen a)) && isMounted (loveLetter a)
      && negb (isMounted (proposalScreen a))
  | proposal =>
      negb (isMounted (lockScreen a)) && negb (isMounted (loveLetter a))
      && isMounted (proposalScreen a)
  end.

(** What a handler that neither clears a timer nor changes the stage leaves
    as it is: the stage, which screens are mounted, the identity of the
    mounted letter and proposal screens with their timer handles and the
    reveal count, the instance counter, the closed contexts, the clock. *)
Definition letterBones (o : option Letter.LoveLetter) :=
  option_map (fun l => (Letter.instance l, Letter.visibleParagraphs l,
                        Letter.musicTimer l, Letter.timer l)) o.

Definition proposalBones (o : option Proposal.ProposalScreen) :=
  option_map (fun p => (Proposal.instance p, Proposal.timer1 p)) o.

Definition bones (a : App) :=
  (currentStage a, isMounted (lockScreen a), letterBones (loveLetter a),
   proposalBones (proposalScreen a), mounts a, closed a, now a).

(** A re-arm timer of the melody whose closure holds [isPlaying = false]:
    the only re-arm timer that would end its loop when it fires. *)
Definition rearmOff (act : TimerAction) : bool :=
  match act with Rearm false _ => true | _ => false end.

(** A timer such a handler may add: a one-shot timer that is not overdue,
    is neither the reveal interval nor the music-start timer of a letter,
    when it is an unlock timer expires 1500 ms from now, and when it is a
    re-arm timer holds [isPlaying = true]. *)
Definition fresh (a : App) (t : Timer) : Prop :=
  every t = None /\ now a <= due t /\
  isReveal (action t) = false /\ isStartMusic (action t) = false /\
  (isUnlock (action t) = true -> due t = now a + 1500) /\
  rearmOff (action t) = false.

(** [a'] is [a] after such a handler: same bones, and the timer table of
    [a] followed by fresh timers with the next handles. *)
Definition grows (a a' : App) : Prop :=
  bones a' = bones a /\
  exists new,
    timers a' = timers a ++ new /\
    nextTimer a' = (nextTimer a + List.length new)%nat /\
    map tid new = seq (nextTimer a) (List.length new) /\
    Forall (fresh a) new.

(** The timer table is tidy: handles are below the next handle, a reveal
    interval belongs to an instance that has been mounted, and every re-arm
    timer holds [isPlaying = true]. *)
Definition tidy (a : App) : Prop :=
  (forall t, In t (timers a) -> (tid t < nextTimer a)%nat) /\
  (forall t, In t (timers a) -> isReveal (action t) = true -> (owner t < mounts a)%nat) /\
  (forall t, In t (timers a) -> rearmOff (action t) = false).

(** The invariant of reachable states. *)
Definition sound (a : App) : Prop := consistent a = true /\ tidy a.

(** A second invariant of reachable states: no two pending timers share a
    handle, and an unlock timer is one-shot, not overdue, and expires at
    most 1500 ms from now. *)
Definition timely (a : App) : Prop :=
  NoDup (map tid (timers a)) /\
  (forall t, In t (timers a) -> isUnlock (action t) = true ->
             every t = None /\ now a <= due t <= now a + 1500).

(** An effect list a lock or proposal handler may return. *)
Definition mild (fx : Effects) : Prop :=
  Forall (fun e => 0 <= fst e /\ isReveal (snd e) = false /\
                   isStartMusic (snd e) = false /\
                   (isUnlock (snd e) = true -> fst e = 1500) /\
                   rearmOff (snd e) = false) fx.



(** The reveal interval of the letter mounted as instance [i], with handle
    [r], when its next expiry is [d]. *)
Definition revealEntry (r i : nat) (d : Z) : Timer :=
  {| tid := r; due := d; every := Some 1200; owner := i; action := RevealTick |}.

(** The state of the reveal of the letter instance [i] mounted at [t0]:
    either [k] paragraphs are shown, the clock is between tick [k] and tick
    [k + 1], and the interval is pending for tick [k + 1] and is the only
    reveal timer of the instance and the only timer with its handle; or all
    paragraphs are shown, tick [paragraphCount + 1] has passed and no
    reveal timer of the instance is pending. *)
Definition revealing (i : nat) (t0 : Z) (a : App) : Prop :=
  exists l, loveLetter a = Some l /\ Letter.instance l = i /\
            currentStage a = letter /\ (i < mounts a)%nat /\
            (Letter.timer l < nextTimer a)%nat /\
            let k := Letter.visibleParagraphs l in
            let r := Letter.timer l in
            ((k <= Letter.paragraphCount)%nat /\
             t0 + Z.of_nat k * 1200 <= now a <= t0 + (Z.of_nat k + 1) * 1200 /\
             In (revealEntry r i (t0 + (Z.of_nat k + 1) * 1200)) (timers a) /\
             (forall t, In t (timers a) ->
                        tid t = r \/ (isReveal (action t) = true /\ owner t = i) ->
                        t = revealEntry r i (t0 + (Z.of_nat k + 1) * 1200)))
            \/
            (k = Letter.paragraphCount /\
             t0 + (Z.of_nat Letter.paragraphCount + 1) * 1200 <= now a /\
             (forall t, In t (timers a) ->
                        tid t <> r /\ ~ (isReveal (action t) = true /\ owner t = i))).

(** A timer that is neither the timer with handle [r] nor a reveal timer of
    instance [i]. *)
Definition other (i r : nat) (t : Timer) : Prop :=
  tid t <> r /\ ~ (isReveal (action t) = true /\ owner t = i).

(** The letter instance [i] has been unmounted. *)
Definition gone (i : nat) (a : App) : Prop :=
  (i < mounts a)%nat /\
  forall l, loveLetter a = Some l -> Letter.instance l <> i.

(** [RevealProgress] of the specification: the paragraphs shown by the
    mounted letter. *)
Definition shown (a : App) : nat :=
  match loveLetter a with
  | Some l => Letter.visibleParagraphs l
  | None => 0
  end.

(** The letter instance [i] is the one on screen. *)
Definition showing (i : nat) (a : App) : Prop :=
  exists l, loveLetter a = Some l /\ Letter.instance l = i.

(** The reveal timers of instance [i] that are pending. *)
Definition revealTimers (i : nat) (a : App) : list Timer :=
  filter (fun t => isReveal (action t) && (owner t =? i)%nat) (timers a).



(** The timer [setTimeout(() => setStatus(<prompt>), delay)] sets in state
    [a]. *)
Definition resetTimer (a : App) (delay : Z) : Timer :=
  {| tid := nextTimer a; due := now a + delay; every := None; owner := 0;
     action := ResetStatus |}.

(** The re-arm timer [playMelody] sets in state [a] for the [startMusic]
    call of instance [i], at pass clock [t]. *)
Definition rearmTimer (a : App) (i : nat) (isPlaying : bool) (t : Q) : Timer :=
  {| tid := nextTimer a; due := now a + 13200; every := None; owner := i;
     action := Rearm isPlaying t |}.

(** The status shown by the mounted lock screen. *)
Definition statusShown (a : App) : option jsstring :=
  option_map Lock.status (lockScreen a).

(** The oscillators connected to the audio context of the mounted letter. *)
Definition graphOf (a : App) : list Audio.Oscillator :=
  match loveLetter a with
  | Some l =>
      match Letter.audioContextRef (Letter.music l) with
      | Some ctx => Letter.graph ctx
      | None => []
      end
  | None => []
  end.

(** [isPlaying] of the mounted letter. *)
Definition playing (a : App) : bool :=
  match loveLetter a with
  | Some l => Letter.isPlaying l
  | None => false
  end.

(** The outcome shown by the mounted proposal screen. *)
Definition outcomeOf (a : App) : option Proposal.Outcome :=
  option_map Proposal.outcome (proposalScreen a).




End Inv.


(* ================================================================== *)
(** * Scenarios *)
(* ================================================================== *)

Module Scenario.
Import App.

Definition fires (n : nat) : list Event := repeat FireTimer n.

(** The name is typed and submitted at clock 0; the unlock timer fires at
    1500 and the letter is mounted. *)
Definition typedUnlock : list Event :=
  [TypeFallback (js "Radha"); SubmitFallback; FireTimer].

(** The music-start timer fires at 2000 and the melody starts. *)
Definition musicOn : list Event := typedUnlock ++ [FireTimer].

(** The listener pauses the music at 2000 and resumes it at 2500. *)
Definition pauseResume : list Event :=
  musicOn ++ [ToggleMusic; Wait 2500; ToggleMusic].

(** The listener pauses the music at 2000 and leaves it paused while the
    ten paragraphs appear and the first pass of the melody ends. *)
Definition pauseAndWait : list Event := musicOn ++ [ToggleMusic] ++ fires 12.

(** The letter is read to its end: ten reveal ticks, the tick that clears
    the interval (at 14700), and the "next page" button. *)
Definition toProposal : list Event := musicOn ++ fires 11 ++ [ClickContinue].

(** The name is spoken and recognised at clock 0; before the unlock timer
    fires the lock is tapped again and a second capture starts.  The
    letter is read to its end and the "next page" button is pressed at
    14700.  Then the second capture, which nothing has stopped, reports a
    transcript that holds the name; its unlock timer fires at 16200. *)
Definition lateResult : list Event :=
  [LockClick; VoiceStart; VoiceResult (js "radha radha");
   LockClick; VoiceStart; FireTimer]
  ++ fires 12
  ++ [ClickContinue; VoiceResult (js "radha radha")]
  ++ fires 3.




(** As [lateResult] up to the "next page" button at 14700; then the hint
    button is pressed at 15700, the answer buttons appear at 17700 and
    "Yes" is pressed.  At that moment the second capture reports a
    transcript that holds the name; the hundred celebration timers fire
    (17700 to 18690), then the unlock timer at 19200. *)
Definition yesThenLate : list Event :=
  [LockClick; VoiceStart; VoiceResult (js "radha radha");
   LockClick; VoiceStart; FireTimer]
  ++ fires 12
  ++ [ClickContinue]
  ++ fires 2
  ++ [ClickRevealProposal]
  ++ fires 1
  ++ [ClickYes; VoiceResult (js "radha radha")]
  ++ fires 101.

(** The proposal is reached, the hint button is pressed at 15700 and the
    two answer buttons appear at 17700. *)
Definition toButtons : list Event :=
  toProposal ++ fires 2 ++ [ClickRevealProposal] ++ fires 1.

Definition stateAfter (env : Env) (es : list Event) : option App :=
  run env es (init env).

(** The letter is mounted at clock 0 straight from the first state, and
    four timers fire: the music-start timer and three reveal ticks. *)
Definition threeTicks : App :=
  Eval vm_compute in
    match run demo (fires 4) (handleUnlock demo (init demo)) with
    | Some a => a
    | None => init demo
    end.

(** The state in which the two answer buttons have just appeared. *)
Definition atButtons : App :=
  Eval vm_compute in
    match run demo toButtons (init demo) with
    | Some a => a
    | None => init demo
    end.

(** Of a state: whether the music is on, when the pending re-arm timers of
    the melody expire, and how many oscillators the context holds. *)
Definition rearms (o : option App) : option (bool * list Z * nat) :=
  option_map (fun a => (Inv.playing a, map due (pending isRearm a),
                        List.length (Inv.graphOf a))) o.

(** Of a state: the stage, the clock, whether a letter is mounted, the
    closed contexts, and the expiries of the pending reveal, music-start
    and re-arm timers, the last with the instance that set them. *)
Definition leftovers (o : option App) :=
  option_map (fun a => (currentStage a, now a, Inv.isMounted (loveLetter a), closed a,
                        map due (pending isReveal a),
                        map due (pending isStartMusic a),
                        map (fun t => (owner t, due t)) (pending isRearm a))) o.

(** The letter is mounted at clock 0 straight from the first state, and
    eleven timers fire: the music-start timer and ten reveal ticks. *)
Definition allShown : App :=
  Eval vm_compute in
    match run demo (fires 11) (handleUnlock demo (init demo)) with
    | Some a => a
    | None => init demo
    end.

(** The answer buttons are up, "No" is pressed at 17700 and the timer it
    set moves the button again at 18700. *)
Definition movedTwice : App :=
  Eval vm_compute in
    match run demo (toButtons ++ [ClickNo; FireTimer]) (init demo) with
    | Some a => a
    | None => init demo
    end.

(** The same platform as [demo], without speech recognition. *)
Definition typedOnly : Env :=
  {| speechRecognition := false; audioContext := true; startsSuspended := false;
     resumeSucceeds := true; closedContextThrows := false;
     uni_lower := uni_keep;
     random := fun i => if Nat.even i then (1 # 4)%Q else (3 # 4)%Q |}.

(** The same platform as [demo], except that creating an oscillator on a
    closed audio context throws. *)
Definition strict : Env :=
  {| speechRecognition := true; audioContext := true; startsSuspended := false;
     resumeSucceeds := true; closedContextThrows := true;
     uni_lower := uni_keep;
     random := fun i => if Nat.even i then (1 # 4)%Q else (3 # 4)%Q |}.

End Scenario.


(* ================================================================== *)
(** * Reading executions and passes *)
(* ================================================================== *)

Module Flow.
Import App Inv.
Open Scope Z_scope.

(** The stage changes the code can make. *)
Definition allowed (st : AppStage * AppStage) : bool :=
  match st with
  | (lock, letter) | (letter, proposal) | (proposal, letter) => true
  | _ => false
  end.

(** The side of the state the lock screen and its captures write: the
    capture counters and the pending unlock timers. *)
Definition lockSide (a : App) := (requested a, capturing a, pending isUnlock a).

(** [a'] is [a] after code that starts no capture and sets no unlock
    timer. *)
Definition quiet (a a' : App) : Prop :=
  requested a' = requested a /\ capturing a' = capturing a /\
  forall t, In t (timers a') -> isUnlock (action t) = true -> In t (timers a).

(** Past the lock screen with no capture outstanding: over the letter,
    mounted at [t0], every pending unlock timer expires by [t0 + 1500];
    over the proposal none is pending. *)
Definition oneWay (a : App) : Prop :=
  requested a = 0%nat /\ capturing a = 0%nat /\
  match currentStage a with
  | lock => False
  | letter =>
      exists i t0, revealing i t0 a /\
                   forall t, In t (timers a) -> isUnlock (action t) = true ->
                             due t <= t0 + 1500
  | proposal => forall t, In t (timers a) -> isUnlock (action t) = false
  end.

(** What a mounted lock screen keeps from its mount effect: the text box
    is shown, and [isSupported] tells whether the platform has speech
    recognition. *)
Definition lockKept (env : Env) (o : option Lock.LockScreen) : Prop :=
  forall l, o = Some l ->
            Lock.showFallback l = true /\ Lock.isSupported l = speechRecognition env.

End Flow.

Module SafeArea.
Import App.
Open Scope Q_scope.

(** The part of the screen the "No" button is kept in: from 10 to 90 per
    cent on both axes. *)
Definition safe (q : Proposal.Position) : Prop :=
  (10 <= Proposal.x q /\ Proposal.x q <= 90) /\
  (10 <= Proposal.y q /\ Proposal.y q <= 90).

Definition buttonSafe (o : option Proposal.ProposalScreen) : Prop :=
  forall p, o = Some p -> safe (Proposal.buttonPosition p).

End SafeArea.

Module Slots.
Import Audio.
Open Scope Q_scope.


End Slots.

(* ================================================================== *)
(** * The drifting particles: [ParticleSystem] *)
(* ================================================================== *)

Module Particles.
Open Scope Q_scope.

Inductive ParticleType := heart | star | flower | om | peacock.

Record Particle := {
  id : jsstring;
  type : option ParticleType;
  x : Q;
  y : Q;
  size : Q;
  duration : Q;
  delay : Q
}.

Definition particleTypes : list ParticleType := [heart; star; flower; om; peacock].

(** [array[k]] for a number [k] that is an integer: [None] is [undefined]. *)
Definition at_index {A : Type} (array : list A) (k : Z) : option A :=
  if (k <? 0)%Z then None else nth_error array (Z.to_nat k).

(** The template literal [`particle-${i}`]. *)
Definition particleId (i : nat) : jsstring :=
  js ("particle-" ++ NilEmpty.string_of_uint (Nat.to_uint i)).

Definition newParticle (random : nat -> Q) (d i : nat) : Particle :=
  {| id := particleId i;
     type := at_index particleTypes
               (Qfloor (random d * inject_Z (Z.of_nat (List.length particleTypes))));
     x := random (d + 1)%nat * 100;
     y := random (d + 2)%nat * 100;
     size := random (d + 3)%nat * 30 + 10;
     duration := random (d + 4)%nat * 10 + 5;
     delay := random (d + 5)%nat * 5 |}.

Fixpoint forLoop (random : nat -> Q) (remaining i d : nat) (newParticles : list Particle)
  : list Particle * nat :=
  match remaining with
  | O => (newParticles, d)
  | S remaining' =>
      forLoop random remaining' (S i) (d + 6) (newParticles ++ [newParticle random d i])
  end.

Definition generateParticles (random : nat -> Q) (d : nat) : list Particle * nat :=
  forLoop random 20 0 d [].



(** The [particles] cell with the count of random values drawn so far.
    The mount effect runs [generateParticles] once and an interval runs it
    again every 15000 ms; each run ends in [setParticles(newParticles)]. *)
Record ParticleSystem := { particles : list Particle; drawn : nat }.

Definition firstRender : ParticleSystem := {| particles := []; drawn := 0 |}.

Definition regenerate (random : nat -> Q) (s : ParticleSystem) : ParticleSystem :=
  let (newParticles, d) := generateParticles random (drawn s) in
  {| particles := newParticles; drawn := d |}.

End Particles.

(* ================================================================== *)
(** * The star canvas of the proposal screen: [StarCanvas] *)
(* ================================================================== *)

Module Stars.
Open Scope Q_scope.

Record Star := { x : Q; y : Q; size : Q; opacity : Q }.

(** [Math.max] and [Math.min] on two numbers. *)
Definition max (a b : Q) : Q := if Qle_bool a b then b else a.
Definition min (a b : Q) : Q := if Qle_bool a b then a else b.

(** What a frame puts on the canvas: [clearRect(0, 0, width, height)], and
    for a star [beginPath(); arc(x, y, size, 0, Math.PI * 2);
    fillStyle = rgba(255, 255, 255, opacity); fill()], a white disc. *)
Inductive Draw :=
| clearRect (width height : Q)
| disc (x y radius opacity : Q).

(** The closure of the mount effect: the canvas size it set, the [stars]
    array, the calls the last frame made on the 2D context, whether the
    click listener is attached, whether an animation frame is requested,
    and how many values [Math.random] has handed out. *)
Record StarCanvas := {
  width : Q;
  height : Q;
  stars : list Star;
  calls : list Draw;
  listening : bool;
  frameRequested : bool;
  drawn : nat
}.

(** Before the effect runs. *)
Definition rendered : StarCanvas :=
  {| width := 0; height := 0; stars := []; calls := []; listening := false;
     frameRequested := false; drawn := 0 |}.

Section Random.
Variable random : nat -> Q.

(** The loop that creates the first stars. *)
Fixpoint createStars (remaining : nat) (w h : Q) (d : nat) (stars : list Star)
  : list Star * nat :=
  match remaining with
  | O => (stars, d)
  | S remaining' =>
      createStars remaining' w h (d + 4)
        (stars ++ [ {| x := random d * w; y := random (d + 1)%nat * h;
                       size := random (d + 2)%nat * 3 + 1;
                       opacity := random (d + 3)%nat |} ])
  end.

(** The body of [stars.forEach] in [animate]: the star is drawn, then
    its opacity moves and is clamped. *)
Definition twinkle (r : Q) (s : Star) : Star :=
  {| x := x s; y := y s; size := size s;
     opacity := max 0.1 (min 1 (opacity s + (r - 0.5) * 0.02)) |}.

Fixpoint forEach (l : list Star) (d : nat) : list Draw * list Star * nat :=
  match l with
  | [] => ([], [], d)
  | s :: rest =>
      let '(ds, ss, d') := forEach rest (S d) in
      (disc (x s) (y s) (size s) (opacity s) :: ds, twinkle (random d) s :: ss, d')
  end.

(** [animate]: one frame, which requests the next. *)
Definition animate (c : StarCanvas) : StarCanvas :=
  let '(ds, ss, d) := forEach (stars c) (drawn c) in
  {| width := width c; height := height c; stars := ss;
     calls := clearRect (width c) (height c) :: ds;
     listening := listening c; frameRequested := true; drawn := d |}.

(** The five sparkles of [handleClick]. *)
Fixpoint sparkle (remaining : nat) (x0 y0 : Q) (d : nat) (stars : list Star)
  : list Star * nat :=
  match remaining with
  | O => (stars, d)
  | S remaining' =>
      sparkle remaining' x0 y0 (d + 3)
        (stars ++ [ {| x := x0 + (random d - 0.5) * 50;
                       y := y0 + (random (d + 1)%nat - 0.5) * 50;
                       size := random (d + 2)%nat * 4 + 2;
                       opacity := 1 |} ])
  end.

(** [handleClick] for a click at [(clientX, clientY)] when the canvas
    rectangle starts at [(rectLeft, rectTop)]. *)
Definition handleClick (clientX clientY rectLeft rectTop : Q) (c : StarCanvas) : StarCanvas :=
  let x := clientX - rectLeft in
  let y := clientY - rectTop in
  let (ss, d) := sparkle 5 x y (drawn c) (stars c) in
  {| width := width c; height := height c; stars := ss; calls := calls c;
     listening := listening c; frameRequested := frameRequested c; drawn := d |}.

(** The mount effect.  Without a canvas element or a 2D context it
    returns at once. *)
Definition mount (canvas getContext : bool) (innerWidth innerHeight : Q)
  : StarCanvas :=
  if negb canvas then rendered
  else if negb getContext then rendered
  else
    let (ss, d) := createStars 100 innerWidth innerHeight 0 [] in
    let c := animate {| width := innerWidth; height := innerHeight; stars := ss;
                        calls := []; listening := false; frameRequested := false;
                        drawn := d |} in
    {| width := width c; height := height c; stars := stars c; calls := calls c;
       listening := true; frameRequested := frameRequested c; drawn := drawn c |}.

(** The cleanup of the effect: [removeEventListener('click', handleClick)].
    After an early return of the effect there is no cleanup. *)
Definition unmount (c : StarCanvas) : StarCanvas :=
  {| width := width c; height := height c; stars := stars c; calls := calls c;
     listening := false; frameRequested := frameRequested c; drawn := drawn c |}.

Inductive Event :=
| Frame                                   (* the requested animation frame *)
| Click (clientX clientY rectLeft rectTop : Q)    (* a click on the canvas *)
| Unmount.                                (* the proposal screen goes *)

Definition step (e : Event) (c : StarCanvas) : option StarCanvas :=
  match e with
  | Frame => if frameRequested c then Some (animate c) else None
  | Click clientX clientY rectLeft rectTop =>
      if listening c then Some (handleClick clientX clientY rectLeft rectTop c) else None
  | Unmount => Some (unmount c)
  end.

Fixpoint run (es : list Event) (c : StarCanvas) : option StarCanvas :=
  match es with
  | [] => Some c
  | e :: rest =>
      match step e c with
      | Some c' => run rest c'
      | None => None
      end
  end.

End Random.

Definition isClick (e : Event) : bool :=
  match e with Click _ _ _ _ => true | _ => false end.

(** The opacity range [animate] clamps to. *)
Definition bright (s : Star) : Prop := 0.1 <= opacity s /\ opacity s <= 1.

(** A star made by the mount effect for a canvas of size [w] by [h]. *)
Definition firstStar (w h : Q) (s : Star) : Prop :=
  (0 <= x s /\ x s < w) /\ (0 <= y s /\ y s < h) /\ (1 <= size s /\ size s < 4).


(** Where a star is and how large: what a frame must not change. *)
Definition place (s : Star) : Q * Q * Q := (x s, y s, size s).

(** A canvas of 800 by 600 after one click, the unmount and one more
    frame, on the platform of the examples. *)
Definition sample : list Event := [Click 300 200 10 20; Unmount; Frame].

Definition afterSample : StarCanvas :=
  Eval vm_compute in
    match run (App.random App.demo) sample
              (mount (App.random App.demo) true true 800 600) with
    | Some c => c
    | None => rendered
    end.

End Stars.


(* ================================================================== *)
(** * Part II. Theorems *)
(* ================================================================== *)

(** ** The phrase test *)

Module MatcherFacts.
Import Matcher.
Open Scope N_scope.

Lemma startsWith_prefix (p s : jsstring) :
  startsWith s p = true <-> exists post, s = p ++ post.
Proof.
  revert s; induction p as [|v p IH]; intros s; simpl.
  - split; [exists s; reflexivity | reflexivity].
  - destruct s as [|u s]; simpl.
    + split; [discriminate | intros [post H]; discriminate].
    + rewrite andb_true_iff, N.eqb_eq, IH. split.
      * intros [-> [post ->]]. exists post; reflexivity.
      * intros [post H]. injection H as -> ->. split; [reflexivity | exists post; reflexivity].
Qed.

Lemma includes_window (s p : jsstring) :
  includes s p = true <-> exists pre post, s = pre ++ p ++ post.
Proof.
  induction s as [|u s IH]; simpl.
  - rewrite orb_false_r, startsWith_prefix. split.
    + intros [post H]. exists [], post. exact H.
    + intros [pre [post H]]. destruct pre; [exists post; exact H | discriminate].
  - rewrite orb_true_iff, startsWith_prefix, IH. split.
    + intros [[post H] | [pre [post H]]].
      * exists [], post. exact H.
      * exists (u :: pre), post. simpl. now rewrite H.
    + intros [[|x pre] [post H]].
      * left. exists post. exact H.
      * right. injection H as -> H. exists pre, post. exact H.
Qed.

(** A text that holds [p ++ q] holds [p]. *)
Lemma includes_longer (s p q : jsstring) :
  includes s (p ++ q) = true -> includes s p = true.
Proof.
  rewrite !includes_window. intros [pre [post H]].
  exists pre, (q ++ post). now rewrite H, <- app_assoc.
Qed.

Lemma two_words_subsumed (t : jsstring) :
  (includes t radha_radha = true -> includes t radha = true) /\
  (includes t radha_radha_hi = true -> includes t radha_hi = true).
Proof.
  split.
  - change radha_radha with (radha ++ js " radha"). apply includes_longer.
  - change radha_radha_hi with (radha_hi ++ js " राधा"). apply includes_longer.
Qed.

Lemma matches_single_word ul text :
  matches ul text =
  includes (toLowerCase ul text) radha || includes (toLowerCase ul text) radha_hi.
Proof.
  unfold matches. cbv zeta.
  destruct (two_words_subsumed (toLowerCase ul text)) as [A B].
  destruct (includes (toLowerCase ul text) radha_radha);
  destruct (includes (toLowerCase ul text) radha_radha_hi);
  destruct (includes (toLowerCase ul text) radha);
  destruct (includes (toLowerCase ul text) radha_hi);
  simpl; try reflexivity;
  try (specialize (A eq_refl); discriminate);
  try (specialize (B eq_refl); discriminate).
Qed.

(** ** Lower-casing and the phrases *)


Lemma lower_ascii_is_ascii u : is_ascii (lower_ascii u) = is_ascii u.
Proof.
  unfold is_ascii, lower_ascii.
  destruct ((0x41 <=? u) && (u <=? 0x5A)) eqn:E; [|reflexivity].
  apply andb_true_iff in E. destruct E as [A B].
  apply N.leb_le in A, B.
  transitivity true; [|symmetry]; apply N.ltb_lt; lia.
Qed.

Lemma lower_ascii_devanagari u v :
  lower_ascii u = v -> devanagari_unit v = true -> u = v.
Proof.
  unfold lower_ascii, devanagari_unit. intros H D.
  apply andb_true_iff in D. destruct D as [A B]. apply N.leb_le in A, B.
  destruct ((0x41 <=? u) && (u <=? 0x5A)) eqn:E; [|exact H].
  apply andb_true_iff in E. destruct E as [E1 E2]. apply N.leb_le in E1, E2. lia.
Qed.

Lemma devanagari_not_ascii u : devanagari_unit u = true -> is_ascii u = false.
Proof.
  unfold devanagari_unit, is_ascii. intros D.
  apply andb_true_iff in D. destruct D as [A B]. apply N.leb_le in A, B.
  apply N.ltb_ge. lia.
Qed.

Lemma devanagari_lower u : devanagari_unit u = true -> lower_ascii u = u.
Proof.
  unfold devanagari_unit, lower_ascii. intros D.
  apply andb_true_iff in D. destruct D as [A B]. apply N.leb_le in A, B.
  destruct ((0x41 <=? u) && (u <=? 0x5A)) eqn:E; [|reflexivity].
  apply andb_true_iff in E. destruct E as [E1 E2]. apply N.leb_le in E1, E2. lia.
Qed.

Lemma radha_letter_ascii u : radha_letter u = true -> is_ascii u = true.
Proof.
  unfold radha_letter, is_ascii. rewrite !orb_true_iff, !N.eqb_eq.
  intros [[[-> | ->] | ->] | ->]; reflexivity.
Qed.

Lemma key_stable u : key u = true -> stable u = true.
Proof.
  unfold key, stable. rewrite !orb_true_iff.
  intros [H | H]; [left; now apply radha_letter_ascii | now right].
Qed.

Section Folding.
Variable ul : jsstring -> N -> jsstring -> jsstring.
Hypothesis Hdev : keeps_devanagari ul.
Hypothesis Hother : no_radha_from_elsewhere ul.

(** The three kinds of unit and what each becomes. *)
Lemma unit_cases before c after :
  (is_ascii c = true /\ lower_unit ul before c after = [lower_ascii c]) \/
  (devanagari_unit c = true /\ lower_unit ul before c after = [c]) \/
  (lower_unit ul before c after <> [] /\
   Forall (fun u => key u = false) (lower_unit ul before c after)).
Proof.
  unfold lower_unit. destruct (is_ascii c) eqn:A; [left; auto|].
  destruct (devanagari_unit c) eqn:D.
  - right; left. split; [reflexivity | now apply Hdev].
  - right; right. destruct (Hother before c after A D) as [NE K].
    split; [exact NE|]. apply Forall_forall. intros u Hu.
    destruct (K u Hu) as [K1 K2]. unfold key. now rewrite K1, K2.
Qed.

Lemma stable_unit before u after v :
  same_letter u v -> stable v = true -> lower_unit ul before u after = [v].
Proof.
  unfold same_letter, stable, lower_unit. intros L S.
  apply orb_true_iff in S. destruct S as [S | S].
  - rewrite <- L, lower_ascii_is_ascii in S. now rewrite S, L.
  - pose proof (lower_ascii_devanagari _ _ L S) as ->.
    rewrite (devanagari_not_ascii _ S). now apply Hdev.
Qed.

Lemma lower_prefix w p :
  Forall2 same_letter w p -> Forall (fun v => stable v = true) p ->
  forall before post, exists Y, lower_from ul before (w ++ post) = p ++ Y.
Proof.
  induction 1 as [|u v w p L F IH]; intros S before post.
  - exists (lower_from ul before post). reflexivity.
  - inversion S as [|? ? Sv Sp]; subst.
    destruct (IH Sp (before ++ [u]) post) as [Y HY].
    exists Y. simpl. rewrite HY, (stable_unit _ _ _ _ L Sv). reflexivity.
Qed.

Lemma lower_window pre w post p :
  Forall2 same_letter w p -> Forall (fun v => stable v = true) p ->
  forall before, exists X Y, lower_from ul before (pre ++ w ++ post) = X ++ p ++ Y.
Proof.
  intros F S. induction pre as [|c pre IH]; intros before.
  - destruct (lower_prefix _ _ F S before post) as [Y HY]. exists [], Y. exact HY.
  - destruct (IH (before ++ [c])) as [X [Y H]].
    exists (lower_unit ul before c (pre ++ w ++ post) ++ X), Y.
    simpl. rewrite H. now rewrite app_assoc.
Qed.

Lemma window_prefix q :
  Forall (fun v => key v = true) q ->
  forall rest before Y, lower_from ul before rest = q ++ Y ->
  exists w post, rest = w ++ post /\ Forall2 same_letter w q.
Proof.
  induction 1 as [|v q Kv Kq IH]; intros rest before Y H.
  - exists [], rest. split; [reflexivity | constructor].
  - destruct rest as [|c tl]; [discriminate|]. simpl in H.
    destruct (unit_cases before c tl) as [[A E] | [[D E] | [NE NK]]].
    + rewrite E in H. injection H as Hv H.
      destruct (IH _ _ _ H) as [w [post [-> F]]].
      exists (c :: w), post. split; [reflexivity | constructor; assumption].
    + rewrite E in H. injection H as Hv H.
      destruct (IH _ _ _ H) as [w [post [-> F]]].
      exists (c :: w), post. split; [reflexivity|].
      constructor; [|assumption]. unfold same_letter. rewrite <- Hv.
      now apply devanagari_lower.
    + destruct (lower_unit ul before c tl) as [|o os]; [congruence|].
      injection H as Hv H. inversion NK; subst. congruence.
Qed.

Lemma skip_other o :
  Forall (fun u => key u = false) o ->
  forall X L v q Y, key v = true -> o ++ L = X ++ (v :: q) ++ Y ->
  exists X', X = o ++ X' /\ L = X' ++ (v :: q) ++ Y.
Proof.
  induction 1 as [|o1 o N1 No IH]; intros X L v q Y K H.
  - exists X. split; [reflexivity | exact H].
  - destruct X as [|x X]; simpl in H; injection H as H1 H.
    + congruence.
    + destruct (IH _ _ _ _ _ K H) as [X' [-> HL]].
      exists X'. split; [now rewrite H1 | exact HL].
Qed.

Lemma window_back v q :
  Forall (fun u => key u = true) (v :: q) ->
  forall rest before X Y, lower_from ul before rest = X ++ (v :: q) ++ Y ->
  contains_phrase rest (v :: q).
Proof.
  intros K. induction rest as [|c tl IH]; intros before X Y H.
  - destruct X; discriminate.
  - assert (later : forall b X', lower_from ul b tl = X' ++ (v :: q) ++ Y ->
                                 contains_phrase (c :: tl) (v :: q)).
    { intros b X' H'. destruct (IH _ _ _ H') as [pre [w [post [-> F]]]].
      exists (c :: pre), w, post. split; [reflexivity | exact F]. }
    destruct X as [|x X].
    + destruct (window_prefix _ K _ _ _ H) as [w [post [E F]]].
      exists [], w, post. split; [exact E | exact F].
    + simpl in H.
      destruct (unit_cases before c tl) as [[A E] | [[D E] | [NE NK]]].
      * rewrite E in H. injection H as _ H. eapply later, H.
      * rewrite E in H. injection H as _ H. eapply later, H.
      * inversion K; subst.
        change (lower_unit ul before c tl ++ lower_from ul (before ++ [c]) tl
                = (x :: X) ++ (v :: q) ++ Y) in H.
        destruct (skip_other _ NK _ _ _ _ _ H2 H) as [X' [_ HL]].
        eapply later, HL.
Qed.

End Folding.

Lemma accepted_stable p :
  In p accepted -> Forall (fun v => stable v = true) p.
Proof.
  intros H. simpl in H.
  destruct H as [<- | [<- | [<- | [<- | []]]]]; repeat constructor.
Qed.

Lemma single_words_key :
  Forall (fun u => key u = true) radha /\ Forall (fun u => key u = true) radha_hi.
Proof. split; repeat constructor. Qed.


Lemma startsWith_ci_prefix (p s : jsstring) :
  startsWith_ci s p = true <->
  exists w post, s = w ++ post /\ Forall2 same_letter w p.
Proof.
  revert s; induction p as [|v p IH]; intros s; simpl.
  - split; [intros _; exists [], s; split; [reflexivity | constructor] | reflexivity].
  - destruct s as [|u s].
    + split; [discriminate|]. intros [w [post [E F]]]. inversion F; subst. discriminate.
    + rewrite andb_true_iff, N.eqb_eq, IH. split.
      * intros [L [w [post [-> F]]]]. exists (u :: w), post.
        split; [reflexivity | constructor; assumption].
      * intros [w [post [E F]]]. inversion F as [|u' v' w' p' L F']; subst.
        injection E as -> ->. split; [exact L | exists w', post; auto].
Qed.

Lemma includes_ci_window (s p : jsstring) :
  includes_ci s p = true <-> contains_phrase s p.
Proof.
  unfold contains_phrase. induction s as [|u s IH]; simpl.
  - rewrite orb_false_r, startsWith_ci_prefix. split.
    + intros [w [post [E F]]]. exists [], w, post. auto.
    + intros [pre [w [post [E F]]]]. destruct pre; [exists w, post; auto | discriminate].
  - rewrite orb_true_iff, startsWith_ci_prefix, IH. split.
    + intros [[w [post [E F]]] | [pre [w [post [E F]]]]].
      * exists [], w, post. auto.
      * exists (u :: pre), w, post. split; [simpl; now rewrite E | exact F].
    + intros [[|x pre] [w [post [E F]]]].
      * left. exists w, post. auto.
      * right. injection E as -> E. exists pre, w, post. auto.
Qed.

(** C10.  The unlock test holds exactly when the lower-cased input holds
    "radha" or its Devanagari spelling: the two-word tests add nothing, and
    a text with the name inside a longer word ("aradhana", "radhakrishna")
    unlocks. *)
Theorem unlock_iff_single_word :
  (forall ul text,
      matches ul text = true <->
      includes (toLowerCase ul text) radha = true \/
      includes (toLowerCase ul text) radha_hi = true) /\
  (forall t,
      (includes t radha_radha = true -> includes t radha = true) /\
      (includes t radha_radha_hi = true -> includes t radha_hi = true)) /\
  (forall ul,
      matches ul (js "aradhana") = true /\
      matches ul (js "radhakrishna") = true /\
      matches ul (js "RadhaKrishna") = true).
Proof.
  split; [|split].
  - intros ul text. rewrite matches_single_word. apply orb_true_iff.
  - exact two_words_subsumed.
  - intros ul. repeat split; reflexivity.
Qed.

(** C1.  On a platform whose lower-case tables leave Devanagari alone and
    produce no letter of "radha" from elsewhere, the phrase test is true of
    every text that holds an accepted phrase in any mixture of case, false
    of every text that holds none, and false of the empty text. *)
Theorem matches_correct ul :
  keeps_devanagari ul -> no_radha_from_elsewhere ul ->
  (forall s, contains_accepted s -> matches ul s = true) /\
  (forall s, ~ contains_accepted s -> matches ul s = false) /\
  matches ul [] = false.
Proof.
  intros Hd Ho. split; [|split].
  - intros s [p [Hp [pre [w [post [-> F]]]]]].
    destruct (lower_window ul Hd pre w post p F (accepted_stable p Hp) [])
      as [X [Y H]].
    assert (I : includes (toLowerCase ul (pre ++ w ++ post)) p = true).
    { apply includes_window. exists X, Y. exact H. }
    unfold matches. cbv zeta. simpl in Hp.
    destruct Hp as [<- | [<- | [<- | [<- | []]]]]; rewrite I;
      rewrite ?orb_true_r; reflexivity.
  - intros s N. destruct (matches ul s) eqn:M; [|reflexivity].
    exfalso. apply N. rewrite matches_single_word in M.
    apply orb_true_iff in M.
    destruct single_words_key as [K1 K2].
    destruct M as [M | M]; apply includes_window in M; destruct M as [X [Y M]].
    + exists radha. split; [simpl; auto|].
      exact (window_back ul Hd Ho _ _ K1 _ _ _ _ M).
    + exists radha_hi. split; [simpl; auto|].
      exact (window_back ul Hd Ho _ _ K2 _ _ _ _ M).
  - reflexivity.
Qed.

Lemma uni_keep_devanagari : keeps_devanagari uni_keep.
Proof. intros before c after _. reflexivity. Qed.

Lemma uni_keep_no_radha : no_radha_from_elsewhere uni_keep.
Proof.
  intros before c after A D. split; [discriminate|].
  intros u [<- | []]. split; [|exact D].
  destruct (radha_letter c) eqn:R; [|reflexivity].
  apply radha_letter_ascii in R. congruence.
Qed.

Lemma matches_correct_witness :
  matches uni_keep (js "Jai RaDhA rani") = true /\
  matches uni_keep (js "जय राधा") = true /\
  matches uni_keep (js "hello") = false /\
  matches uni_keep [] = false.
Proof.
  destruct (matches_correct uni_keep uni_keep_devanagari uni_keep_no_radha) as [A [B C]].
  split; [|split; [|split]].
  - apply A. exists radha. split; [simpl; auto|].
    apply includes_ci_window. reflexivity.
  - apply A. exists radha_hi. split; [simpl; auto|].
    apply includes_ci_window. reflexivity.
  - apply B. intros [p [Hp H]]. apply includes_ci_window in H. simpl in Hp.
    destruct Hp as [<- | [<- | [<- | [<- | []]]]]; discriminate H.
  - exact C.
Defined.

End MatcherFacts.

(** ** Handlers that only grow the state; the invariant of reachable states *)

Module Frame.
Import App Inv.
Open Scope Z_scope.

Ltac break :=
  match goal with
  | |- context [match ?x with _ => _ end] =>
      lazymatch x with
      | context [match _ with _ => _ end] => fail
      | _ => destruct x eqn:?
      end
  end.

Lemma grows_refl a : grows a a.
Proof.
  split; [reflexivity|]. exists []. rewrite app_nil_r, Nat.add_0_r.
  repeat split; constructor.
Qed.

Lemma fresh_same a a' t : now a' = now a -> fresh a t -> fresh a' t.
Proof. unfold fresh. intros ->. auto. Qed.

Lemma grows_trans a b c : grows a b -> grows b c -> grows a c.
Proof.
  intros [B1 [n1 [T1 [N1 [I1 F1]]]]] [B2 [n2 [T2 [N2 [I2 F2]]]]].
  split; [congruence|]. exists (n1 ++ n2).
  rewrite T2, T1, N2, N1, length_app, map_app, I1, I2, N1, seq_app, <- app_assoc.
  split; [reflexivity|]. split; [lia|]. split; [reflexivity|].
  apply Forall_app. split; [exact F1|].
  eapply Forall_impl; [|exact F2]. intros t. apply fresh_same.
  unfold bones in B1. congruence.
Qed.

(** A change that touches neither the bones nor the timers. *)
Lemma grows_inner a a' :
  bones a' = bones a -> timers a' = timers a -> nextTimer a' = nextTimer a ->
  grows a a'.
Proof.
  intros B T N. split; [exact B|]. exists [].
  rewrite app_nil_r, Nat.add_0_r. repeat split; auto.
Qed.

Lemma grows_setTimeout delay owner act a :
  0 <= delay -> isReveal act = false -> isStartMusic act = false ->
  (isUnlock act = true -> delay = 1500) -> rearmOff act = false ->
  grows a (setTimeout delay owner act a).
Proof.
  intros D R M U O. split; [reflexivity|].
  eexists [_]. cbn. repeat split; try reflexivity; try lia.
  constructor; [|constructor]. unfold fresh; cbn.
  repeat split; auto; try lia. intros H. rewrite (U H). reflexivity.
Qed.

Lemma grows_schedule owner fx : forall a, mild fx -> grows a (schedule owner fx a).
Proof.
  induction fx as [|[d act] fx IH]; intros a M; simpl.
  - apply grows_refl.
  - inversion M as [|? ? [D [R [S [U O]]]] M']; subst. cbn in *.
    eapply grows_trans; [apply grows_setTimeout; eassumption|]. apply IH, M'.
Qed.

Ltac bones_tac :=
  unfold bones, letterBones, proposalBones; cbn;
  repeat match goal with
         | H : loveLetter _ = _ |- _ => rewrite H
         | H : proposalScreen _ = _ |- _ => rewrite H
         | H : lockScreen _ = _ |- _ => rewrite H
         end;
  cbn; try reflexivity.

Ltac via := match goal with |- grows _ (_ ?x) => apply grows_trans with x end.

Ltac inner := apply grows_inner; [bones_tac | reflexivity | reflexivity].

Lemma mounted_upd f m : isMounted (Lock.upd f m) = isMounted m.
Proof. destruct m; reflexivity. Qed.

Lemma grows_lockHandler h a :
  mild (snd (h (lockScreen a))) ->
  isMounted (fst (h (lockScreen a))) = isMounted (lockScreen a) ->
  grows a (lockHandler h a).
Proof.
  unfold lockHandler. destruct (h (lockScreen a)) as [m fx]. cbn. intros M E.
  eapply grows_trans; [|apply grows_schedule, M].
  apply grows_inner; try reflexivity. unfold bones; cbn. now rewrite E.
Qed.

Ltac mild_tac := repeat constructor; cbn; try lia; try discriminate; auto.

Lemma onStart_ok m :
  mild (snd (Lock.onStart m)) /\ isMounted (fst (Lock.onStart m)) = isMounted m.
Proof. split; [mild_tac | cbn; now rewrite !mounted_upd]. Qed.

Lemma onError_ok m :
  mild (snd (Lock.onError m)) /\ isMounted (fst (Lock.onError m)) = isMounted m.
Proof. split; [mild_tac | cbn; now rewrite !mounted_upd]. Qed.

Lemma onResult_ok ul t m :
  mild (snd (Lock.onResult ul t m)) /\
  isMounted (fst (Lock.onResult ul t m)) = isMounted m.
Proof.
  unfold Lock.onResult, Lock.handleUnlock.
  destruct (Matcher.matches ul t); cbn; (split; [mild_tac | now rewrite !mounted_upd]).
Qed.

Lemma handleFallbackSubmit_ok ul l :
  mild (snd (Lock.handleFallbackSubmit ul l)) /\
  isMounted (fst (Lock.handleFallbackSubmit ul l)) = true.
Proof.
  unfold Lock.handleFallbackSubmit, Lock.handleUnlock.
  destruct (Matcher.matches ul (Lock.fallbackValue l)); cbn; (split; [mild_tac | reflexivity]).
Qed.

Section Handlers.
Variable env : Env.

Lemma rearmDelay_value : Audio.rearmDelay = 13200.
Proof. reflexivity. Qed.

Lemma playMelody_grows owner t a :
  grows a (playMelody env owner true t a).
Proof.
  unfold playMelody. destruct (Audio.forEach 0 Audio.melody t) as [oscs final].
  assert (R : forall b, grows b (setTimeout Audio.rearmDelay owner (Rearm true final) b)).
  { intros b. apply grows_setTimeout; try reflexivity; try discriminate. }
  repeat break; try apply grows_refl; try apply R.
  eapply grows_trans; [|apply R]. inner.
Qed.

Lemma startMusic_grows a : grows a (startMusic env true a).
Proof.
  unfold startMusic. repeat break; try apply grows_refl; try apply playMelody_grows.
  eapply grows_trans; [|apply playMelody_grows]. inner.
Qed.

Lemma isPlayingEffect_grows a : grows a (isPlayingEffect env a).
Proof.
  unfold isPlayingEffect. repeat break; try apply grows_refl.
  - eapply grows_trans; [|apply startMusic_grows]. inner.
  - inner.
Qed.

Lemma setIsPlaying_grows v a : grows a (setIsPlaying env v a).
Proof.
  unfold setIsPlaying. repeat break; try apply grows_refl.
  eapply grows_trans; [|apply isPlayingEffect_grows]. inner.
Qed.

Lemma handleToggle_grows a : grows a (handleToggle env a).
Proof.
  unfold handleToggle. destruct (loveLetter a) eqn:L; [|apply grows_refl].
  eapply grows_trans; [|apply setIsPlaying_grows]. inner.
Qed.

Lemma onProposal_grows owner f a :
  (forall p, Proposal.instance (f p) = Proposal.instance p /\
             Proposal.timer1 (f p) = Proposal.timer1 p) ->
  grows a (onProposal owner f a).
Proof.
  intros F. unfold onProposal. repeat break; try apply grows_refl.
  apply grows_inner; try reflexivity. bones_tac.
  destruct (F p) as [-> ->]. reflexivity.
Qed.

Lemma proposalHandler_grows h p a :
  proposalScreen a = Some p ->
  mild (snd (h p)) ->
  Proposal.instance (fst (h p)) = Proposal.instance p ->
  Proposal.timer1 (fst (h p)) = Proposal.timer1 p ->
  grows a (proposalHandler h p a).
Proof.
  unfold proposalHandler. destruct (h p) as [p' fx]. cbn. intros P M I T.
  eapply grows_trans; [|apply grows_schedule, M].
  apply grows_inner; try reflexivity. bones_tac. now rewrite I, T.
Qed.

Lemma celebration_mild : mild Proposal.celebration.
Proof.
  unfold mild, Proposal.celebration. apply Forall_forall. intros [d act] H.
  apply in_map_iff in H. destruct H as [i [E _]]. injection E as <- <-.
  cbn. repeat split; try lia; try discriminate; reflexivity.
Qed.


(** Every timer callback other than the unlock and the reveal tick is a
    handler that only grows the state. *)
Lemma runAction_cases t a :
  grows a (runAction env t a) \/
  (action t = CallOnUnlock /\ runAction env t a = setCurrentStage env letter a) \/
  (action t = RevealTick /\ runAction env t a = revealTick (owner t) a).
Proof.
  unfold runAction. destruct (action t) eqn:A.
  - left. apply grows_inner; try reflexivity. unfold bones; cbn.
    unfold Lock.resetStatus. now rewrite mounted_upd.
  - right; left. split; reflexivity.
  - left. repeat break; try apply grows_refl. apply setIsPlaying_grows.
  - right; right. split; reflexivity.
  - left. destruct isPlaying; [apply playMelody_grows | apply grows_refl].
  - left. apply onProposal_grows. intros p; split; reflexivity.
  - left. apply onProposal_grows. intros p; split; reflexivity.
  - left.
    via;
      [apply onProposal_grows; intros p; split; reflexivity|].
    apply grows_inner; reflexivity.
  - left. eapply grows_trans; [|apply grows_setTimeout; try reflexivity; try discriminate; lia].
    apply grows_inner; reflexivity.
  - left. apply grows_inner; reflexivity.
Qed.

(** Every event is a handler that only grows the state, the passing of
    time, a timer firing, or the "next page" button. *)
Lemma step_cases e a a' :
  step env e a = Some a' ->
  grows a a' \/
  (exists t, e = Wait t /\ now a <= t /\ (forall x, In x (timers a) -> t <= due x) /\
             a' = withNow t a) \/
  (exists t, e = FireTimer /\ nextToFire (timers a) = Some t /\
             a' = runAction env t (expire t a)) \/
  (exists l, e = ClickContinue /\ loveLetter a = Some l /\
             Letter.continueShown l = true /\ a' = setCurrentStage env proposal a).
Proof.
  destruct e; cbn [step]; intros H.
  - right; left. exists t.
    destruct ((now a <=? t) && forallb (fun x => t <=? due x) (timers a)) eqn:E;
      [|discriminate].
    apply andb_true_iff in E. destruct E as [E1 E2].
    apply Z.leb_le in E1. injection H as <-.
    repeat split; auto. intros x Hx.
    apply Z.leb_le. exact (proj1 (forallb_forall _ _) E2 x Hx).
  - right; right; left. unfold fire in H.
    destruct (nextToFire (timers a)) as [t|]; [|discriminate].
    injection H as <-. exists t. auto.
  - left. destruct (lockScreen a) eqn:L; [|discriminate]. injection H as <-.
    break; [apply grows_inner; reflexivity | apply grows_refl].
  - left. destruct (requested a) eqn:R; [discriminate|]. injection H as <-.
    via; [apply grows_inner; reflexivity|].
    apply grows_lockHandler; apply onStart_ok.
  - left. destruct (capturing a) eqn:C; [discriminate|]. injection H as <-.
    via; [apply grows_inner; reflexivity|].
    apply grows_lockHandler; apply onResult_ok.
  - left. destruct (requested a) eqn:R; [destruct (capturing a) eqn:C; [discriminate|]|];
      injection H as <-;
      (via; [apply grows_inner; reflexivity|]);
      apply grows_lockHandler; apply onError_ok.
  - left. destruct (lockScreen a) eqn:L; [|discriminate].
    destruct (Lock.showFallback l); [|discriminate]. injection H as <-. inner.
  - left. destruct (lockScreen a) eqn:L; [|discriminate].
    destruct (Lock.showFallback l); [|discriminate]. injection H as <-.
    apply grows_lockHandler; [apply handleFallbackSubmit_ok|].
    rewrite L. apply handleFallbackSubmit_ok.
  - left. destruct (loveLetter a) eqn:L; [|discriminate].
    destruct (Letter.isSupported (Letter.music l)); [|discriminate].
    injection H as <-. apply handleToggle_grows.
  - right; right; right. destruct (loveLetter a) eqn:L; [|discriminate].
    destruct (Letter.continueShown l) eqn:C; [|discriminate].
    injection H as <-. exists l. auto.
  - left. destruct (proposalScreen a) eqn:P; [|discriminate].
    destruct (Proposal.hintShown p); [|discriminate]. injection H as <-.
    apply proposalHandler_grows; auto; mild_tac.
  - left. destruct (proposalScreen a) eqn:P; [|discriminate].
    destruct (Proposal.buttonsShown p); [|discriminate]. injection H as <-.
    apply proposalHandler_grows; auto. apply celebration_mild.
  - left. destruct (proposalScreen a) eqn:P; [|discriminate].
    destruct (Proposal.buttonsShown p); [|discriminate]. injection H as <-.
    via;
      [apply proposalHandler_grows; auto; mild_tac|].
    apply grows_inner; reflexivity.
Qed.

End Handlers.

(** ** What growing preserves *)

Lemma mounted_letterBones o : isMounted (letterBones o) = isMounted o.
Proof. destruct o; reflexivity. Qed.

Lemma mounted_proposalBones o : isMounted (proposalBones o) = isMounted o.
Proof. destruct o; reflexivity. Qed.

Lemma bones_consistent a a' : bones a' = bones a -> consistent a' = consistent a.
Proof.
  unfold bones, consistent. intros H. injection H as S L Le P _ _ _.
  rewrite S, L, <- (mounted_letterBones (loveLetter a')), Le, mounted_letterBones,
    <- (mounted_proposalBones (proposalScreen a')), P, mounted_proposalBones.
  reflexivity.
Qed.

Lemma grows_stage a a' : grows a a' -> currentStage a' = currentStage a.
Proof. intros [B _]. unfold bones in B. congruence. Qed.

Lemma grows_now a a' : grows a a' -> now a' = now a.
Proof. intros [B _]. unfold bones in B. congruence. Qed.

Lemma grows_mounts a a' : grows a a' -> mounts a' = mounts a.
Proof. intros [B _]. unfold bones in B. congruence. Qed.

Lemma grows_letter a a' : grows a a' -> letterBones (loveLetter a') = letterBones (loveLetter a).
Proof. intros [B _]. unfold bones in B. congruence. Qed.

Lemma grows_nextTimer a a' : grows a a' -> (nextTimer a <= nextTimer a')%nat.
Proof. intros [_ [new [_ [N _]]]]. lia. Qed.

(** The timers of the grown state: the old ones, and new ones that are
    fresh and carry handles from the old next handle on. *)
Lemma grows_timers a a' t :
  grows a a' -> In t (timers a') ->
  In t (timers a) \/ (fresh a t /\ (nextTimer a <= tid t < nextTimer a')%nat).
Proof.
  intros [_ [new [T [N [I F]]]]] H. rewrite T in H. apply in_app_or in H.
  destruct H as [H | H]; [left; exact H | right]. split.
  - exact (proj1 (Forall_forall _ _) F t H).
  - assert (In (tid t) (seq (nextTimer a) (List.length new))) as S
        by (rewrite <- I; now apply in_map).
    apply in_seq in S. lia.
Qed.

Lemma grows_keeps a a' t : grows a a' -> In t (timers a) -> In t (timers a').
Proof. intros [_ [new [T _]]] H. rewrite T. apply in_or_app. now left. Qed.

Lemma grows_tidy a a' : grows a a' -> tidy a -> tidy a'.
Proof.
  intros G [T1 [T2 T3]]. split; [|split]; intros t H.
  - destruct (grows_timers _ _ _ G H) as [O | [_ N]]; [|lia].
    pose proof (T1 t O). pose proof (grows_nextTimer _ _ G). lia.
  - intros R. destruct (grows_timers _ _ _ G H) as [O | [[_ [_ [F _]]] _]]; [|congruence].
    rewrite (grows_mounts _ _ G). now apply T2.
  - destruct (grows_timers _ _ _ G H) as [O | [[_ [_ [_ [_ [_ F]]]]] _]];
      [now apply T3 | exact F].
Qed.

Lemma grows_sound a a' : grows a a' -> sound a -> sound a'.
Proof.
  intros G [C T]. split; [|now apply (grows_tidy _ _ G)].
  destruct G as [B _]. now rewrite (bones_consistent _ _ B).
Qed.

(** ** The timer table *)

Lemma clear_In id l x : In x (clear id l) <-> In x l /\ tid x <> id.
Proof.
  unfold clear. rewrite filter_In, negb_true_iff, Nat.eqb_neq. reflexivity.
Qed.

Lemma nextToFire_first l t :
  nextToFire l = Some t -> In t l /\ forall x, In x l -> due t <= due x.
Proof.
  revert t. induction l as [|x l IH]; intros t; simpl; [discriminate|].
  destruct (nextToFire l) as [y|] eqn:E.
  - destruct (IH y eq_refl) as [Iy My]. intros H. injection H as <-.
    unfold earlier. destruct (due x <? due y) eqn:L; cbn [orb].
    + apply Z.ltb_lt in L. split; [now left|].
      intros z [<- | Hz]; [lia | specialize (My z Hz); lia].
    + apply Z.ltb_ge in L. destruct (due x =? due y) eqn:Q; cbn [andb].
      * apply Z.eqb_eq in Q. destruct (tid x <=? tid y)%nat.
        -- split; [now left|]. intros z [<- | Hz]; [lia | specialize (My z Hz); lia].
        -- split; [now right|]. intros z [<- | Hz]; [lia | now apply My].
      * split; [now right|]. intros z [<- | Hz]; [lia | now apply My].
  - intros H. injection H as <-. destruct l; [|simpl in E; destruct (nextToFire l); discriminate].
    split; [now left|]. intros z [<- | []]. lia.
Qed.

Lemma reschedule_In t x :
  In x (reschedule t) ->
  tid x = tid t /\ owner x = owner t /\ action x = action t /\
  exists p, every t = Some p /\ every x = Some p /\ due x = due t + p.
Proof.
  unfold reschedule. destruct (every t) as [p|] eqn:E; [|intros []].
  intros [<- | []]. cbn. repeat split. exists p. auto.
Qed.

Lemma expire_In t a x :
  In x (timers (expire t a)) <->
  (In x (timers a) /\ tid x <> tid t) \/ In x (reschedule t).
Proof. cbn. rewrite in_app_iff, clear_In. reflexivity. Qed.

Lemma expire_sound t a : In t (timers a) -> sound a -> sound (expire t a).
Proof.
  intros I [C [T1 [T2 T3]]]. split; [exact C|].
  split; [|split]; intros x H; apply expire_In in H.
  - destruct H as [[H _] | H]; [now apply T1|].
    apply reschedule_In in H. destruct H as [-> _]. now apply T1.
  - destruct H as [[H _] | H]; [now apply T2|].
    apply reschedule_In in H. destruct H as [_ [-> [-> _]]]. now apply T2.
  - destruct H as [[H _] | H]; [now apply T3|].
    apply reschedule_In in H. destruct H as [_ [_ [-> _]]]. now apply T3.
Qed.

Lemma revealTick_sound owner a : sound a -> sound (revealTick owner a).
Proof.
  intros S. unfold revealTick. repeat break; auto; destruct S as [C [T1 [T2 T3]]].
  - split; [|split; [|split]].
    + unfold consistent in *. cbn. now rewrite Heqo in C.
    + intros t H. cbn in H. apply clear_In in H. now apply T1.
    + intros t H. cbn in H. apply clear_In in H. now apply T2.
    + intros t H. cbn in H. apply clear_In in H. now apply T3.
  - split; [|split; [|split]; assumption].
    unfold consistent in *. cbn. now rewrite Heqo in C.
Qed.

Section Stage.
Variable env : Env.

Lemma setCurrentStage_sound s a : sound a -> sound (setCurrentStage env s a).
Proof.
  intros [C [T1 [T2 T3]]]. unfold setCurrentStage.
  destruct (stage_eqb s (currentStage a)) eqn:E;
    [split; [assumption|split; [|split]; assumption]|].
  unfold consistent in C.
  assert (TU : tidy (unmount a) /\
               lockScreen (unmount a) = None /\ loveLetter (unmount a) = None /\
               proposalScreen (unmount a) = None).
  { unfold unmount, unmountLockScreen, unmountLoveLetter, unmountProposal.
    destruct (currentStage a);
      destruct (lockScreen a) eqn:EL, (loveLetter a) eqn:ELe, (proposalScreen a) eqn:EP;
      try discriminate; cbn; rewrite ?EL, ?ELe, ?EP;
        (split; [split; [|split]; intros t H; cbn in H;
                 repeat (apply clear_In in H; destruct H as [H _]); auto
                | auto]). }
  destruct TU as [[U1 [U2 U3]] [UL [ULe UP]]].
  assert (M : mounts (unmount a) = mounts a).
  { unfold unmount, unmountLockScreen, unmountLoveLetter, unmountProposal.
    repeat break; reflexivity. }
  split.
  - unfold consistent, mount, mountLockScreen, mountLoveLetter, mountProposal.
    destruct s; cbn; rewrite ?UL, ?ULe, ?UP; reflexivity.
  - unfold mount, mountLockScreen, mountLoveLetter, mountProposal.
    destruct s; cbn; (split; [|split]); intros t H; cbn in H;
      rewrite ?in_app_iff in H; cbn in H.
    + now apply U1.
    + now apply U2.
    + now apply U3.
    + destruct H as [[H | [<- | []]] | [<- | []]]; cbn; try lia.
      specialize (U1 t H). lia.
    + intros R. destruct H as [[H | [<- | []]] | [<- | []]]; cbn; try lia; try discriminate.
      specialize (U2 t H R). lia.
    + destruct H as [[H | [<- | []]] | [<- | []]]; cbn; try reflexivity.
      now apply U3.
    + destruct H as [H | [<- | []]]; cbn; try lia. specialize (U1 t H). lia.
    + intros R. destruct H as [H | [<- | []]]; cbn; try discriminate.
      specialize (U2 t H R). lia.
    + destruct H as [H | [<- | []]]; cbn; try reflexivity. now apply U3.
Qed.

Lemma runAction_sound t a : sound a -> sound (runAction env t a).
Proof.
  intros S. destruct (runAction_cases env t a) as [G | [[_ ->] | [_ ->]]].
  - exact (grows_sound _ _ G S).
  - now apply setCurrentStage_sound.
  - now apply revealTick_sound.
Qed.

Lemma step_sound e a a' : step env e a = Some a' -> sound a -> sound a'.
Proof.
  intros H S. destruct (step_cases env e a a' H)
    as [G | [[t [_ [_ [_ ->]]]] | [[t [_ [N ->]]] | [l [_ [_ [_ ->]]]]]]].
  - exact (grows_sound _ _ G S).
  - exact S.
  - apply runAction_sound, expire_sound; [|exact S].
    now apply nextToFire_first.
  - now apply setCurrentStage_sound.
Qed.

Lemma run_sound es : forall a a', run env es a = Some a' -> sound a -> sound a'.
Proof.
  induction es as [|e es IH]; intros a a' H S; simpl in H.
  - now injection H as <-.
  - destruct (step env e a) as [b|] eqn:E; [|discriminate].
    exact (IH _ _ H (step_sound _ _ _ E S)).
Qed.

Lemma init_sound : sound (init env).
Proof. split; [reflexivity|]. split; [|split]; intros t []. Qed.

Lemma reachable_sound a : reachable env a -> sound a.
Proof. intros [es H]. exact (run_sound _ _ _ H init_sound). Qed.

End Stage.

(** ** Handles and unlock timers *)

Lemma handles_filter keep l :
  NoDup (map tid l) -> NoDup (map tid (filter keep l)).
Proof.
  induction l as [|x l IH]; simpl; intros D; [constructor|].
  inversion D as [|? ? Nx Dl]; subst. destruct (keep x); [|now apply IH].
  simpl. constructor; [|now apply IH].
  intros H. apply Nx. apply in_map_iff in H. destruct H as [y [Ey Hy]].
  apply filter_In in Hy. apply in_map_iff. exists y. tauto.
Qed.

Lemma handles_kept keep l new n :
  NoDup (map tid l) -> (forall t, In t l -> (tid t < n)%nat) ->
  map tid new = seq n (List.length new) ->
  NoDup (map tid (filter keep l ++ new)).
Proof.
  intros D B E. rewrite map_app. apply NoDup_app.
  - now apply handles_filter.
  - rewrite E. apply seq_NoDup.
  - intros i H1 H2. apply in_map_iff in H1. destruct H1 as [y [Ey Hy]].
    apply filter_In in Hy. rewrite E in H2. apply in_seq in H2.
    pose proof (B y (proj1 Hy)). lia.
Qed.

Lemma filter_all {A : Type} (l : list A) : filter (fun _ => true) l = l.
Proof. induction l; simpl; congruence. Qed.

Lemma grows_timely a a' : grows a a' -> tidy a -> timely a -> timely a'.
Proof.
  intros G [T1 _] [D U]. split.
  - destruct G as [_ [new [T [N [I F]]]]]. rewrite T.
    rewrite <- (filter_all (timers a)).
    now apply handles_kept with (nextTimer a).
  - intros t H K. rewrite (grows_now _ _ G).
    destruct (grows_timers _ _ _ G H) as [O | [[E [L [_ [_ [F _]]]]] _]].
    + now apply U.
    + rewrite (F K). split; [exact E | lia].
Qed.

Lemma expire_timely t a :
  nextToFire (timers a) = Some t -> timely a -> timely (expire t a).
Proof.
  intros N [D U]. destruct (nextToFire_first _ _ N) as [It Mt]. split.
  - cbn [expire timers withTimers withNow]. rewrite map_app. apply NoDup_app.
    + now apply handles_filter.
    + unfold reschedule. destruct (every t); repeat constructor; simpl; tauto.
    + intros i H1 H2. apply in_map_iff in H1. destruct H1 as [y [Ey Hy]].
      apply clear_In in Hy. apply in_map_iff in H2. destruct H2 as [z [Ez Hz]].
      apply reschedule_In in Hz. destruct Hz as [Hz _]. destruct Hy as [_ Hy].
      congruence.
  - intros x H K. apply expire_In in H.
    assert (Now : now (expire t a) = Z.max (now a) (due t)) by reflexivity.
    rewrite Now. destruct H as [[H _] | H].
    + destruct (U x H K) as [E B]. pose proof (Mt x H). split; [exact E | lia].
    + apply reschedule_In in H. destruct H as [_ [_ [A [p [E _]]]]].
      rewrite A in K. destruct (U t It K) as [E' _]. congruence.
Qed.

Lemma clear_timely id a : timely a -> timely (clearTimeout id a).
Proof.
  intros [D U]. split.
  - now apply handles_filter.
  - intros t H K. cbn in H. apply clear_In in H. now apply U.
Qed.

Lemma timely_same a b :
  timers b = timers a -> now b = now a -> timely a -> timely b.
Proof. intros E N T. unfold timely. now rewrite E, N. Qed.

Lemma revealTick_timely o a : timely a -> timely (revealTick o a).
Proof.
  intros T. unfold revealTick.
  destruct (loveLetter a) as [l|]; [|exact T].
  destruct (Letter.instance l =? o)%nat; [|exact T].
  destruct (Letter.revealUpdater (Letter.visibleParagraphs l)) as [v cleared].
  destruct cleared; [|exact T].
  apply timely_same with (clearTimeout (Letter.timer l) a); try reflexivity.
  now apply clear_timely.
Qed.

Section Clock.
Variable env : Env.

Lemma unmount_timely a :
  timely a -> timely (unmount a) /\ now (unmount a) = now a /\
  nextTimer (unmount a) = nextTimer a /\
  forall t, In t (timers (unmount a)) -> In t (timers a).
Proof.
  intros T. unfold unmount, unmountLockScreen, unmountLoveLetter, unmountProposal.
  assert (K : forall b : App, timers b = timers a -> now b = now a ->
                nextTimer b = nextTimer a ->
                timely b /\ now b = now a /\ nextTimer b = nextTimer a /\
                forall t, In t (timers b) -> In t (timers a)).
  { intros b E N X. split; [now apply timely_same with a|].
    split; [exact N|]. split; [exact X|]. now rewrite E. }
  destruct (currentStage a);
    [now apply K|destruct (loveLetter a) as [l|]|destruct (proposalScreen a) as [p|]];
    try (now apply K); clear K;
    (split; [|split; [reflexivity|split; [reflexivity|]]]);
    try (intros t H; cbn in H;
         repeat (apply clear_In in H; destruct H as [H _]); exact H).
  - apply timely_same
      with (clearTimeout (Letter.musicTimer l) (clearTimeout (Letter.timer l) a));
      try reflexivity.
    now apply clear_timely, clear_timely.
  - apply timely_same with (clearTimeout (Proposal.timer1 p) a); try reflexivity.
    now apply clear_timely.
Qed.

Lemma setCurrentStage_timely s a :
  tidy a -> timely a -> timely (setCurrentStage env s a).
Proof.
  intros [T1 _] T. unfold setCurrentStage.
  destruct (stage_eqb s (currentStage a)); [exact T|].
  destruct (unmount_timely a T) as [[D U] [N [X I]]].
  assert (B : forall t, In t (timers (unmount a)) -> (tid t < nextTimer (unmount a))%nat).
  { intros t H. rewrite X. apply T1, I, H. }
  unfold mount, mountLockScreen, mountLoveLetter, mountProposal.
  destruct s; (split; [|intros t H K]); cbn in *.
  - exact D.
  - now apply U.
  - rewrite <- app_assoc. rewrite <- (filter_all (timers (unmount a))).
    now apply handles_kept with (nextTimer (unmount a)).
  - rewrite <- app_assoc in H. apply in_app_or in H.
    destruct H as [H | [<- | [<- | []]]]; [now apply U | discriminate | discriminate].
  - rewrite <- (filter_all (timers (unmount a))).
    now apply handles_kept with (nextTimer (unmount a)).
  - apply in_app_or in H.
    destruct H as [H | [<- | []]]; [now apply U | discriminate].
Qed.

Lemma runAction_timely t a : sound a -> timely a -> timely (runAction env t a).
Proof.
  intros [_ S] T. destruct (runAction_cases env t a) as [G | [[_ ->] | [_ ->]]].
  - exact (grows_timely _ _ G S T).
  - now apply setCurrentStage_timely.
  - now apply revealTick_timely.
Qed.

Lemma step_timely e a a' :
  step env e a = Some a' -> sound a -> timely a -> timely a'.
Proof.
  intros H S T. destruct (step_cases env e a a' H)
    as [G | [[t [_ [L [M ->]]]] | [[t [_ [N ->]]] | [l [_ [_ [_ ->]]]]]]].
  - exact (grows_timely _ _ G (proj2 S) T).
  - destruct T as [D U]. split; [exact D|]. intros x Hx K. cbn in *.
    destruct (U x Hx K) as [E B]. pose proof (M x Hx). split; [exact E | lia].
  - apply runAction_timely.
    + apply expire_sound; [now apply nextToFire_first | exact S].
    + now apply expire_timely.
  - apply setCurrentStage_timely; [apply S | exact T].
Qed.

Lemma run_timely es : forall a a',
  run env es a = Some a' -> sound a -> timely a -> timely a'.
Proof.
  induction es as [|e es IH]; intros a a' H S T; simpl in H.
  - now injection H as <-.
  - destruct (step env e a) as [b|] eqn:E; [|discriminate].
    exact (IH _ _ H (step_sound _ _ _ _ E S) (step_timely _ _ _ E S T)).
Qed.

Lemma init_timely : timely (init env).
Proof. split; [constructor | intros t []]. Qed.

Lemma reachable_timely a : reachable env a -> timely a.
Proof. intros [es H]. exact (run_timely _ _ _ H (init_sound env) init_timely). Qed.

End Clock.
End Frame.

(** ** The unlock timer *)

Module Unlock.
Import App Inv Frame.
Open Scope Z_scope.



Lemma pending_In act a t :
  In t (pending act a) <-> In t (timers a) /\ act (action t) = true.
Proof. unfold pending. apply filter_In. Qed.

Section Run.
Variable env : Env.

Lemma setCurrentStage_now s a : now (setCurrentStage env s a) = now a.
Proof.
  unfold setCurrentStage, mount, unmount, mountLockScreen, mountLoveLetter,
    mountProposal, unmountLockScreen, unmountLoveLetter, unmountProposal.
  repeat break; reflexivity.
Qed.

Lemma setCurrentStage_stage s a :
  currentStage (setCurrentStage env s a) = s.
Proof.
  unfold setCurrentStage. destruct (stage_eqb s (currentStage a)) eqn:E.
  - destruct s, (currentStage a); try discriminate; reflexivity.
  - unfold mount, mountLockScreen, mountLoveLetter, mountProposal.
    destruct s; reflexivity.
Qed.


Lemma revealTick_stage o a : currentStage (revealTick o a) = currentStage a.
Proof. unfold revealTick. repeat break; reflexivity. Qed.










Lemma stages_head es a : exists rest, stages env es a = currentStage a :: rest.
Proof. destruct es; simpl; eauto. Qed.








End Run.




End Unlock.

(** ** The reveal of the letter *)

Module Reveal.
Import App Inv Frame Unlock.
Open Scope Z_scope.

Lemma bones_letter a a' l :
  letterBones (loveLetter a') = letterBones (loveLetter a) ->
  loveLetter a = Some l ->
  exists l', loveLetter a' = Some l' /\
             Letter.instance l' = Letter.instance l /\
             Letter.visibleParagraphs l' = Letter.visibleParagraphs l /\
             Letter.timer l' = Letter.timer l.
Proof.
  intros B L. rewrite L in B. destruct (loveLetter a') as [l'|]; [|discriminate].
  cbn in B. injection B as I V _ T. exists l'. auto.
Qed.

Lemma bones_unmounted a a' :
  letterBones (loveLetter a') = letterBones (loveLetter a) ->
  loveLetter a = None -> loveLetter a' = None.
Proof.
  intros B L. rewrite L in B. destruct (loveLetter a'); [discriminate | reflexivity].
Qed.

Lemma shown_grows a a' : grows a a' -> shown a' = shown a.
Proof.
  intros G. unfold shown.
  destruct (loveLetter a) as [l|] eqn:L.
  - destruct (bones_letter a a' l (grows_letter _ _ G) L) as [l' [-> [_ [V _]]]].
    exact V.
  - now rewrite (bones_unmounted a a' (grows_letter _ _ G) L).
Qed.

Lemma gone_grows i a a' : gone i a -> grows a a' -> gone i a'.
Proof.
  intros [M N] G. split; [now rewrite (grows_mounts _ _ G)|].
  intros l' L'.
  destruct (loveLetter a) as [l|] eqn:L.
  - destruct (bones_letter a a' l (grows_letter _ _ G) L) as [l2 [L2 [I _]]].
    rewrite L' in L2. injection L2 as <-. rewrite I. now apply N.
  - rewrite (bones_unmounted a a' (grows_letter _ _ G) L) in L'. discriminate.
Qed.

Lemma revealing_grows i t0 a a' : revealing i t0 a -> grows a a' -> revealing i t0 a'.
Proof.
  intros [l [L [I [S [M [NT D]]]]]] G.
  destruct (bones_letter a a' l (grows_letter _ _ G) L) as [l' [L' [I' [V' T']]]].
  exists l'. rewrite I', V', T', (grows_stage _ _ G), (grows_mounts _ _ G), (grows_now _ _ G).
  pose proof (grows_nextTimer _ _ G) as NN.
  split; [exact L'|]. split; [exact I|]. split; [exact S|]. split; [exact M|].
  split; [lia|]. cbv zeta in *.
  destruct D as [[K [B [E U]]] | [K [B U]]]; [left | right].
  - split; [exact K|]. split; [exact B|]. split; [now apply (grows_keeps _ _ _ G)|].
    intros t Ht C. destruct (grows_timers _ _ _ G Ht) as [O | [[_ [_ [F _]]] F2]].
    + now apply U.
    + destruct C as [C | [C _]]; [lia | congruence].
  - split; [exact K|]. split; [exact B|].
    intros t Ht. destruct (grows_timers _ _ _ G Ht) as [O | [[_ [_ [F _]]] F2]].
    + now apply U.
    + split; [lia|]. intros [C _]. congruence.
Qed.

Lemma other_dec i r t :
  {other i r t} + {tid t = r \/ (isReveal (action t) = true /\ owner t = i)}.
Proof.
  unfold other. destruct (Nat.eq_dec (tid t) r) as [E | N]; [right; now left|].
  destruct (isReveal (action t)) eqn:R.
  - destruct (Nat.eq_dec (owner t) i) as [E | N2]; [right; right; auto|].
    left. split; [exact N|]. intros [_ C]. contradiction.
  - left. split; [exact N|]. intros [C _]. discriminate.
Qed.

(** A timer other than the reveal interval expires. *)
Lemma revealing_expire_other i t0 a tm l :
  revealing i t0 a -> loveLetter a = Some l ->
  In tm (timers a) -> (forall x, In x (timers a) -> due tm <= due x) ->
  other i (Letter.timer l) tm ->
  revealing i t0 (expire tm a).
Proof.
  intros [l0 [L [I [S [M [NT D]]]]]] L0 It Mt [O1 O2].
  rewrite L in L0. injection L0 as ->.
  exists l. cbn [loveLetter currentStage mounts nextTimer now expire withTimers withNow].
  split; [exact L|]. split; [exact I|]. split; [exact S|]. split; [exact M|].
  split; [exact NT|]. cbv zeta in *.
  assert (Re : forall x, In x (reschedule tm) -> other i (Letter.timer l) x).
  { intros x Hx. apply reschedule_In in Hx. destruct Hx as [E1 [E2 [E3 _]]].
    unfold other. rewrite E1, E2, E3. auto. }
  destruct D as [[K [B [E U]]] | [K [B U]]]; [left | right].
  - pose proof (Mt _ E) as Le. cbn in Le.
    split; [exact K|]. split; [lia|]. split.
    + apply expire_In. left. split; [exact E | cbn; congruence].
    + intros t Ht C. apply expire_In in Ht. destruct Ht as [[Ht _] | Ht].
      * now apply U.
      * destruct (Re t Ht) as [R1 R2]. destruct C as [C | C]; contradiction.
  - split; [exact K|]. split; [lia|].
    intros t Ht. apply expire_In in Ht. destruct Ht as [[Ht _] | Ht].
    + now apply U.
    + exact (Re t Ht).
Qed.

Lemma expire_letter t a : loveLetter (expire t a) = loveLetter a.
Proof. reflexivity. Qed.

Section Run.
Variable env : Env.

Lemma setCurrentStage_same s a : currentStage a = s -> setCurrentStage env s a = a.
Proof.
  intros <-. unfold setCurrentStage. destruct (currentStage a); reflexivity.
Qed.

Lemma revealTick_other o a l :
  loveLetter a = Some l -> Letter.instance l <> o -> revealTick o a = a.
Proof.
  intros L N. unfold revealTick. rewrite L.
  destruct (Nat.eqb_spec (Letter.instance l) o); [contradiction | reflexivity].
Qed.

(** The callback of a timer other than the reveal interval. *)
Lemma revealing_runAction_other i t0 tm a :
  revealing i t0 a -> ~ (isReveal (action tm) = true /\ owner tm = i) ->
  revealing i t0 (runAction env tm a) /\ shown (runAction env tm a) = shown a.
Proof.
  intros R O. destruct (runAction_cases env tm a) as [G | [[_ ->] | [A ->]]].
  - split; [now apply (revealing_grows i t0 a) | now apply shown_grows].
  - destruct R as [l [L [I [S D]]]] eqn:ER.
    rewrite (setCurrentStage_same letter a S). split; [|reflexivity].
    exists l. auto.
  - destruct R as [l [L [I D]]] eqn:ER.
    rewrite (revealTick_other (owner tm) a l L).
    + split; [|reflexivity]. exists l. auto.
    + rewrite I. intros E. apply O. rewrite A. auto.
Qed.

Lemma Z_of_nat_S k : Z.of_nat (k + 1) = Z.of_nat k + 1.
Proof. lia. Qed.

(** The reveal interval fires. *)
Lemma revealing_tick i t0 a l k r :
  loveLetter a = Some l -> Letter.instance l = i -> currentStage a = letter ->
  (i < mounts a)%nat -> (r < nextTimer a)%nat ->
  Letter.visibleParagraphs l = k -> Letter.timer l = r ->
  (k <= Letter.paragraphCount)%nat ->
  t0 + Z.of_nat k * 1200 <= now a <= t0 + (Z.of_nat k + 1) * 1200 ->
  In (revealEntry r i (t0 + (Z.of_nat k + 1) * 1200)) (timers a) ->
  (forall t, In t (timers a) ->
             tid t = r \/ (isReveal (action t) = true /\ owner t = i) ->
             t = revealEntry r i (t0 + (Z.of_nat k + 1) * 1200)) ->
  let e := revealEntry r i (t0 + (Z.of_nat k + 1) * 1200) in
  revealing i t0 (runAction env e (expire e a)) /\
  shown (runAction env e (expire e a)) =
    (if (k <? Letter.paragraphCount)%nat then k + 1 else k)%nat.
Proof.
  intros L I S M NT Vk Tr K B E U e.
  assert (Ex : forall x, In x (timers (expire e a)) ->
                         other i r x \/
                         x = revealEntry r i (t0 + (Z.of_nat k + 1) * 1200 + 1200)).
  { intros x Hx. apply expire_In in Hx. destruct Hx as [[Hx Nx] | Hx].
    - left. destruct (other_dec i r x) as [O | C]; [exact O|].
      rewrite (U x Hx C) in Nx. contradiction.
    - right. destruct Hx as [<- | []]. reflexivity. }
  assert (Now : now (expire e a) = t0 + (Z.of_nat k + 1) * 1200)
    by (cbn; lia).
  unfold runAction. cbn [action e revealEntry owner]. unfold revealTick.
  rewrite expire_letter, L, I, Nat.eqb_refl. unfold Letter.revealUpdater.
  rewrite Vk, Tr.
  destruct (k <? Letter.paragraphCount)%nat eqn:Lt.
  - apply Nat.ltb_lt in Lt. split.
    + eexists. split; [reflexivity|].
      cbn [Letter.instance Letter.setVisibleParagraphs
           Letter.visibleParagraphs Letter.timer].
      rewrite Tr.
      change (now (withLetter _ (expire e a))) with (now (expire e a)).
      rewrite Now.
      split; [exact I|]. split; [exact S|]. split; [exact M|]. split; [exact NT|].
      cbv zeta. left. rewrite Z_of_nat_S.
      split; [lia|]. split; [lia|]. split.
      * apply in_or_app. right. left. unfold revealEntry. cbn. f_equal. lia.
      * intros t Ht C. destruct (Ex t Ht) as [[O1 O2] | ->].
        -- destruct C as [C | C]; contradiction.
        -- unfold revealEntry. f_equal. lia.
    + unfold shown. cbn. reflexivity.
  - apply Nat.ltb_ge in Lt. assert (k = Letter.paragraphCount) as Kn by lia. split.
    + eexists. split; [reflexivity|].
      cbn [Letter.instance Letter.setVisibleParagraphs
           Letter.visibleParagraphs Letter.timer].
      rewrite Tr.
      change (now (clearTimeout _ (withLetter _ (expire e a)))) with (now (expire e a)).
      rewrite Now.
      split; [exact I|]. split; [exact S|]. split; [exact M|]. split; [exact NT|].
      cbv zeta. right.
      split; [exact Kn|]. split; [rewrite <- Kn; lia|].
      intros t Ht. apply clear_In in Ht. destruct Ht as [Ht Nt].
      destruct (Ex t Ht) as [O | ->]; [exact O|]. cbn in Nt. contradiction.
    + unfold shown. cbn. reflexivity.
Qed.


Lemma setCurrentStage_letter_of s a l' :
  loveLetter (setCurrentStage env s a) = Some l' ->
  loveLetter a = Some l' \/ Letter.instance l' = mounts a.
Proof.
  unfold setCurrentStage, mount, unmount, mountLockScreen, mountLoveLetter,
    mountProposal, unmountLockScreen, unmountLoveLetter, unmountProposal.
  repeat break; cbn; intros H; try discriminate; auto;
    try (injection H as <-; right; reflexivity);
    try (left; congruence).
Qed.

Lemma setCurrentStage_mounts s a : (mounts a <= mounts (setCurrentStage env s a))%nat.
Proof.
  unfold setCurrentStage, mount, unmount, mountLockScreen, mountLoveLetter,
    mountProposal, unmountLockScreen, unmountLoveLetter, unmountProposal.
  repeat break; cbn; lia.
Qed.

Lemma setCurrentStage_leaves_letter a :
  currentStage a = letter -> loveLetter (setCurrentStage env proposal a) = None.
Proof.
  intros S. unfold setCurrentStage, mount, unmount, mountProposal, unmountLoveLetter.
  rewrite S. cbn. destruct (loveLetter a) eqn:L; cbn; [reflexivity | exact L].
Qed.

Lemma gone_setCurrentStage i s a : gone i a -> gone i (setCurrentStage env s a).
Proof.
  intros [M N]. pose proof (setCurrentStage_mounts s a). split; [lia|].
  intros l' L'. destruct (setCurrentStage_letter_of s a l' L') as [O | ->].
  - now apply N.
  - lia.
Qed.

Lemma gone_revealTick i o a : gone i a -> gone i (revealTick o a).
Proof.
  intros [M N]. unfold revealTick.
  destruct (loveLetter a) as [l|] eqn:L; [|split; [exact M | now rewrite L]].
  specialize (N l eq_refl).
  repeat break; (split; [exact M|]); cbn; intros l' E;
    try (injection E as <-; exact N); rewrite L in E; injection E as <-; exact N.
Qed.

Lemma gone_runAction i t a : gone i a -> gone i (runAction env t a).
Proof.
  intros G. destruct (runAction_cases env t a) as [Gr | [[_ ->] | [_ ->]]].
  - now apply (gone_grows i a).
  - now apply gone_setCurrentStage.
  - now apply gone_revealTick.
Qed.

Lemma gone_step i e a a' : gone i a -> step env e a = Some a' -> gone i a'.
Proof.
  intros G H. destruct (step_cases env e a a' H)
    as [Gr | [[t [_ [_ [_ ->]]]] | [[t [_ [_ ->]]] | [l [_ [_ [_ ->]]]]]]].
  - now apply (gone_grows i a).
  - exact G.
  - apply gone_runAction. exact G.
  - now apply gone_setCurrentStage.
Qed.

(** One event while the letter instance [i] reveals its paragraphs: it
    still does, with the same count or one more, or it has been unmounted. *)
Lemma revealing_step i t0 e a a' :
  revealing i t0 a -> step env e a = Some a' ->
  (revealing i t0 a' /\ (shown a <= shown a' <= shown a + 1)%nat) \/ gone i a'.
Proof.
  intros R H. destruct (step_cases env e a a' H)
    as [Gr | [[t [_ [Lt [Mt ->]]]] | [[tm [_ [Nx ->]]] | [l [_ [_ [_ ->]]]]]]].
  - left. split; [now apply (revealing_grows i t0 a)|].
    rewrite (shown_grows _ _ Gr). lia.
  - left. split; [|unfold shown; cbn; lia].
    destruct R as [l [L [I [S [M [NT D]]]]]]. exists l.
    cbn [loveLetter currentStage mounts nextTimer now timers withNow].
    split; [exact L|]. split; [exact I|]. split; [exact S|]. split; [exact M|].
    split; [exact NT|]. cbv zeta in *.
    destruct D as [[K [B [E U]]] | [K [B U]]]; [left | right].
    + pose proof (Mt _ E) as Le. cbn in Le.
      split; [exact K|]. split; [lia|]. split; [exact E | exact U].
    + split; [exact K|]. split; [lia | exact U].
  - destruct (nextToFire_first _ _ Nx) as [It Mt].
    pose proof R as R0.
    destruct R as [l [L [I [S [M [NT D]]]]]]. cbv zeta in D.
    destruct (other_dec i (Letter.timer l) tm) as [O | C].
    + left.
      pose proof (revealing_expire_other i t0 a tm l R0 L It Mt O) as R1.
      destruct (revealing_runAction_other i t0 tm (expire tm a) R1 (proj2 O)) as [R2 Sh].
      split; [exact R2|]. rewrite Sh. unfold shown. cbn. lia.
    + destruct D as [[K [B [E U]]] | [K [B U]]].
      * left. rewrite (U tm It C).
        destruct (revealing_tick i t0 a l _ _ L I S M NT eq_refl eq_refl K B E U)
          as [R2 Sh].
        split; [exact R2|]. rewrite Sh. unfold shown. rewrite L.
        destruct (Letter.visibleParagraphs l <? Letter.paragraphCount)%nat; lia.
      * exfalso. destruct (U tm It) as [U1 U2].
        destruct C as [C | C]; contradiction.
  - right. destruct R as [l0 [L [I [S [M _]]]]].
    pose proof (setCurrentStage_mounts proposal a). split; [lia|].
    intros l' L'. rewrite (setCurrentStage_leaves_letter a S) in L'. discriminate.
Qed.

Lemma gone_run i es : forall a a',
  gone i a -> run env es a = Some a' -> gone i a'.
Proof.
  induction es as [|e es IH]; intros a a' G H; simpl in H.
  - now injection H as <-.
  - destruct (step env e a) as [b|] eqn:E; [|discriminate].
    exact (IH b a' (gone_step i e a b G E) H).
Qed.

Lemma revealing_run i t0 es : forall a a',
  revealing i t0 a -> run env es a = Some a' ->
  (revealing i t0 a' /\ (shown a <= shown a')%nat) \/ gone i a'.
Proof.
  induction es as [|e es IH]; intros a a' R H; simpl in H.
  - injection H as <-. left. split; [exact R | lia].
  - destruct (step env e a) as [b|] eqn:E; [|discriminate].
    destruct (revealing_step i t0 e a b R E) as [[Rb Sb] | Gb].
    + destruct (IH b a' Rb H) as [[Ra Sa] | Ga]; [left | right; exact Ga].
      split; [exact Ra | lia].
    + right. exact (gone_run i es b a' Gb H).
Qed.

Lemma gone_not_showing i a : gone i a -> showing i a -> False.
Proof. intros [_ N] [l [L I]]. exact (N l L I). Qed.

(** The letter, just mounted. *)
Lemma revealing_start a :
  tidy a -> currentStage a <> letter ->
  revealing (mounts a) (now a) (setCurrentStage env letter a) /\
  shown (setCurrentStage env letter a) = 0%nat /\
  now (setCurrentStage env letter a) = now a.
Proof.
  intros [T1 [T2 _]] S. unfold setCurrentStage.
  destruct (stage_eqb letter (currentStage a)) eqn:E;
    [destruct (currentStage a); try discriminate; contradiction|].
  assert (U : now (unmount a) = now a /\ mounts (unmount a) = mounts a /\
              nextTimer (unmount a) = nextTimer a /\
              forall t, In t (timers (unmount a)) -> In t (timers a)).
  { unfold unmount, unmountLockScreen, unmountLoveLetter, unmountProposal.
    repeat break; cbn; repeat split; auto; intros t H;
      repeat (apply clear_In in H; destruct H as [H _]); exact H. }
  destruct U as [UN [UM [UT UI]]].
  unfold mount, mountLoveLetter. cbn [withStage mounts now nextTimer timers].
  split; [|split; [reflexivity | cbn; exact UN]].
  eexists. split; [reflexivity|]. cbn. rewrite UM, UN, UT.
  split; [reflexivity|]. split; [reflexivity|]. split; [lia|]. split; [lia|].
  left. split; [unfold Letter.paragraphCount; lia|]. split; [lia|]. split.
  - apply in_or_app. right. left. unfold revealEntry. f_equal.
  - intros t Ht C. apply in_app_or in Ht. destruct Ht as [Ht | [<- | []]].
    + apply in_app_or in Ht. destruct Ht as [Ht | [<- | []]].
      * exfalso. pose proof (T1 t (UI t Ht)). pose proof (T2 t (UI t Ht)).
        destruct C as [C | [C1 C2]]; [lia|]. specialize (H0 C1). lia.
      * exfalso. cbn in C. destruct C as [C | [C _]]; [lia | discriminate].
    + unfold revealEntry. f_equal.
Qed.


Lemma revealTimers_In i a t :
  In t (revealTimers i a) <->
  In t (timers a) /\ isReveal (action t) = true /\ owner t = i.
Proof.
  unfold revealTimers. rewrite filter_In, andb_true_iff, Nat.eqb_eq. reflexivity.
Qed.

Lemma revealTimers_none i a :
  (forall t, In t (timers a) -> ~ (isReveal (action t) = true /\ owner t = i)) ->
  revealTimers i a = [].
Proof.
  intros H. destruct (revealTimers i a) as [|t l] eqn:E; [reflexivity|].
  assert (In t (revealTimers i a)) as I by (rewrite E; now left).
  apply revealTimers_In in I. destruct I as [I C]. destruct (H t I C).
Qed.

(** What [revealing] says about the count, the clock and the interval. *)
Lemma revealing_reads i t0 a :
  revealing i t0 a ->
  showing i a /\
  (shown a <= Letter.paragraphCount)%nat /\
  t0 + Z.of_nat (shown a) * 1200 <= now a /\
  ((shown a < Letter.paragraphCount)%nat ->
   now a <= t0 + (Z.of_nat (shown a) + 1) * 1200) /\
  (now a < t0 + (Z.of_nat Letter.paragraphCount + 1) * 1200 ->
   exists r, forall t,
       In t (revealTimers i a) <->
       t = revealEntry r i (t0 + (Z.of_nat (shown a) + 1) * 1200)) /\
  (t0 + (Z.of_nat Letter.paragraphCount + 1) * 1200 < now a ->
   revealTimers i a = []).
Proof.
  intros [l [L [I [S [M [NT D]]]]]]. cbv zeta in D. unfold shown. rewrite L.
  split; [exists l; auto|].
  destruct D as [[K [B [E U]]] | [K [B U]]].
  - split; [exact K|]. split; [lia|]. split; [intros _; lia|]. split.
    + intros _. exists (Letter.timer l). intros t. rewrite revealTimers_In. split.
      * intros [It C]. apply U; auto.
      * intros ->. split; [exact E|]. split; reflexivity.
    + intros Lt. exfalso.
      assert (Z.of_nat (Letter.visibleParagraphs l) <= Z.of_nat Letter.paragraphCount)
        by lia. nia.
  - rewrite K. split; [lia|]. split; [lia|]. split; [intros; lia|]. split.
    + intros Lt. lia.
    + intros _. apply revealTimers_none. intros t It. now apply U.
Qed.

End Run.

(** C6.  When the letter is mounted at clock [t0] as instance [i], it
    shows no paragraph; and as long as that instance is on screen the count
    [k] of paragraphs shown is at most the paragraph count [n], the clock
    is at or past tick [k] and, while [k < n], not past tick [k + 1] (one
    paragraph per 1200 ms tick); the count is below [n] before
    [t0 + n * 1200] and equal to [n] after it; no event lowers it and each
    event raises it by at most one; and the reveal interval is pending
    until the first tick that finds the count reached, tick [n + 1], and
    is cleared from then on. *)
Theorem reveal_progress env a :
  tidy a -> currentStage a <> letter ->
  let a0 := handleUnlock env a in
  let i := mounts a in
  let t0 := now a in
  let n := Letter.paragraphCount in
  showing i a0 /\ shown a0 = 0%nat /\ now a0 = t0 /\
  forall es a1, run env es a0 = Some a1 -> showing i a1 ->
    (shown a1 <= n)%nat /\
    t0 + Z.of_nat (shown a1) * 1200 <= now a1 /\
    ((shown a1 < n)%nat -> now a1 <= t0 + (Z.of_nat (shown a1) + 1) * 1200) /\
    (now a1 < t0 + Z.of_nat n * 1200 -> (shown a1 < n)%nat) /\
    (t0 + Z.of_nat n * 1200 < now a1 -> shown a1 = n) /\
    (now a1 < t0 + (Z.of_nat n + 1) * 1200 ->
     exists r, forall t,
         In t (revealTimers i a1) <->
         t = revealEntry r i (t0 + (Z.of_nat (shown a1) + 1) * 1200)) /\
    (t0 + (Z.of_nat n + 1) * 1200 < now a1 -> revealTimers i a1 = []) /\
    (forall e a2, step env e a1 = Some a2 -> showing i a2 ->
                  shown a2 = shown a1 \/ shown a2 = S (shown a1)) /\
    (forall es' a2, run env es' a1 = Some a2 -> showing i a2 ->
                    (shown a1 <= shown a2)%nat).
Proof.
  intros T S a0 i t0 n.
  destruct (revealing_start env a T S) as [R0 [Sh0 N0]].
  fold (handleUnlock env a) in R0, Sh0, N0. fold a0 i t0 in R0, Sh0, N0.
  split; [apply (revealing_reads i t0 a0 R0)|]. split; [exact Sh0|].
  split; [exact N0|]. intros es a1 Run Sw.
  destruct (revealing_run env i t0 es a0 a1 R0 Run) as [[R1 _] | G];
    [|destruct (gone_not_showing i a1 G Sw)].
  destruct (revealing_reads i t0 a1 R1) as [_ [K [Lo [Hi [P Q]]]]]. fold n in K, Hi, P, Q.
  split; [exact K|]. split; [exact Lo|]. split; [exact Hi|].
  split; [intros; nia|]. split.
  { intros Lt. destruct (Nat.eq_dec (shown a1) n) as [E | NE]; [exact E|].
    assert (shown a1 < n)%nat as C by lia. specialize (Hi C). nia. }
  split; [exact P|]. split; [exact Q|]. split.
  - intros e a2 St Sw2.
    destruct (revealing_step env i t0 e a1 a2 R1 St) as [[_ B] | G];
      [lia | destruct (gone_not_showing i a2 G Sw2)].
  - intros es' a2 Run2 Sw2.
    destruct (revealing_run env i t0 es' a1 a2 R1 Run2) as [[_ B] | G];
      [exact B | destruct (gone_not_showing i a2 G Sw2)].
Qed.

Lemma init_tidy env : tidy (init env).
Proof. split; [|split]; intros t []. Qed.

Lemma reveal_progress_witness :
  run demo (Scenario.fires 4) (handleUnlock demo (init demo))
  = Some Scenario.threeTicks /\
  showing 1 Scenario.threeTicks /\ now Scenario.threeTicks = 3600 /\
  (shown Scenario.threeTicks <= 10)%nat /\
  (now Scenario.threeTicks < 12000 -> (shown Scenario.threeTicks < 10)%nat) /\
  exists r, forall t,
    In t (revealTimers 1 Scenario.threeTicks) <->
    t = revealEntry r 1 (0 + (Z.of_nat (shown Scenario.threeTicks) + 1) * 1200).
Proof.
  assert (N : currentStage (init demo) <> letter) by discriminate.
  assert (H : run demo (Scenario.fires 4) (handleUnlock demo (init demo))
              = Some Scenario.threeTicks) by (vm_compute; reflexivity).
  assert (S : showing 1 Scenario.threeTicks) by (eexists; split; reflexivity).
  destruct (reveal_progress demo (init demo) (init_tidy demo) N) as [_ [_ [_ R]]].
  destruct (R (Scenario.fires 4) Scenario.threeTicks H S)
    as [K [_ [_ [B [_ [P _]]]]]].
  split; [exact H|]. split; [exact S|]. split; [reflexivity|]. split; [exact K|].
  split; [exact B|]. apply P. reflexivity.
Defined.

End Reveal.

(** ** The melody *)

Module AudioFacts.
Import Audio.
Open Scope Q_scope.

(** [playMelody] over the mounted letter whose [startMusic] call it belongs
    to: the oscillators of one pass are connected to the context, and the
    next pass is armed for 13200 ms later, at the clock where this one
    ends. *)
Lemma playMelody_mounted env a l ctx isPlaying t :
  App.loveLetter a = Some l ->
  Letter.audioContextRef (Letter.music l) = Some ctx ->
  Inv.graphOf (App.playMelody env (Letter.instance l) isPlaying t a)
    = Letter.graph ctx ++ pass t /\
  App.timers (App.playMelody env (Letter.instance l) isPlaying t a)
    = App.timers a ++ [Inv.rearmTimer a (Letter.instance l) isPlaying (passEnd t)].
Proof.
  intros L C. unfold App.playMelody, pass, passEnd.
  destruct (forEach 0 melody t) as [oscs final].
  rewrite L, Nat.eqb_refl, C. unfold Inv.graphOf. cbn. split; reflexivity.
Qed.

Lemma flat_map_shift {A B C : Type} (f : B -> list C) (g : A -> B) (l : list A) :
  flat_map f (map g l) = flat_map (fun x => f (g x)) l.
Proof. induction l as [|x l IH]; simpl; [reflexivity | now rewrite IH]. Qed.

(** The [forEach] of any melody: note [k] is played when the clock has
    advanced by the durations of the notes before it. *)
Lemma forEach_steps notes : forall index t,
  forEach index notes t =
  (flat_map (fun k => voices (index + k) (nth k notes rest)
                             (fold_left (fun t n => t + duration n) (firstn k notes) t))
            (seq 0 (List.length notes)),
   fold_left (fun t n => t + duration n) notes t).
Proof.
  induction notes as [|n more IH]; intros index t.
  - reflexivity.
  - cbn [forEach]. rewrite IH. cbn [List.length seq flat_map firstn fold_left nth].
    rewrite Nat.add_0_r. f_equal. f_equal.
    rewrite <- seq_shift, flat_map_shift.
    apply flat_map_ext. intros k. now rewrite Nat.add_succ_r.
Qed.

Lemma noteStart_next t0 i n :
  nth_error melody i = Some n -> noteStart t0 (S i) = noteStart t0 i + duration n.
Proof.
  intros H. do 10 (destruct i as [|i]; [injection H as <-; reflexivity|]).
  destruct i; discriminate.
Qed.

(** C9.  One pass of the melody that starts at clock [t0] plays the ten
    notes in order, note [i] at the clock advanced by the durations of the
    notes before it; under every third note ([i mod 3 = 0]) a harmony at
    1.5 times its frequency, same start and duration, at volume 0.3; under
    every fourth note ([i mod 4 = 0]) an octave at twice its frequency,
    started 0.1 later, 0.8 times as long, at volume 0.2; every oscillator
    carries the envelope of a linear ramp and two exponential decays; and
    the pass ends at the clock advanced by all ten durations. *)
Theorem melody_schedule (t0 : Q) :
  pass t0 =
    flat_map
      (fun i =>
         let n := nth i melody rest in
         let t := noteStart t0 i in
         playNote (note n) t (duration n) 1.0
         :: (if (i mod 3 =? 0)%nat
             then [playNote (note n * 1.5) t (duration n) 0.3] else [])
         ++ (if (i mod 4 =? 0)%nat
             then [playNote (note n * 2) (t + 0.1) (duration n * 0.8) 0.2] else []))
      (seq 0 (List.length melody)) /\
  noteStart t0 0 = t0 /\
  (forall i n, nth_error melody i = Some n ->
               noteStart t0 (S i) = noteStart t0 i + duration n) /\
  passEnd t0 = noteStart t0 (List.length melody) /\
  (forall f s d v,
      frequency (playNote f s d v) = f /\
      start (playNote f s d v) = s /\
      stop (playNote f s d v) = s + d /\
      gain (playNote f s d v) = envelope (peak v) s (s + d)) /\
  (forall p s e, map isLinear (envelope p s e) = [false; true; false; false] /\
                 map isExponential (envelope p s e) = [false; false; true; true]) /\
  (peak 0.2 < peak 0.3 /\ peak 0.3 < peak 1.0) /\
  map note melody =
    [261.63; 293.66; 329.63; 392.00; 349.23; 329.63; 440.00; 392.00; 349.23; 329.63] /\
  map duration melody = [1.0; 1.0; 1.2; 1.5; 1.0; 1.8; 1.2; 1.5; 1.0; 2.0] /\
  (forall env a l ctx isPlaying,
      App.loveLetter a = Some l ->
      Letter.audioContextRef (Letter.music l) = Some ctx ->
      Inv.graphOf (App.playMelody env (Letter.instance l) isPlaying t0 a)
        = Letter.graph ctx ++ pass t0 /\
      App.timers (App.playMelody env (Letter.instance l) isPlaying t0 a)
        = App.timers a
          ++ [Inv.rearmTimer a (Letter.instance l) isPlaying (passEnd t0)]).
Proof.
  split.
  { unfold pass. rewrite forEach_steps. reflexivity. }
  split; [reflexivity|]. split; [exact (noteStart_next t0)|].
  split.
  { unfold passEnd. rewrite forEach_steps. reflexivity. }
  split; [intros; repeat split|]. split; [intros; split; reflexivity|].
  split; [split; reflexivity|]. split; [reflexivity|]. split; [reflexivity|].
  intros env a l ctx isPlaying. apply playMelody_mounted.
Qed.

End AudioFacts.

(** ** Feedback of the lock screen *)

Module LockFacts.
Import App Inv Frame.
Open Scope Z_scope.

(** C4 as stated fails for typed input.  The text "hello" is typed into
    the box of the first screen and submitted: it does not pass the phrase
    test, the stage stays [lock], the status shown is the fixed wrong-word
    message, which does not hold the typed text, and the one timer set is
    the reset of the status after 2000 ms, not 3000 ms. *)
Lemma typed_mismatch_counterexample :
  Matcher.matches uni_keep (js "hello") = false /\
  option_map (fun a => (currentStage a, statusShown a,
                        map (fun t => (due t, action t)) (timers a)))
             (Scenario.stateAfter demo [TypeFallback (js "hello"); SubmitFallback])
  = Some (lock, Some Lock.wrongWordText, [(2000, ResetStatus)]) /\
  includes Lock.wrongWordText (js "hello") = false.
Proof. vm_compute. repeat split. Qed.

Lemma lockHandler_timers h a m fx :
  h (lockScreen a) = (m, fx) ->
  lockScreen (lockHandler h a) = m /\
  currentStage (lockHandler h a) = currentStage a /\
  forall d act, fx = [(d, act)] ->
    timers (lockHandler h a) =
    timers a ++ [{| tid := nextTimer a; due := now a + d; every := None;
                    owner := 0; action := act |}].
Proof.
  intros H. unfold lockHandler. rewrite H.
  assert (G : forall fx b, lockScreen (schedule 0 fx b) = lockScreen b /\
                           currentStage (schedule 0 fx b) = currentStage b).
  { clear. induction fx as [|[d act] fx IH]; intros b; simpl; [auto|].
    destruct (IH (setTimeout d 0 act b)) as [-> ->]. auto. }
  destruct (G fx (withLock m a)) as [-> ->]. split; [reflexivity|].
  split; [reflexivity|]. intros d act ->. reflexivity.
Qed.

(** C4, amended.  Over the mounted lock screen: a spoken input that does
    not match shows the try-again message with the heard text in quotes
    and sets a reset timer for 3000 ms; a typed input that does not match
    shows the fixed wrong-word message and sets a reset timer for 2000 ms;
    a recognition error shows the error message and sets a reset timer for
    2000 ms; none changes the stage; and a reset timer, when it fires,
    shows the prompt again and changes neither the stage nor the timers. *)
Theorem lock_failure_feedback env a l :
  lockScreen a = Some l ->
  (forall transcript c,
      capturing a = S c -> Matcher.matches (uni_lower env) transcript = false ->
      exists a',
        step env (VoiceResult transcript) a = Some a' /\
        statusShown a' =
          Some (Lock.heardPrefix ++ Lock.quote ++ transcript ++ Lock.quote
                ++ Lock.heardSuffix) /\
        currentStage a' = currentStage a /\
        timers a' = timers a ++ [resetTimer a 3000]) /\
  (Lock.showFallback l = true ->
   Matcher.matches (uni_lower env) (Lock.fallbackValue l) = false ->
   exists a',
     step env SubmitFallback a = Some a' /\
     statusShown a' = Some Lock.wrongWordText /\
     currentStage a' = currentStage a /\
     timers a' = timers a ++ [resetTimer a 2000]) /\
  (requested a <> 0%nat \/ capturing a <> 0%nat ->
   exists a',
     step env VoiceError a = Some a' /\
     statusShown a' = Some Lock.errorText /\
     currentStage a' = currentStage a /\
     timers a' = timers a ++ [resetTimer a 2000]) /\
  (forall t b m,
      action t = ResetStatus -> lockScreen b = Some m ->
      statusShown (runAction env t b) = Some Lock.promptText /\
      currentStage (runAction env t b) = currentStage b /\
      timers (runAction env t b) = timers b).
Proof.
  intros L. split; [|split; [|split]].
  - intros transcript c C M. cbn [step]. rewrite C. eexists. split; [reflexivity|].
    destruct (lockHandler_timers (Lock.onResult (uni_lower env) transcript)
                (withVoice (requested a) c a)
                (Some (Lock.setIsListening false (Lock.setStatus (Lock.heardText transcript) l)))
                [(3000, ResetStatus)]) as [E1 [E2 E3]].
    { cbn [lockScreen withVoice]. rewrite L. unfold Lock.onResult. rewrite M. reflexivity. }
    unfold statusShown. rewrite E1, E2, (E3 _ _ eq_refl). repeat split.
  - intros F M. cbn [step]. rewrite L, F. eexists. split; [reflexivity|].
    destruct (lockHandler_timers (fun _ : Lock.Mounted => Lock.handleFallbackSubmit (uni_lower env) l) a
                (Some (Lock.setStatus Lock.wrongWordText l))
                [(2000, ResetStatus)]) as [E1 [E2 E3]].
    { unfold Lock.handleFallbackSubmit. rewrite M. reflexivity. }
    unfold statusShown. rewrite E1, E2, (E3 _ _ eq_refl). repeat split.
  - intros N. cbn [step].
    assert (K : forall r c, lockScreen (withVoice r c a) = Some l) by (intros; exact L).
    destruct (requested a) as [|r] eqn:R; [destruct (capturing a) as [|c] eqn:C|].
    + destruct N as [N | N]; contradiction.
    + eexists. split; [reflexivity|].
      destruct (lockHandler_timers Lock.onError (withVoice 0 c a)
                  (Some (Lock.setIsListening false (Lock.setStatus Lock.errorText l)))
                  [(2000, ResetStatus)]) as [E1 [E2 E3]].
      { rewrite K. reflexivity. }
      unfold statusShown. rewrite E1, E2, (E3 _ _ eq_refl). repeat split.
    + eexists. split; [reflexivity|].
      destruct (lockHandler_timers Lock.onError (withVoice r (capturing a) a)
                  (Some (Lock.setIsListening false (Lock.setStatus Lock.errorText l)))
                  [(2000, ResetStatus)]) as [E1 [E2 E3]].
      { rewrite K. reflexivity. }
      unfold statusShown. rewrite E1, E2, (E3 _ _ eq_refl). repeat split.
  - intros t b m A B. unfold runAction, statusShown. rewrite A. cbn. rewrite B.
    repeat split.
Qed.

Lemma lock_failure_feedback_witness :
  exists a',
    step demo SubmitFallback
         (withLock (Some (Lock.setFallbackValue (js "hello") (Lock.mount true)))
                   (init demo)) = Some a' /\
    statusShown a' = Some Lock.wrongWordText /\
    map due (timers a') = [2000].
Proof.
  destruct (lock_failure_feedback demo
              (withLock (Some (Lock.setFallbackValue (js "hello") (Lock.mount true)))
                        (init demo))
              (Lock.setFallbackValue (js "hello") (Lock.mount true)) eq_refl)
    as [_ [T _]].
  destruct (T eq_refl eq_refl) as [a' [S [St [_ Ti]]]].
  exists a'. split; [exact S|]. split; [exact St|]. rewrite Ti. reflexivity.
Defined.

End LockFacts.

(** ** The proposal screen *)

Module ProposalFacts.
Import App Inv Frame.
Open Scope Q_scope.

Lemma randomPosition_bounds rx ry :
  0 <= rx < 1 -> 0 <= ry < 1 ->
  10 <= Proposal.x (Proposal.randomPosition rx ry) <= 90 /\
  10 <= Proposal.y (Proposal.randomPosition rx ry) <= 90.
Proof.
  intros [X0 X1] [Y0 Y1]. cbn.
  assert (B : forall r, 0 <= r -> r < 1 -> 10 <= r * 80 + 10 <= 90).
  { intros r R0 R1. unfold Qle, Qlt in *. destruct r as [n d]. cbn in *. nia. }
  auto.
Qed.

Section Frames.
Variable env : Env.

Lemma schedule_proposal o fx : forall a,
  proposalScreen (schedule o fx a) = proposalScreen a.
Proof.
  induction fx as [|[d act] fx IH]; intros a; simpl; [reflexivity|].
  now rewrite IH.
Qed.

Lemma lockHandler_proposal h a : proposalScreen (lockHandler h a) = proposalScreen a.
Proof.
  unfold lockHandler. destruct (h (lockScreen a)). now rewrite schedule_proposal.
Qed.

Lemma playMelody_proposal o b t a :
  proposalScreen (playMelody env o b t a) = proposalScreen a.
Proof. unfold playMelody. repeat break; reflexivity. Qed.

Lemma startMusic_proposal b a : proposalScreen (startMusic env b a) = proposalScreen a.
Proof.
  unfold startMusic. repeat break; try reflexivity; now rewrite playMelody_proposal.
Qed.

Lemma isPlayingEffect_proposal a :
  proposalScreen (isPlayingEffect env a) = proposalScreen a.
Proof.
  unfold isPlayingEffect. repeat break; try reflexivity. now rewrite startMusic_proposal.
Qed.

Lemma setIsPlaying_proposal v a :
  proposalScreen (setIsPlaying env v a) = proposalScreen a.
Proof.
  unfold setIsPlaying. repeat break; try reflexivity. now rewrite isPlayingEffect_proposal.
Qed.

Lemma handleToggle_proposal a : proposalScreen (handleToggle env a) = proposalScreen a.
Proof.
  unfold handleToggle. destruct (loveLetter a); [|reflexivity].
  now rewrite setIsPlaying_proposal.
Qed.

Lemma revealTick_proposal o a : proposalScreen (revealTick o a) = proposalScreen a.
Proof. unfold revealTick. repeat break; reflexivity. Qed.

(** Over a mounted proposal screen, a change of stage either changes
    nothing or unmounts the screen. *)
Lemma setCurrentStage_proposal s a p :
  consistent a = true -> proposalScreen a = Some p ->
  proposalScreen (setCurrentStage env s a) = Some p \/
  proposalScreen (setCurrentStage env s a) = None.
Proof.
  intros C P. unfold consistent in C. rewrite P in C.
  destruct (currentStage a) eqn:S;
    try (destruct (lockScreen a), (loveLetter a); discriminate).
  unfold setCurrentStage. rewrite S.
  destruct s; cbn; unfold unmount, unmountProposal; rewrite ?S, ?P; cbn; auto.
Qed.

(** The callback of a timer, seen from a mounted proposal screen: the
    outcome stays, or the screen is unmounted. *)
Lemma runAction_outcome t a p :
  consistent a = true -> proposalScreen a = Some p ->
  proposalScreen (runAction env t a) = None \/
  exists p', proposalScreen (runAction env t a) = Some p' /\
             Proposal.celebrationMode p' = Proposal.celebrationMode p.
Proof.
  intros C P. unfold runAction.
  destruct (action t); cbn [withLock withDraws withConfetti setTimeout addTimer
                            proposalScreen];
    try (right; exists p; split; [exact P | reflexivity]).
  - destruct (setCurrentStage_proposal letter a p C P) as [H | H]; unfold handleUnlock.
    + right. exists p. auto.
    + now left.
  - right. exists p. split; [|reflexivity]. repeat break; try exact P.
    now rewrite setIsPlaying_proposal.
  - right. exists p. split; [|reflexivity]. now rewrite revealTick_proposal.
  - right. exists p. split; [|reflexivity].
    destruct isPlaying; [now rewrite playMelody_proposal | exact P].
  - right. unfold onProposal. rewrite P.
    destruct (Proposal.instance p =? owner t)%nat; eexists; split; reflexivity || exact P.
  - right. unfold onProposal. rewrite P.
    destruct (Proposal.instance p =? owner t)%nat; eexists; split; reflexivity || exact P.
  - right. unfold onProposal. rewrite P.
    destruct (Proposal.instance p =? owner t)%nat; eexists; split; reflexivity || exact P.
Qed.

End Frames.

(** One event over a mounted proposal screen, with [Math.random] in
    [0, 1): pressing "No" moves the button to the random position, within
    10 and 90 on both axes, and the outcome was and stays Pending;
    pressing "Yes" makes the outcome Accepted; no other event changes the
    outcome of the screen; and an Accepted outcome is still Accepted after
    the event when the screen is still mounted (the event may unmount
    it). *)
Theorem evasive_no env a e a' p :
  consistent a = true ->
  (forall i, 0 <= random env i < 1) ->
  proposalScreen a = Some p ->
  step env e a = Some a' ->
  (e = ClickNo ->
   exists p',
     proposalScreen a' = Some p' /\
     Proposal.buttonPosition p' =
       Proposal.randomPosition (random env (draws a)) (random env (S (draws a))) /\
     10 <= Proposal.x (Proposal.buttonPosition p') <= 90 /\
     10 <= Proposal.y (Proposal.buttonPosition p') <= 90 /\
     Proposal.outcome p = Proposal.Pending /\
     Proposal.outcome p' = Proposal.Pending) /\
  (e = ClickYes ->
   exists p', proposalScreen a' = Some p' /\ Proposal.outcome p' = Proposal.Accepted) /\
  (forall p', proposalScreen a' = Some p' ->
              e <> ClickYes -> Proposal.outcome p' = Proposal.outcome p) /\
  (forall p', proposalScreen a' = Some p' ->
              Proposal.outcome p = Proposal.Accepted ->
              Proposal.outcome p' = Proposal.Accepted).
Proof.
  intros C Rn P H.
  assert (Same : forall b, proposalScreen b = proposalScreen a ->
                 forall p', proposalScreen b = Some p' ->
                            Proposal.outcome p' = Proposal.outcome p).
  { intros b E p' E'. rewrite E, P in E'. now injection E' as <-. }
  assert (Keep : e <> ClickYes -> forall p', proposalScreen a' = Some p' ->
                 Proposal.outcome p' = Proposal.outcome p).
  { intros NY p' P'. destruct e; cbn [step] in H.
    - destruct ((now a <=? t)%Z && forallb (fun x => (t <=? due x)%Z) (timers a));
        [|discriminate]. injection H as <-. exact (Same _ eq_refl p' P').
    - unfold fire in H. destruct (nextToFire (timers a)) as [t|]; [|discriminate].
      injection H as <-.
      destruct (runAction_outcome env t (expire t a) p C P) as [N | [q [Q E]]].
      + rewrite N in P'. discriminate.
      + rewrite Q in P'. injection P' as <-. unfold Proposal.outcome. now rewrite E.
    - destruct (lockScreen a); [|discriminate]. injection H as <-.
      apply (Same (if Lock.startsListening l && speechRecognition env
                   then withVoice (S (requested a)) (capturing a) a else a));
        [|exact P']. now destruct (Lock.startsListening l && speechRecognition env).
    - destruct (requested a); [discriminate|]. injection H as <-.
      refine (Same _ _ p' P'). now rewrite lockHandler_proposal.
    - destruct (capturing a); [discriminate|]. injection H as <-.
      refine (Same _ _ p' P'). now rewrite lockHandler_proposal.
    - destruct (requested a); [destruct (capturing a); [discriminate|]|];
        injection H as <-; refine (Same _ _ p' P'); now rewrite lockHandler_proposal.
    - destruct (lockScreen a); [|discriminate].
      destruct (Lock.showFallback l); [|discriminate]. injection H as <-.
      exact (Same _ eq_refl p' P').
    - destruct (lockScreen a); [|discriminate].
      destruct (Lock.showFallback l); [|discriminate]. injection H as <-.
      refine (Same _ _ p' P'). now rewrite lockHandler_proposal.
    - destruct (loveLetter a); [|discriminate].
      destruct (Letter.isSupported (Letter.music l)); [|discriminate].
      injection H as <-. refine (Same _ _ p' P'). now rewrite handleToggle_proposal.
    - destruct (loveLetter a); [|discriminate].
      destruct (Letter.continueShown l); [|discriminate]. injection H as <-.
      destruct (setCurrentStage_proposal env proposal a p C P) as [E | E];
        unfold handleRevealProposal in P'; rewrite E in P';
        [now injection P' as <- | discriminate].
    - rewrite P in H. destruct (Proposal.hintShown p); [|discriminate].
      injection H as <-. unfold proposalHandler in P'. cbn in P'.
      injection P' as <-. reflexivity.
    - contradiction.
    - rewrite P in H. destruct (Proposal.buttonsShown p); [|discriminate].
      injection H as <-. unfold proposalHandler in P'. cbn in P'.
      injection P' as <-. reflexivity. }
  split; [|split; [|split]].
  - intros ->. cbn [step] in H. rewrite P in H.
    destruct (Proposal.buttonsShown p) eqn:B; [|discriminate]. injection H as <-.
    eexists. split; [reflexivity|]. cbn.
    destruct (randomPosition_bounds _ _ (Rn (draws a)) (Rn (S (draws a)))) as [X Y].
    split; [reflexivity|]. split; [exact X|]. split; [exact Y|].
    unfold Proposal.buttonsShown in B. apply andb_true_iff in B. destruct B as [_ B].
    unfold Proposal.outcome. cbn. apply negb_true_iff in B. rewrite B. auto.
  - intros ->. cbn [step] in H. rewrite P in H.
    destruct (Proposal.buttonsShown p); [|discriminate]. injection H as <-.
    eexists. split; reflexivity.
  - intros p' P' NY. exact (Keep NY p' P').
  - intros p' P' A. destruct e; try (rewrite <- A; apply Keep; [discriminate | exact P']).
    cbn [step] in H. rewrite P in H.
    destruct (Proposal.buttonsShown p); [|discriminate]. injection H as <-.
    cbn in P'. injection P' as <-. reflexivity.
Qed.

Lemma demo_random i : 0 <= random demo i < 1.
Proof. cbn. destruct (Nat.even i); split; discriminate || reflexivity. Qed.

Lemma evasive_no_witness :
  Scenario.stateAfter demo Scenario.toButtons = Some Scenario.atButtons /\
  exists a' p',
    step demo ClickNo Scenario.atButtons = Some a' /\
    proposalScreen a' = Some p' /\
    10 <= Proposal.x (Proposal.buttonPosition p') <= 90 /\
    10 <= Proposal.y (Proposal.buttonPosition p') <= 90 /\
    Proposal.outcome p' = Proposal.Pending.
Proof.
  split; [vm_compute; reflexivity|].
  destruct (evasive_no demo Scenario.atButtons ClickNo _ _
              eq_refl demo_random eq_refl eq_refl) as [N _].
  destruct (N eq_refl) as [p' [P' [_ [X [Y [_ O]]]]]].
  eexists. exists p'. split; [reflexivity|]. auto.
Defined.

End ProposalFacts.

(** ** Timers and captures that outlive their screen *)

Module Leaks.
Import App Inv Frame Scenario.
Open Scope Z_scope.

(** Pausing the music clears no timer. *)
Lemma pause_keeps_timers env a :
  timers (setIsPlaying env false a) = timers a.
Proof.
  unfold setIsPlaying. destruct (loveLetter a) as [l|] eqn:L; [|reflexivity].
  destruct (Bool.eqb false (Letter.isPlaying l)); [reflexivity|].
  unfold isPlayingEffect. cbn. destruct (Letter.effectRuns (Letter.music l)); reflexivity.
Qed.

(** Unmounting the letter clears the two timers of its mount effect and no
    other. *)
Lemma unmountLoveLetter_timers a l t :
  loveLetter a = Some l ->
  (In t (timers (unmountLoveLetter a)) <->
   In t (timers a) /\ tid t <> Letter.timer l /\ tid t <> Letter.musicTimer l).
Proof.
  intros L. unfold unmountLoveLetter. rewrite L.
  cbn [timers withClosed withLetter clearTimeout withTimers].
  rewrite !clear_In. tauto.
Qed.

(** [stopMusic] does nothing unless [oscillatorRef] holds an oscillator,
    and nothing in the component assigns one. *)
Lemma stopMusic_idle b : Letter.oscillatorRef b = None -> Letter.stopMusic b = b.
Proof. unfold Letter.stopMusic. now intros ->. Qed.

Lemma mountMusic_no_oscillator ac ss now :
  Letter.oscillatorRef (Letter.mountMusic ac ss now) = None.
Proof. unfold Letter.mountMusic. destruct ac; reflexivity. Qed.

(** C2 fails on the code.  Every re-arm timer of a reachable state holds
    [isPlaying = true], so its guard passes whatever the state is when it
    fires; pausing clears no timer.  In the scenario the melody is started
    (one re-arm timer), paused and resumed: two re-arm timers are pending,
    both fire and both re-arm; and a melody that is paused and left paused
    re-arms all the same. *)
Theorem play_twice_two_loops :
  (forall env a t, reachable env a -> In t (timers a) -> rearmOff (action t) = false) /\
  (forall env t a clock,
      action t = Rearm true clock ->
      runAction env t a = playMelody env (owner t) true clock a) /\
  (forall env a, timers (setIsPlaying env false a) = timers a) /\
  rearms (stateAfter demo musicOn) = Some (true, [15200], 17%nat) /\
  rearms (stateAfter demo pauseResume) = Some (true, [15200; 15700], 34%nat) /\
  rearms (stateAfter demo (pauseResume ++ fires 13))
    = Some (true, [28400; 28900], 68%nat) /\
  rearms (stateAfter demo pauseAndWait) = Some (false, [28400], 34%nat).
Proof.
  split; [|split; [|split]].
  - intros env a t R I. destruct (reachable_sound env a R) as [_ [_ [_ T]]]. now apply T.
  - intros env t a clock A. unfold runAction. now rewrite A.
  - exact pause_keeps_timers.
  - repeat split; vm_compute; reflexivity.
Qed.

(** C3 fails on the code.  Unmounting the letter clears the reveal interval
    and the music-start timer and nothing else, and [stopMusic] is idle
    while [oscillatorRef] is empty.  In the scenario, after the "next page"
    button no reveal or music-start timer is pending, but the re-arm timer
    of the unmounted letter is; it fires at 15200 over the proposal screen,
    and re-arms itself unless the closed context throws. *)
Theorem letter_exit_leaves_loop :
  (forall a l t,
      loveLetter a = Some l ->
      (In t (timers (unmountLoveLetter a)) <->
       In t (timers a) /\ tid t <> Letter.timer l /\ tid t <> Letter.musicTimer l)) /\
  (forall b, Letter.oscillatorRef b = None -> Letter.stopMusic b = b) /\
  leftovers (stateAfter demo toProposal)
    = Some (proposal, 14700, false, [1%nat], [], [], [(1%nat, 15200)]) /\
  leftovers (stateAfter demo (toProposal ++ [FireTimer]))
    = Some (proposal, 15200, false, [1%nat], [], [], [(1%nat, 28400)]) /\
  leftovers (stateAfter strict (toProposal ++ [FireTimer]))
    = Some (proposal, 15200, false, [1%nat], [], [], []).
Proof.
  split; [exact unmountLoveLetter_timers|].
  split; [exact stopMusic_idle|].
  repeat split; vm_compute; reflexivity.
Qed.

(** C8 fails on the code.  A capture started over the lock screen is not
    stopped when the screen is unmounted; when its transcript arrives over
    the proposal screen and holds the name, the unlock timer it sets calls
    [setCurrentStage('letter')]: the stages of the scenario change from
    lock to letter, from letter to proposal, and from proposal back to a
    freshly mounted letter. *)
Theorem late_result_returns_to_letter :
  transitions (stages demo lateResult (init demo))
    = [(lock, letter); (letter, proposal); (proposal, letter)] /\
  option_map (fun a => (currentStage a, now a, shown a, outcomeOf a))
             (stateAfter demo lateResult)
    = Some (letter, 16200, 0%nat, None) /\
  option_map (fun a => (currentStage a, now a, capturing a, map due (pending isUnlock a)))
             (stateAfter demo (firstn 20 lateResult))
    = Some (proposal, 14700, 0%nat, [16200]).
Proof. repeat split; vm_compute; reflexivity. Qed.

(** C7 fails on the code: an Accepted outcome is not terminal.  An unlock
    timer that fires over the proposal screen unmounts it, whatever its
    outcome, and mounts a letter.  In the scenario "Yes" is pressed at
    17700 and the outcome is Accepted; the capture that nothing stopped
    reports the name and sets an unlock timer for 19200; the outcome is
    still Accepted at 18690, and at 19200 the proposal screen is gone and
    a fresh letter shows no paragraph. *)
Theorem accepted_then_unmounted :
  (forall env a t,
      currentStage a = proposal -> action t = CallOnUnlock ->
      currentStage (runAction env t (expire t a)) = letter /\
      outcomeOf (runAction env t (expire t a)) = None) /\
  option_map (fun a => (currentStage a, now a, outcomeOf a, capturing a))
             (stateAfter demo (firstn 24 yesThenLate))
    = Some (proposal, 17700, Some Proposal.Accepted, 1%nat) /\
  option_map (fun a => (currentStage a, now a, outcomeOf a, map due (pending isUnlock a)))
             (stateAfter demo (firstn 25 yesThenLate))
    = Some (proposal, 17700, Some Proposal.Accepted, [19200]) /\
  option_map (fun a => (currentStage a, now a, outcomeOf a, map due (pending isUnlock a)))
             (stateAfter demo (firstn 125 yesThenLate))
    = Some (proposal, 18690, Some Proposal.Accepted, [19200]) /\
  option_map (fun a => (currentStage a, now a, outcomeOf a, shown a))
             (stateAfter demo yesThenLate)
    = Some (letter, 19200, None, 0%nat).
Proof.
  split.
  - intros env a t S A. unfold runAction. rewrite A.
    unfold handleUnlock, setCurrentStage.
    assert (E : currentStage (expire t a) = proposal) by exact S.
    rewrite E. cbn [stage_eqb]. unfold unmount. rewrite E.
    unfold unmountProposal, outcomeOf.
    destruct (proposalScreen (expire t a)) eqn:P; split; try reflexivity.
    unfold mount, mountLoveLetter. cbn [proposalScreen withMounts withLetter withStage setInterval setTimeout addTimer].
    now rewrite P.
  - repeat split; vm_compute; reflexivity.
Qed.

(** In every reachable state the screen of the current stage is mounted
    and no other. *)
Theorem one_screen_mounted env a :
  reachable env a -> consistent a = true /\ mountedScreens a = 1%nat.
Proof.
  intros R. destruct (reachable_sound env a R) as [C _]. split; [exact C|].
  unfold consistent in C. unfold mountedScreens.
  destruct (currentStage a), (lockScreen a), (loveLetter a), (proposalScreen a);
    try discriminate; reflexivity.
Qed.

Lemma one_screen_mounted_witness :
  exists a, stateAfter demo typedUnlock = Some a /\ mountedScreens a = 1%nat.
Proof.
  eexists. split; [vm_compute; reflexivity|].
  apply (one_screen_mounted demo). exists typedUnlock. vm_compute. reflexivity.
Defined.

End Leaks.

(** ** The stage changes of an execution *)

Module FlowFacts.
Import App Inv Frame Unlock Reveal Flow.
Open Scope Z_scope.

Section Run.
Variable env : Env.

Lemma step_stage e a a' :
  sound a -> step env e a = Some a' ->
  currentStage a' = currentStage a \/
  allowed (currentStage a, currentStage a') = true.
Proof.
  intros [C _] H. destruct (step_cases env e a a' H)
    as [G | [[t [_ [_ [_ ->]]]] | [[t [_ [N ->]]] | [l [_ [L [_ ->]]]]]]].
  - left. now apply grows_stage.
  - left. reflexivity.
  - destruct (runAction_cases env t (expire t a)) as [G | [[_ ->] | [_ ->]]].
    + left. now rewrite (grows_stage _ _ G).
    + rewrite setCurrentStage_stage. cbn [expire currentStage withTimers withNow].
      destruct (currentStage a); auto.
    + left. now rewrite revealTick_stage.
  - rewrite setCurrentStage_stage. unfold consistent in C. rewrite L in C.
    destruct (currentStage a); auto;
      destruct (lockScreen a), (proposalScreen a); discriminate.
Qed.

Lemma transitions_cons s es a :
  transitions (s :: stages env es a) =
  (if stage_eqb s (currentStage a) then [] else [(s, currentStage a)])
  ++ transitions (stages env es a).
Proof.
  destruct (stages_head env es a) as [rest ->]. cbn [transitions].
  destruct (stage_eqb s (currentStage a)); reflexivity.
Qed.

Lemma run_allowed es : forall a,
  sound a -> Forall (fun st => allowed st = true) (transitions (stages env es a)).
Proof.
  induction es as [|e es IH]; intros a So.
  - constructor.
  - cbn [stages]. destruct (step env e a) as [b|] eqn:E; [|constructor].
    rewrite transitions_cons. apply Forall_app. split.
    + destruct (step_stage e a b So E) as [-> | A].
      * destruct (currentStage a); constructor.
      * destruct (stage_eqb (currentStage a) (currentStage b)); repeat constructor.
        exact A.
    + apply IH. exact (step_sound env e a b E So).
Qed.

End Run.

(** In every execution from the page load, every change of stage goes
    from lock to letter, from letter to proposal, or from proposal to
    letter: the lock screen never comes back, and the proposal is entered
    from the letter only. *)
Theorem stage_changes env es :
  Forall (fun st => allowed st = true) (transitions (stages env es (init env))) /\
  Forall (fun st => snd st <> lock) (transitions (stages env es (init env))) /\
  hd_error (stages env es (init env)) = Some lock.
Proof.
  pose proof (run_allowed env es (init env) (init_sound env)) as A.
  split; [exact A|]. split.
  - apply Forall_forall. intros [s s'] H.
    pose proof (proj1 (Forall_forall _ _) A _ H) as K.
    destruct s, s'; cbn in *; discriminate.
  - destruct es; reflexivity.
Qed.

(** The "next page" button of a letter mounted at clock [t0]: it can be
    pressed exactly when all ten paragraphs are shown, which is not before
    [t0 + 12000]; pressing it unmounts the letter and shows the
    proposal. *)
Theorem next_page_after_reveal env a :
  tidy a -> currentStage a <> letter ->
  let a0 := handleUnlock env a in
  let i := mounts a in
  let t0 := now a in
  forall es a1, run env es a0 = Some a1 -> showing i a1 ->
    (step env ClickContinue a1 <> None <-> shown a1 = Letter.paragraphCount) /\
    (forall a2, step env ClickContinue a1 = Some a2 ->
                t0 + 12000 <= now a1 /\
                currentStage a2 = proposal /\ loveLetter a2 = None /\
                now a2 = now a1).
Proof.
  intros T S a0 i t0 es a1 Run Sw.
  destruct (revealing_start env a T S) as [R0 _].
  destruct (revealing_run env i t0 es _ a1 R0 Run) as [[R1 _] | G];
    [|destruct (gone_not_showing i a1 G Sw)].
  destruct (revealing_reads i t0 a1 R1) as [_ [K [Lo _]]].
  assert (St : currentStage a1 = letter).
  { destruct R1 as [l [_ [_ [C _]]]]. exact C. }
  destruct Sw as [l [L _]].
  assert (Sh : shown a1 = Letter.visibleParagraphs l) by (unfold shown; now rewrite L).
  assert (E : step env ClickContinue a1 =
              if Letter.continueShown l then Some (handleRevealProposal env a1) else None).
  { cbn [step]. now rewrite L. }
  unfold Letter.continueShown in E. split.
  - rewrite E. destruct (Letter.paragraphCount <=? Letter.visibleParagraphs l)%nat eqn:B.
    + apply Nat.leb_le in B. split; [lia | discriminate].
    + apply Nat.leb_gt in B. split; [congruence | lia].
  - intros a2 H. rewrite E in H.
    destruct (Letter.paragraphCount <=? Letter.visibleParagraphs l)%nat eqn:B;
      [|discriminate].
    apply Nat.leb_le in B. injection H as <-. unfold handleRevealProposal.
    rewrite setCurrentStage_stage, setCurrentStage_now.
    rewrite (setCurrentStage_leaves_letter env a1 St).
    assert (shown a1 = Letter.paragraphCount) as X by lia.
    rewrite X in Lo. change (Z.of_nat Letter.paragraphCount) with 10 in Lo.
    repeat split; [lia].
Qed.

Lemma next_page_after_reveal_witness :
  run demo (Scenario.fires 11) (handleUnlock demo (init demo)) = Some Scenario.allShown /\
  shown Scenario.allShown = 10%nat /\ now Scenario.allShown = 12000 /\
  exists a2, step demo ClickContinue Scenario.allShown = Some a2 /\
             currentStage a2 = proposal /\ loveLetter a2 = None.
Proof.
  assert (N : currentStage (init demo) <> letter) by discriminate.
  assert (H : run demo (Scenario.fires 11) (handleUnlock demo (init demo)) = Some Scenario.allShown)
    by (vm_compute; reflexivity).
  assert (S : showing 1 Scenario.allShown) by (eexists; split; reflexivity).
  destruct (next_page_after_reveal demo (init demo) (init_tidy demo) N
              (Scenario.fires 11) Scenario.allShown H S) as [_ P].
  split; [exact H|]. split; [reflexivity|]. split; [reflexivity|].
  eexists. split; [reflexivity|].
  match goal with
  | |- currentStage ?a2 = _ /\ _ => destruct (P a2 eq_refl) as [_ [A [B _]]]
  end.
  split; [exact A | exact B].
Defined.

End FlowFacts.

(** ** Code that starts no capture and sets no unlock timer *)

Module QuietFacts.
Import App Inv Frame Unlock Reveal Flow.
Open Scope Z_scope.

Lemma quiet_refl a : quiet a a.
Proof. repeat split; auto. Qed.

Lemma quiet_trans a b c : quiet a b -> quiet b c -> quiet a c.
Proof.
  intros [R1 [C1 U1]] [R2 [C2 U2]]. repeat split; try congruence.
  intros t H K. apply U1; [apply U2|]; assumption.
Qed.

Lemma lockSide_quiet a a' : lockSide a' = lockSide a -> quiet a a'.
Proof.
  unfold lockSide. intros E. injection E as R C P. repeat split; auto.
  intros t H K. assert (In t (pending isUnlock a')) as X by (apply pending_In; auto).
  rewrite P in X. now apply pending_In in X.
Qed.

Lemma setTimeout_lockSide d o act a :
  isUnlock act = false -> lockSide (setTimeout d o act a) = lockSide a.
Proof.
  intros N. unfold lockSide, pending. cbn. rewrite filter_app. cbn. rewrite N.
  now rewrite app_nil_r.
Qed.

Lemma schedule_lockSide o fx : forall a,
  Forall (fun e => isUnlock (snd e) = false) fx ->
  lockSide (schedule o fx a) = lockSide a.
Proof.
  induction fx as [|[d act] fx IH]; intros a F; simpl; [reflexivity|].
  inversion F as [|? ? N F']; subst. rewrite IH by exact F'.
  now apply setTimeout_lockSide.
Qed.

Section Handlers.
Variable env : Env.

Lemma playMelody_lockSide o b t a : lockSide (playMelody env o b t a) = lockSide a.
Proof.
  unfold playMelody. destruct (Audio.forEach 0 Audio.melody t) as [oscs final].
  repeat break; try reflexivity;
    now rewrite setTimeout_lockSide.
Qed.

Lemma startMusic_lockSide b a : lockSide (startMusic env b a) = lockSide a.
Proof.
  unfold startMusic. repeat break; try reflexivity; now rewrite playMelody_lockSide.
Qed.

Lemma isPlayingEffect_lockSide a : lockSide (isPlayingEffect env a) = lockSide a.
Proof.
  unfold isPlayingEffect. repeat break; try reflexivity. now rewrite startMusic_lockSide.
Qed.

Lemma setIsPlaying_lockSide v a : lockSide (setIsPlaying env v a) = lockSide a.
Proof.
  unfold setIsPlaying. repeat break; try reflexivity. now rewrite isPlayingEffect_lockSide.
Qed.

Lemma handleToggle_lockSide a : lockSide (handleToggle env a) = lockSide a.
Proof.
  unfold handleToggle. destruct (loveLetter a); [|reflexivity].
  now rewrite setIsPlaying_lockSide.
Qed.

Lemma onProposal_lockSide o f a : lockSide (onProposal o f a) = lockSide a.
Proof. unfold onProposal. repeat break; reflexivity. Qed.

Lemma proposalHandler_lockSide h p a :
  Forall (fun e => isUnlock (snd e) = false) (snd (h p)) ->
  lockSide (proposalHandler h p a) = lockSide a.
Proof.
  unfold proposalHandler. destruct (h p) as [p' fx]. cbn. intros F.
  now rewrite schedule_lockSide.
Qed.

Lemma celebration_no_unlock :
  Forall (fun e => isUnlock (snd e) = false) Proposal.celebration.
Proof.
  unfold Proposal.celebration. apply Forall_forall. intros [d act] H.
  apply in_map_iff in H. destruct H as [i [E _]]. now injection E as <- <-.
Qed.

Lemma clearTimeout_quiet id a : quiet a (clearTimeout id a).
Proof.
  repeat split; auto. intros t H _. cbn in H. now apply clear_In in H.
Qed.

Lemma quiet_same a b :
  requested b = requested a -> capturing b = capturing a -> timers b = timers a ->
  quiet a b.
Proof. intros R C T. repeat split; auto. intros t H _. now rewrite <- T. Qed.

Lemma revealTick_quiet o a : quiet a (revealTick o a).
Proof.
  unfold revealTick. repeat break; try apply quiet_refl.
  - eapply quiet_trans; [|apply clearTimeout_quiet]. now apply quiet_same.
  - now apply quiet_same.
Qed.

Lemma unmount_quiet a : quiet a (unmount a).
Proof.
  unfold unmount, unmountLockScreen, unmountLoveLetter, unmountProposal.
  destruct (currentStage a);
    [now apply quiet_same
    |destruct (loveLetter a) as [l|]; [|apply quiet_refl]
    |destruct (proposalScreen a) as [p|]; [|apply quiet_refl]].
  - apply quiet_trans with (clearTimeout (Letter.timer l) a); [apply clearTimeout_quiet|].
    apply quiet_trans
      with (clearTimeout (Letter.musicTimer l) (clearTimeout (Letter.timer l) a));
      [apply clearTimeout_quiet | now apply quiet_same].
  - apply quiet_trans with (clearTimeout (Proposal.timer1 p) a);
      [apply clearTimeout_quiet | now apply quiet_same].
Qed.

Lemma mount_quiet s a : quiet a (mount env s a).
Proof.
  apply lockSide_quiet. unfold mount, mountLockScreen, mountLoveLetter, mountProposal.
  destruct s; unfold lockSide, pending; cbn; rewrite ?filter_app; cbn;
    rewrite ?app_nil_r; reflexivity.
Qed.

Lemma setCurrentStage_quiet s a : quiet a (setCurrentStage env s a).
Proof.
  unfold setCurrentStage. destruct (stage_eqb s (currentStage a)); [apply quiet_refl|].
  apply quiet_trans with (withStage s (unmount a)); [|apply mount_quiet].
  apply quiet_trans with (unmount a); [apply unmount_quiet | now apply quiet_same].
Qed.

(** No timer callback starts a capture or sets an unlock timer. *)
Lemma runAction_quiet t a : quiet a (runAction env t a).
Proof.
  unfold runAction. destruct (action t).
  - now apply quiet_same.
  - apply setCurrentStage_quiet.
  - repeat break; try apply quiet_refl. apply lockSide_quiet, setIsPlaying_lockSide.
  - apply revealTick_quiet.
  - destruct isPlaying; [|apply quiet_refl]. apply lockSide_quiet, playMelody_lockSide.
  - apply lockSide_quiet, onProposal_lockSide.
  - apply lockSide_quiet, onProposal_lockSide.
  - apply quiet_trans with (onProposal (owner t)
                              (Proposal.moveAgain (random env (draws a))
                                                  (random env (S (draws a)))) a);
      [apply lockSide_quiet, onProposal_lockSide | now apply quiet_same].
  - apply quiet_trans with (withConfetti (S (confetti a)) a); [now apply quiet_same|].
    apply lockSide_quiet. now apply setTimeout_lockSide.
  - now apply quiet_same.
Qed.

Lemma expire_quiet t a :
  timely a -> In t (timers a) -> quiet a (expire t a).
Proof.
  intros [_ U] I. repeat split; auto. intros x H K. apply expire_In in H.
  destruct H as [[H _] | H]; [exact H|].
  apply reschedule_In in H. destruct H as [_ [_ [A [p [E _]]]]].
  rewrite A in K. destruct (U t I K) as [E' _]. congruence.
Qed.


Lemma schedule_counters o fx : forall a,
  requested (schedule o fx a) = requested a /\ capturing (schedule o fx a) = capturing a.
Proof.
  induction fx as [|[d act] fx IH]; intros a; simpl; [auto|].
  destruct (IH (setTimeout d o act a)) as [-> ->]. auto.
Qed.

Lemma lockHandler_counters h a :
  requested (lockHandler h a) = requested a /\
  capturing (lockHandler h a) = capturing a.
Proof.
  unfold lockHandler. destruct (h (lockScreen a)) as [m fx].
  destruct (schedule_counters 0 fx (withLock m a)) as [-> ->]. auto.
Qed.

(** One event when no capture is outstanding: it starts no capture and sets
    no unlock timer, unless it is an event of the mounted lock screen; and
    even then no capture reports, and none is requested where the platform
    has no speech recognition. *)
Lemma step_quiet e a a' :
  requested a = 0%nat -> capturing a = 0%nat -> timely a ->
  step env e a = Some a' ->
  quiet a a' \/
  (lockScreen a <> None /\ capturing a' = 0%nat /\
   (speechRecognition env = false -> requested a' = 0%nat)).
Proof.
  intros R C T H. destruct e; cbn [step] in H.
  - destruct ((now a <=? t) && forallb (fun x => (t <=? due x)) (timers a));
      [|discriminate]. injection H as <-. left. now apply quiet_same.
  - unfold fire in H. destruct (nextToFire (timers a)) as [t|] eqn:N; [|discriminate].
    injection H as <-. left. apply quiet_trans with (expire t a).
    + apply expire_quiet; [exact T | now apply nextToFire_first].
    + apply runAction_quiet.
  - destruct (lockScreen a) as [l|] eqn:L; [|discriminate]. injection H as <-.
    right. split; [discriminate|].
    destruct (Lock.startsListening l && speechRecognition env) eqn:B; cbn.
    + split; [exact C|]. intros S. rewrite S, andb_false_r in B. discriminate.
    + split; [exact C | auto].
  - rewrite R in H. discriminate.
  - rewrite C in H. discriminate.
  - rewrite R, C in H. discriminate.
  - destruct (lockScreen a) as [l|] eqn:L; [|discriminate].
    destruct (Lock.showFallback l); [|discriminate]. injection H as <-.
    right. split; [discriminate|]. cbn. auto.
  - destruct (lockScreen a) as [l|] eqn:L; [|discriminate].
    destruct (Lock.showFallback l); [|discriminate]. injection H as <-.
    right. split; [discriminate|].
    destruct (lockHandler_counters
                (fun _ : Lock.Mounted => Lock.handleFallbackSubmit (uni_lower env) l) a)
      as [-> ->]. auto.
  - destruct (loveLetter a) as [l|]; [|discriminate].
    destruct (Letter.isSupported (Letter.music l)); [|discriminate].
    injection H as <-. left. apply lockSide_quiet, handleToggle_lockSide.
  - destruct (loveLetter a) as [l|]; [|discriminate].
    destruct (Letter.continueShown l); [|discriminate]. injection H as <-.
    left. apply setCurrentStage_quiet.
  - destruct (proposalScreen a) as [p|]; [|discriminate].
    destruct (Proposal.hintShown p); [|discriminate]. injection H as <-.
    left. apply lockSide_quiet, proposalHandler_lockSide. repeat constructor.
  - destruct (proposalScreen a) as [p|]; [|discriminate].
    destruct (Proposal.buttonsShown p); [|discriminate]. injection H as <-.
    left. apply lockSide_quiet, proposalHandler_lockSide. apply celebration_no_unlock.
  - destruct (proposalScreen a) as [p|]; [|discriminate].
    destruct (Proposal.buttonsShown p); [|discriminate]. injection H as <-.
    left. apply quiet_trans
      with (proposalHandler (Proposal.handleNo (random env (draws a))
                                               (random env (S (draws a)))) p a).
    + apply lockSide_quiet, proposalHandler_lockSide. repeat constructor.
    + now apply quiet_same.
Qed.

End Handlers.

End QuietFacts.

(** ** One-directional executions *)

Module OneWayFacts.
Import App Inv Frame Unlock Reveal Flow FlowFacts QuietFacts.
Open Scope Z_scope.

Section Run.
Variable env : Env.

Lemma revealTick_showing i o a : showing i a -> showing i (revealTick o a).
Proof.
  intros [l [L I]]. unfold revealTick. rewrite L.
  destruct (Letter.instance l =? o)%nat; [|exists l; auto].
  destruct (Letter.revealUpdater (Letter.visibleParagraphs l)) as [v cleared].
  destruct cleared; eexists; split; reflexivity || exact I.
Qed.

Lemma grows_showing i a a' : grows a a' -> showing i a -> showing i a'.
Proof.
  intros G [l [L I]].
  destruct (bones_letter a a' l (grows_letter _ _ G) L) as [l' [L' [I' _]]].
  exists l'. split; [exact L' | congruence].
Qed.

(** While the stage stays [letter] the same letter stays mounted. *)
Lemma letter_stays i e a a' :
  showing i a -> currentStage a = letter ->
  step env e a = Some a' -> currentStage a' = letter -> showing i a'.
Proof.
  intros Sw S H S'. destruct (step_cases env e a a' H)
    as [G | [[t [_ [_ [_ ->]]]] | [[t [_ [N ->]]] | [l [_ [_ [_ ->]]]]]]].
  - now apply (grows_showing i a).
  - exact Sw.
  - assert (Sb : showing i (expire t a)) by exact Sw.
    destruct (runAction_cases env t (expire t a)) as [G | [[_ E] | [_ E]]].
    + now apply (grows_showing i (expire t a)).
    + rewrite E. rewrite setCurrentStage_same; [exact Sb | exact S].
    + rewrite E. now apply revealTick_showing.
  - rewrite setCurrentStage_stage in S'. discriminate.
Qed.

(** A change of stage from the letter is the "next page" button, pressed
    when all paragraphs are shown; a change of stage from the proposal is
    an unlock timer firing. *)
Lemma stage_change_cause e a a' :
  step env e a = Some a' -> currentStage a' <> currentStage a ->
  (exists l, loveLetter a = Some l /\ Letter.continueShown l = true /\
             currentStage a' = proposal) \/
  (exists t, In t (timers a) /\ action t = CallOnUnlock /\ currentStage a' = letter).
Proof.
  intros H N. destruct (step_cases env e a a' H)
    as [G | [[t [_ [_ [_ ->]]]] | [[t [_ [Nx ->]]] | [l [_ [L [Sh ->]]]]]]].
  - destruct N. now apply grows_stage.
  - destruct N. reflexivity.
  - right. destruct (runAction_cases env t (expire t a)) as [G | [[A E] | [_ E]]].
    + destruct N. now rewrite (grows_stage _ _ G).
    + exists t. split; [now apply nextToFire_first|]. split; [exact A|].
      rewrite E. apply setCurrentStage_stage.
    + destruct N. rewrite E. now rewrite revealTick_stage.
  - left. exists l. split; [exact L|]. split; [exact Sh|]. apply setCurrentStage_stage.
Qed.

Lemma oneWay_step e a a' :
  sound a -> timely a -> oneWay a -> step env e a = Some a' ->
  oneWay a' /\
  (currentStage a' = currentStage a \/
   (currentStage a = letter /\ currentStage a' = proposal)).
Proof.
  intros So Ti [R [C W]] H.
  assert (Q : quiet a a').
  { destruct (step_quiet env e a a' R C Ti H) as [Q | [L _]]; [exact Q|].
    exfalso. apply L. destruct So as [Co _]. unfold consistent in Co.
    destruct (currentStage a); [destruct W| |];
      destruct (lockScreen a); try reflexivity;
      destruct (loveLetter a), (proposalScreen a); discriminate. }
  destruct Q as [R' [C' U']]. rewrite R, C in *.
  destruct (stage_eqb (currentStage a') (currentStage a)) eqn:E.
  - assert (S' : currentStage a' = currentStage a)
      by (destruct (currentStage a'), (currentStage a); try discriminate; reflexivity).
    split; [|now left]. split; [exact R'|]. split; [exact C'|].
    rewrite S'. destruct (currentStage a) eqn:S; [destruct W| |].
    + destruct W as [i [t0 [Rv B]]]. exists i, t0. split.
      * destruct (revealing_step env i t0 e a a' Rv H) as [[Rv' _] | G]; [exact Rv'|].
        exfalso. apply (gone_not_showing i a' G).
        apply (letter_stays i e a a'); auto.
        apply (revealing_reads i t0 a Rv).
      * intros t It Kt. apply B; [now apply U' | exact Kt].
    + intros t It. destruct (isUnlock (action t)) eqn:K; [|reflexivity].
      pose proof (W t (U' t It K)) as X. congruence.
  - assert (N : currentStage a' <> currentStage a).
    { intros X. rewrite X in E. destruct (currentStage a); discriminate. }
    destruct (stage_change_cause e a a' H N) as [[l [L [Sh S']]] | [t [It [A S']]]].
    + assert (S : currentStage a = letter).
      { destruct So as [Co _]. unfold consistent in Co. rewrite L in Co.
        destruct (currentStage a); auto;
          destruct (lockScreen a), (proposalScreen a); discriminate. }
      split; [|right; auto]. split; [exact R'|]. split; [exact C'|].
      rewrite S'. rewrite S in W. destruct W as [i [t0 [Rv B]]].
      destruct (revealing_reads i t0 a Rv) as [[l0 [L0 _]] [_ [Lo _]]].
      assert (l0 = l) by congruence. subst l0.
      assert (X : shown a = Letter.visibleParagraphs l) by (unfold shown; now rewrite L).
      unfold Letter.continueShown in Sh. apply Nat.leb_le in Sh.
      change Letter.paragraphCount with 10%nat in Sh.
      intros t It. destruct (isUnlock (action t)) eqn:K; [|reflexivity].
      exfalso. pose proof (B t (U' t It K) K) as D.
      destruct Ti as [_ Tu]. destruct (Tu t (U' t It K) K) as [_ [Nw _]].
      rewrite X in Lo. nia.
    + exfalso. destruct (currentStage a) eqn:S; [destruct W| |].
      * rewrite S' in N. now apply N.
      * specialize (W t It). rewrite A in W. discriminate.
Qed.


Lemma oneWay_run es : forall a,
  sound a -> timely a -> oneWay a ->
  Forall (fun st => st = (letter, proposal)) (transitions (stages env es a)).
Proof.
  induction es as [|e es IH]; intros a So Ti W.
  - constructor.
  - cbn [stages]. destruct (step env e a) as [b|] eqn:E; [|constructor].
    rewrite transitions_cons. apply Forall_app.
    destruct (oneWay_step e a b So Ti W E) as [Wb St]. split.
    + destruct St as [-> | [-> ->]].
      * destruct (currentStage a); constructor.
      * repeat constructor.
    + apply IH; [exact (step_sound env e a b E So) | exact (step_timely env e a b E So Ti)
                 | exact Wb].
Qed.

(** The lock opens with no capture outstanding. *)
Lemma lock_opens e a a0 :
  sound a -> timely a -> currentStage a = lock ->
  step env e a = Some a0 -> currentStage a0 <> lock ->
  requested a0 = 0%nat -> capturing a0 = 0%nat ->
  currentStage a0 = letter /\ oneWay a0.
Proof.
  intros So Ti S H N R C.
  assert (N' : currentStage a0 <> currentStage a) by now rewrite S.
  destruct (stage_change_cause e a a0 H N') as [[l [L _]] | [t [It [A S0]]]].
  { exfalso. destruct So as [Co _]. unfold consistent in Co. rewrite S, L in Co.
    destruct (lockScreen a); discriminate. }
  split; [exact S0|]. split; [exact R|]. split; [exact C|]. rewrite S0.
  destruct (step_cases env e a a0 H)
    as [G | [[x [_ [_ [_ E]]]] | [[x [_ [Nx E]]] | [l [_ [L _]]]]]].
  - exfalso. apply N. now rewrite (grows_stage _ _ G).
  - exfalso. apply N. now rewrite E.
  - destruct (nextToFire_first _ _ Nx) as [Ix Mx].
    pose proof (expire_sound x a Ix So) as Sx.
    pose proof (expire_timely x a Nx Ti) as Tx.
    destruct (runAction_cases env x (expire x a)) as [G | [[_ E'] | [_ E']]].
    + exfalso. apply N. rewrite E, (grows_stage _ _ G). exact S.
    + rewrite E' in E. subst a0.
      assert (Sx' : currentStage (expire x a) <> letter)
        by (change (currentStage a <> letter); rewrite S; discriminate).
      destruct (revealing_start env (expire x a) (proj2 Sx) Sx') as [Rv _].
      exists (mounts (expire x a)), (now (expire x a)). split; [exact Rv|].
      intros t' It' K'.
      destruct (setCurrentStage_quiet env letter (expire x a)) as [_ [_ U]].
      destruct Tx as [_ Tu]. destruct (Tu t' (U t' It' K') K') as [_ [_ B]]. exact B.
    + exfalso. apply N. rewrite E, E', revealTick_stage. exact S.
  - exfalso. destruct So as [Co _]. unfold consistent in Co. rewrite S, L in Co.
    destruct (lockScreen a); discriminate.
Qed.

Lemma typed_run es : forall a,
  speechRecognition env = false ->
  sound a -> timely a -> requested a = 0%nat -> capturing a = 0%nat ->
  currentStage a = lock \/ oneWay a ->
  Forall (fun st => st = (lock, letter) \/ st = (letter, proposal))
         (transitions (stages env es a)).
Proof.
  induction es as [|e es IH]; intros a Sp So Ti R C W.
  - constructor.
  - cbn [stages]. destruct (step env e a) as [b|] eqn:E; [|constructor].
    rewrite transitions_cons.
    pose proof (step_sound env e a b E So) as Sb.
    pose proof (step_timely env e a b E So Ti) as Tb.
    destruct W as [S | W].
    + assert (K : requested b = 0%nat /\ capturing b = 0%nat).
      { destruct (step_quiet env e a b R C Ti E) as [[Rb [Cb _]] | [_ [Cb Rb]]].
        - split; congruence.
        - split; [now apply Rb | exact Cb]. }
      destruct K as [Rb Cb].
      destruct (stage_eqb (currentStage a) (currentStage b)) eqn:Q.
      * cbn [app]. apply IH; auto. left.
        rewrite S in Q. destruct (currentStage b); try discriminate; reflexivity.
      * assert (Nb : currentStage b <> lock).
        { intros X. rewrite S, X in Q. discriminate. }
        destruct (lock_opens e a b So Ti S E Nb Rb Cb) as [Lb Wb].
        apply Forall_app. split.
        -- rewrite S, Lb. constructor; [now left | constructor].
        -- apply IH; auto.
    + destruct (oneWay_step e a b So Ti W E) as [Wb St].
      destruct Wb as [Rb [Cb Xb]]. apply Forall_app. split.
      * destruct St as [-> | [-> ->]].
        -- destruct (currentStage a); constructor.
        -- constructor; [now right | constructor].
      * apply IH; auto. right. repeat split; assumption.
Qed.

End Run.

(** When the lock opens with no capture outstanding, the only change of
    stage an execution can still make is from the letter to the proposal:
    the proposal, once shown, stays. *)
Theorem one_way_after_clean_unlock env a e a0 :
  reachable env a -> currentStage a = lock ->
  step env e a = Some a0 -> currentStage a0 <> lock ->
  requested a0 = 0%nat -> capturing a0 = 0%nat ->
  currentStage a0 = letter /\
  forall es, Forall (fun st => st = (letter, proposal))
                    (transitions (stages env es a0)).
Proof.
  intros Re S H N R C.
  pose proof (reachable_sound env a Re) as So.
  pose proof (reachable_timely env a Re) as Ti.
  destruct (lock_opens env e a a0 So Ti S H N R C) as [L W].
  split; [exact L|]. intros es.
  apply oneWay_run; [exact (step_sound env e a a0 H So)
                    | exact (step_timely env e a a0 H So Ti) | exact W].
Qed.

Lemma one_way_after_clean_unlock_witness :
  exists a a0,
    Scenario.stateAfter demo [TypeFallback (js "Radha"); SubmitFallback] = Some a /\
    step demo FireTimer a = Some a0 /\
    currentStage a0 = letter /\
    Forall (fun st => st = (letter, proposal))
           (transitions (stages demo (Scenario.fires 12 ++ [ClickContinue]) a0)).
Proof.
  eexists. eexists. split; [reflexivity|]. split; [reflexivity|].
  match goal with
  | |- currentStage ?a0 = _ /\ _ =>
      destruct (one_way_after_clean_unlock demo _ FireTimer a0
                  (ex_intro _ [TypeFallback (js "Radha"); SubmitFallback] eq_refl)
                  eq_refl eq_refl) as [L F];
        [discriminate | reflexivity | reflexivity |]
  end.
  split; [exact L | apply F].
Defined.

(** Where the platform has no speech recognition, so that the name can
    only be typed, the stages of every execution are one-directional: the
    only changes are from lock to letter and from letter to proposal. *)
Theorem typed_only_one_way env es :
  speechRecognition env = false ->
  Forall (fun st => st = (lock, letter) \/ st = (letter, proposal))
         (transitions (stages env es (init env))).
Proof.
  intros Sp. apply typed_run; auto.
  - apply init_sound.
  - apply init_timely.
Qed.

Lemma typed_only_one_way_witness :
  Forall (fun st => st = (lock, letter) \/ st = (letter, proposal))
         (transitions (stages Scenario.typedOnly Scenario.toProposal
                              (init Scenario.typedOnly))).
Proof. apply typed_only_one_way. reflexivity. Defined.

End OneWayFacts.

(** ** The text box of the lock screen *)

Module LockBoxFacts.
Import App Inv Frame Flow.
Open Scope Z_scope.

Section Run.
Variable env : Env.

Lemma schedule_lock o fx : forall a, lockScreen (schedule o fx a) = lockScreen a.
Proof.
  induction fx as [|[d act] fx IH]; intros a; simpl; [reflexivity|].
  now rewrite IH.
Qed.

Lemma playMelody_lock o b t a : lockScreen (playMelody env o b t a) = lockScreen a.
Proof. unfold playMelody. repeat break; reflexivity. Qed.

Lemma startMusic_lock b a : lockScreen (startMusic env b a) = lockScreen a.
Proof.
  unfold startMusic. repeat break; try reflexivity; now rewrite playMelody_lock.
Qed.

Lemma isPlayingEffect_lock a : lockScreen (isPlayingEffect env a) = lockScreen a.
Proof.
  unfold isPlayingEffect. repeat break; try reflexivity. now rewrite startMusic_lock.
Qed.

Lemma setIsPlaying_lock v a : lockScreen (setIsPlaying env v a) = lockScreen a.
Proof.
  unfold setIsPlaying. repeat break; try reflexivity. now rewrite isPlayingEffect_lock.
Qed.

Lemma handleToggle_lock a : lockScreen (handleToggle env a) = lockScreen a.
Proof.
  unfold handleToggle. destruct (loveLetter a); [|reflexivity].
  now rewrite setIsPlaying_lock.
Qed.

Lemma revealTick_lock o a : lockScreen (revealTick o a) = lockScreen a.
Proof. unfold revealTick. repeat break; reflexivity. Qed.

Lemma onProposal_lock o f a : lockScreen (onProposal o f a) = lockScreen a.
Proof. unfold onProposal. repeat break; reflexivity. Qed.

Lemma proposalHandler_lock h p a : lockScreen (proposalHandler h p a) = lockScreen a.
Proof. unfold proposalHandler. destruct (h p). now rewrite schedule_lock. Qed.

Lemma mount_kept : lockKept env (Some (Lock.mount (speechRecognition env))).
Proof.
  intros l E. injection E as <-. unfold Lock.mount.
  destruct (speechRecognition env); split; reflexivity.
Qed.

Lemma setCurrentStage_lock s a :
  lockKept env (lockScreen a) -> lockKept env (lockScreen (setCurrentStage env s a)).
Proof.
  intros K. unfold setCurrentStage. destruct (stage_eqb s (currentStage a)); [exact K|].
  assert (U : lockKept env (lockScreen (unmount a))).
  { unfold unmount, unmountLockScreen, unmountLoveLetter, unmountProposal.
    destruct (currentStage a); [intros l E; discriminate| |]; repeat break; exact K. }
  unfold mount, mountLockScreen, mountLoveLetter, mountProposal.
  destruct s; [apply mount_kept | exact U | exact U].
Qed.

Lemma upd_kept f o :
  (forall l, Lock.showFallback (f l) = Lock.showFallback l /\
             Lock.isSupported (f l) = Lock.isSupported l) ->
  lockKept env o -> lockKept env (Lock.upd f o).
Proof.
  intros F K l E. destruct o as [l0|]; [|discriminate]. injection E as <-.
  destruct (F l0) as [-> ->]. now apply K.
Qed.

Lemma lockHandler_lock h a : lockScreen (lockHandler h a) = fst (h (lockScreen a)).
Proof. unfold lockHandler. destruct (h (lockScreen a)). now rewrite schedule_lock. Qed.

Lemma handleUnlock_kept o : lockKept env o -> lockKept env (fst (Lock.handleUnlock o)).
Proof. intros K. cbn. repeat apply upd_kept; auto. Qed.

Lemma runAction_lock t a :
  lockKept env (lockScreen a) -> lockKept env (lockScreen (runAction env t a)).
Proof.
  intros K. unfold runAction. destruct (action t).
  - cbn. unfold Lock.resetStatus. apply upd_kept; auto.
  - now apply setCurrentStage_lock.
  - repeat break; try exact K. now rewrite setIsPlaying_lock.
  - now rewrite revealTick_lock.
  - destruct isPlaying; [now rewrite playMelody_lock | exact K].
  - now rewrite onProposal_lock.
  - now rewrite onProposal_lock.
  - cbn. now rewrite onProposal_lock.
  - exact K.
  - exact K.
Qed.

Lemma step_lock e a a' :
  step env e a = Some a' ->
  lockKept env (lockScreen a) -> lockKept env (lockScreen a').
Proof.
  intros H K. destruct e; cbn [step] in H.
  - destruct ((now a <=? t) && forallb (fun x => (t <=? due x)) (timers a));
      [|discriminate]. now injection H as <-.
  - unfold fire in H. destruct (nextToFire (timers a)) as [t|]; [|discriminate].
    injection H as <-. now apply runAction_lock.
  - destruct (lockScreen a) as [l|] eqn:L; [|discriminate]. injection H as <-.
    destruct (Lock.startsListening l && speechRecognition env); cbn; now rewrite L.
  - destruct (requested a); [discriminate|]. injection H as <-.
    rewrite lockHandler_lock. cbn. repeat apply upd_kept; auto.
  - destruct (capturing a); [discriminate|]. injection H as <-.
    rewrite lockHandler_lock. cbn [lockScreen withVoice]. unfold Lock.onResult.
    destruct (Matcher.matches (uni_lower env) transcript); cbn;
      repeat apply upd_kept; auto.
  - destruct (requested a); [destruct (capturing a); [discriminate|]|];
      injection H as <-; rewrite lockHandler_lock; cbn; repeat apply upd_kept; auto.
  - destruct (lockScreen a) as [l|] eqn:L; [|discriminate].
    destruct (Lock.showFallback l); [|discriminate]. injection H as <-.
    cbn. intros l' E. injection E as <-. cbn. now apply K.
  - destruct (lockScreen a) as [l|] eqn:L; [|discriminate].
    destruct (Lock.showFallback l); [|discriminate]. injection H as <-.
    rewrite lockHandler_lock. unfold Lock.handleFallbackSubmit.
    destruct (Matcher.matches (uni_lower env) (Lock.fallbackValue l)).
    + apply handleUnlock_kept. intros l' E. injection E as <-. now apply K.
    + cbn. intros l' E. injection E as <-. cbn. now apply K.
  - destruct (loveLetter a) as [l|]; [|discriminate].
    destruct (Letter.isSupported (Letter.music l)); [|discriminate].
    injection H as <-. now rewrite handleToggle_lock.
  - destruct (loveLetter a) as [l|]; [|discriminate].
    destruct (Letter.continueShown l); [|discriminate]. injection H as <-.
    now apply setCurrentStage_lock.
  - destruct (proposalScreen a) as [p|]; [|discriminate].
    destruct (Proposal.hintShown p); [|discriminate]. injection H as <-.
    now rewrite proposalHandler_lock.
  - destruct (proposalScreen a) as [p|]; [|discriminate].
    destruct (Proposal.buttonsShown p); [|discriminate]. injection H as <-.
    now rewrite proposalHandler_lock.
  - destruct (proposalScreen a) as [p|]; [|discriminate].
    destruct (Proposal.buttonsShown p); [|discriminate]. injection H as <-.
    cbn [lockScreen withDraws]. now rewrite proposalHandler_lock.
Qed.

Lemma run_lock es : forall a a',
  run env es a = Some a' ->
  lockKept env (lockScreen a) -> lockKept env (lockScreen a').
Proof.
  induction es as [|e es IH]; intros a a' H K; simpl in H.
  - now injection H as <-.
  - destruct (step env e a) as [b|] eqn:E; [|discriminate].
    exact (IH _ _ H (step_lock _ _ _ E K)).
Qed.

End Run.

(** The text box of the lock screen.  At page load the status is the
    message for a browser without speech recognition, whatever the
    platform; and in every reachable state a mounted lock screen shows the
    text box, so that a name can be typed and submitted at any time, and
    its [isSupported] tells whether the platform has speech recognition. *)
Theorem fallback_always_shown env a l :
  reachable env a -> lockScreen a = Some l ->
  statusShown (init env) = Some Lock.unsupportedText /\
  Lock.showFallback l = true /\
  Lock.isSupported l = speechRecognition env /\
  step env SubmitFallback a <> None /\
  (forall value, exists a',
      step env (TypeFallback value) a = Some a' /\
      option_map Lock.fallbackValue (lockScreen a') = Some value).
Proof.
  intros [es R] L.
  assert (K : lockKept env (lockScreen a)).
  { apply (run_lock env es (init env) a R). apply mount_kept. }
  destruct (K l L) as [F S].
  split; [unfold init, mountLockScreen, statusShown, Lock.mount; cbn;
          destruct (speechRecognition env); reflexivity|].
  split; [exact F|]. split; [exact S|]. split.
  - cbn [step]. rewrite L, F. discriminate.
  - intros value. cbn [step]. rewrite L, F. eexists. split; reflexivity.
Qed.

Lemma fallback_always_shown_witness :
  exists a l,
    Scenario.stateAfter demo [LockClick; VoiceStart; VoiceError] = Some a /\
    lockScreen a = Some l /\
    Lock.showFallback l = true /\ Lock.isSupported l = true /\
    step demo SubmitFallback a <> None.
Proof.
  eexists. eexists. split; [reflexivity|]. split; [reflexivity|].
  match goal with
  | |- Lock.showFallback ?l = _ /\ _ =>
      destruct (fallback_always_shown demo _ l
                  (ex_intro _ [LockClick; VoiceStart; VoiceError] eq_refl) eq_refl)
        as [_ [F [S [Su _]]]]
  end.
  split; [exact F|]. split; [exact S | exact Su].
Defined.

End LockBoxFacts.

(** ** The place of the "No" button *)

Module SafeAreaFacts.
Import App Inv Frame ProposalFacts SafeArea.
Open Scope Q_scope.

Section Run.
Variable env : Env.
Hypothesis random_range : forall i, 0 <= random env i < 1.

Lemma randomPosition_safe i j :
  safe (Proposal.randomPosition (random env i) (random env j)).
Proof.
  destruct (randomPosition_bounds _ _ (random_range i) (random_range j)) as [X Y].
  split; assumption.
Qed.

Lemma setCurrentStage_safe s a :
  buttonSafe (proposalScreen a) -> buttonSafe (proposalScreen (setCurrentStage env s a)).
Proof.
  intros K. unfold setCurrentStage. destruct (stage_eqb s (currentStage a)); [exact K|].
  assert (U : buttonSafe (proposalScreen (unmount a))).
  { unfold unmount, unmountLockScreen, unmountLoveLetter, unmountProposal.
    destruct (currentStage a);
      [exact K | destruct (loveLetter a); exact K
      | destruct (proposalScreen a) eqn:P;
        [intros q0 E; cbn in E; discriminate | rewrite P; exact K]]. }
  unfold mount, mountLockScreen, mountLoveLetter, mountProposal.
  destruct s; [exact U | exact U|].
  intros p E. cbn in E. injection E as <-. cbn. repeat split; discriminate.
Qed.

Lemma onProposal_safe o f a :
  (forall p, safe (Proposal.buttonPosition p) -> safe (Proposal.buttonPosition (f p))) ->
  buttonSafe (proposalScreen a) -> buttonSafe (proposalScreen (onProposal o f a)).
Proof.
  intros F K. unfold onProposal.
  destruct (proposalScreen a) as [p|] eqn:P; [|now rewrite P].
  destruct (Proposal.instance p =? o)%nat; [|now rewrite P].
  intros p' E. cbn in E. injection E as <-. now apply F, K.
Qed.

Lemma proposalHandler_safe h p a :
  safe (Proposal.buttonPosition (fst (h p))) ->
  buttonSafe (proposalScreen (proposalHandler h p a)).
Proof.
  intros F. unfold proposalHandler. destruct (h p) as [p' fx].
  rewrite schedule_proposal. intros q E. cbn in E. injection E as <-. exact F.
Qed.

Lemma runAction_safe t a :
  buttonSafe (proposalScreen a) -> buttonSafe (proposalScreen (runAction env t a)).
Proof.
  intros K. unfold runAction. destruct (action t).
  - exact K.
  - now apply setCurrentStage_safe.
  - repeat break; try exact K. now rewrite setIsPlaying_proposal.
  - now rewrite revealTick_proposal.
  - destruct isPlaying; [now rewrite playMelody_proposal | exact K].
  - apply onProposal_safe; auto.
  - apply onProposal_safe; auto.
  - cbn [proposalScreen withDraws]. apply onProposal_safe; [|exact K].
    intros p _. apply randomPosition_safe.
  - exact K.
  - exact K.
Qed.

Lemma step_safe e a a' :
  step env e a = Some a' ->
  buttonSafe (proposalScreen a) -> buttonSafe (proposalScreen a').
Proof.
  intros H K. destruct e; cbn [step] in H.
  - destruct ((now a <=? t)%Z && forallb (fun x => (t <=? due x)%Z) (timers a));
      [|discriminate]. now injection H as <-.
  - unfold fire in H. destruct (nextToFire (timers a)) as [t|]; [|discriminate].
    injection H as <-. now apply runAction_safe.
  - destruct (lockScreen a) as [l|]; [|discriminate]. injection H as <-.
    now destruct (Lock.startsListening l && speechRecognition env).
  - destruct (requested a); [discriminate|]. injection H as <-.
    now rewrite lockHandler_proposal.
  - destruct (capturing a); [discriminate|]. injection H as <-.
    now rewrite lockHandler_proposal.
  - destruct (requested a); [destruct (capturing a); [discriminate|]|];
      injection H as <-; now rewrite lockHandler_proposal.
  - destruct (lockScreen a) as [l|]; [|discriminate].
    destruct (Lock.showFallback l); [|discriminate]. now injection H as <-.
  - destruct (lockScreen a) as [l|]; [|discriminate].
    destruct (Lock.showFallback l); [|discriminate]. injection H as <-.
    now rewrite lockHandler_proposal.
  - destruct (loveLetter a) as [l|]; [|discriminate].
    destruct (Letter.isSupported (Letter.music l)); [|discriminate].
    injection H as <-. now rewrite handleToggle_proposal.
  - destruct (loveLetter a) as [l|]; [|discriminate].
    destruct (Letter.continueShown l); [|discriminate]. injection H as <-.
    now apply setCurrentStage_safe.
  - destruct (proposalScreen a) as [p|] eqn:P; [|discriminate].
    destruct (Proposal.hintShown p); [|discriminate]. injection H as <-.
    apply proposalHandler_safe. cbn. now apply K.
  - destruct (proposalScreen a) as [p|] eqn:P; [|discriminate].
    destruct (Proposal.buttonsShown p); [|discriminate]. injection H as <-.
    apply proposalHandler_safe. cbn. now apply K.
  - destruct (proposalScreen a) as [p|] eqn:P; [|discriminate].
    destruct (Proposal.buttonsShown p); [|discriminate]. injection H as <-.
    cbn [proposalScreen withDraws]. apply proposalHandler_safe. cbn.
    apply randomPosition_safe.
Qed.

Lemma run_safe es : forall a a',
  run env es a = Some a' ->
  buttonSafe (proposalScreen a) -> buttonSafe (proposalScreen a').
Proof.
  induction es as [|e es IH]; intros a a' H K; simpl in H.
  - now injection H as <-.
  - destruct (step env e a) as [b|] eqn:E; [|discriminate].
    exact (IH _ _ H (step_safe _ _ _ E K)).
Qed.

End Run.

(** With [Math.random] in [0, 1), in every reachable state the "No"
    button of a mounted proposal screen lies between 10 and 90 per cent on
    both axes: at its first place (50, 80), after each press, and after the
    second move a press sets a timer for. *)
Theorem no_button_stays_inside env a p :
  (forall i, 0 <= random env i < 1) ->
  reachable env a -> proposalScreen a = Some p ->
  safe (Proposal.buttonPosition p).
Proof.
  intros Rn [es R] P.
  apply (run_safe env Rn es (init env) a R); [|exact P].
  intros q E. discriminate.
Qed.

Lemma no_button_stays_inside_witness :
  run demo (Scenario.toButtons ++ [ClickNo; FireTimer]) (init demo) = Some Scenario.movedTwice /\
  option_map Proposal.buttonPosition (proposalScreen Scenario.movedTwice)
  = Some {| Proposal.x := 120 # 4; Proposal.y := 280 # 4 |} /\
  exists p, proposalScreen Scenario.movedTwice = Some p /\ safe (Proposal.buttonPosition p).
Proof.
  assert (R : run demo (Scenario.toButtons ++ [ClickNo; FireTimer]) (init demo)
              = Some Scenario.movedTwice) by (vm_compute; reflexivity).
  split; [exact R|]. split; [reflexivity|].
  eexists. split; [reflexivity|].
  apply (no_button_stays_inside demo Scenario.movedTwice _ demo_random
           (ex_intro _ (Scenario.toButtons ++ [ClickNo; FireTimer]) R) eq_refl).
Defined.

End SafeAreaFacts.

(** ** The time slots of a pass *)

Module SlotFacts.
Import Audio AudioFacts Slots.
Open Scope Q_scope.




End SlotFacts.

(** ** The drifting particles *)

Module ParticleFacts.
Import Particles.
Open Scope Q_scope.

Lemma forLoop_steps random : forall remaining i d acc,
  forLoop random remaining i d acc =
  (acc ++ map (fun k => newParticle random (d + 6 * k) (i + k)) (seq 0 remaining),
   (d + 6 * remaining)%nat).
Proof.
  induction remaining as [|n IH]; intros i d acc.
  - cbn. now rewrite app_nil_r, Nat.add_0_r.
  - cbn [forLoop]. rewrite IH. cbn [seq map]. rewrite <- app_assoc. cbn [app].
    rewrite <- seq_shift, map_map. f_equal.
    + f_equal. rewrite !Nat.add_0_r. f_equal.
      apply map_ext. intros k. f_equal; lia.
    + lia.
Qed.


(** One call of [generateParticles] makes twenty particles and draws 120
    random values; the keys are [particle-0] to [particle-19] whatever the
    values drawn, so they are pairwise different and the same at every
    regeneration. *)
Theorem generateParticles_keys random d :
  List.length (fst (generateParticles random d)) = 20%nat /\
  snd (generateParticles random d) = (d + 120)%nat /\
  map id (fst (generateParticles random d)) = map particleId (seq 0 20) /\
  NoDup (map id (fst (generateParticles random d))) /\
  (forall random' d',
      map id (fst (generateParticles random' d')) =
      map id (fst (generateParticles random d))).
Proof.
  assert (K : forall rnd e, map id (fst (generateParticles rnd e)) = map particleId (seq 0 20)).
  { intros rnd e. unfold generateParticles. rewrite forLoop_steps. cbn [fst app].
    rewrite map_map. reflexivity. }
  unfold generateParticles at 1 2. rewrite forLoop_steps. cbn [fst snd app].
  split; [now rewrite length_map, length_seq|]. split; [lia|].
  split; [apply K|]. split.
  - rewrite K. vm_compute.
    repeat (constructor; [cbn; (intuition discriminate)|]). constructor.
  - intros. now rewrite !K.
Qed.



Lemma regenerate_spec random s :
  List.length (particles (regenerate random s)) = 20%nat /\
  drawn (regenerate random s) = (drawn s + 120)%nat.
Proof.
  unfold regenerate, generateParticles. rewrite forLoop_steps. cbn [particles drawn app].
  split; [now rewrite length_map, length_seq | lia].
Qed.

(** However often the particles are regenerated, the list shown holds
    twenty particles: each run replaces the list. *)
Theorem regenerate_replaces random n :
  particles firstRender = [] /\
  List.length (particles (Nat.iter (S n) (regenerate random) firstRender)) = 20%nat /\
  drawn (Nat.iter n (regenerate random) firstRender) = (120 * n)%nat.
Proof.
  split; [reflexivity|]. split.
  - rewrite Nat.iter_succ. apply regenerate_spec.
  - induction n as [|n IH]; [reflexivity|].
    rewrite Nat.iter_succ. rewrite (proj2 (regenerate_spec random _)), IH. lia.
Qed.

End ParticleFacts.

(** ** The star canvas *)

Module StarFacts.
Import Stars.
Open Scope Q_scope.

Lemma clamp_bounds o : 0.1 <= max 0.1 (min 1 o) /\ max 0.1 (min 1 o) <= 1.
Proof.
  unfold max, min. destruct (Qle_bool 1 o) eqn:A.
  - cbn. split; discriminate.
  - destruct (Qle_bool 0.1 o) eqn:B.
    + apply Qle_bool_iff in B. split; [exact B|].
      apply Qnot_lt_le. intros C. apply Qlt_le_weak in C.
      apply Qle_bool_iff in C. congruence.
    + split; [apply Qle_refl | discriminate].
Qed.


Lemma forEach_frame random : forall l d,
  fst (fst (forEach random l d)) = map (fun s => disc (x s) (y s) (size s) (opacity s)) l /\
  map place (snd (fst (forEach random l d))) = map place l /\
  Forall bright (snd (fst (forEach random l d))) /\
  snd (forEach random l d) = (d + List.length l)%nat.
Proof.
  induction l as [|s l IH]; intros d.
  - cbn. repeat split; auto.
  - cbn [forEach]. destruct (IH (S d)) as [A [B [C D]]].
    destruct (forEach random l (S d)) as [[ds ss] d'].
    cbn [fst snd] in *. cbn [map List.length]. repeat split.
    + now rewrite A.
    + now rewrite B.
    + constructor; [apply clamp_bounds | exact C].
    + lia.
Qed.


(** One frame, whatever [Math.random] returns: every star is drawn once,
    in order, with the opacity it had before the frame; no star moves,
    changes size, appears or disappears; after the frame every opacity
    lies between 0.1 and 1; and the next frame is requested. *)
Theorem animate_keeps_stars random c :
  calls (animate random c) =
    clearRect (width c) (height c)
    :: map (fun s => disc (x s) (y s) (size s) (opacity s)) (stars c) /\
  map place (stars (animate random c)) = map place (stars c) /\
  Forall bright (stars (animate random c)) /\
  frameRequested (animate random c) = true /\
  listening (animate random c) = listening c /\
  drawn (animate random c) = (drawn c + List.length (stars c))%nat.
Proof.
  unfold animate. destruct (forEach_frame random (stars c) (drawn c)) as [A [B [C D]]].
  destruct (forEach random (stars c) (drawn c)) as [[ds ss] d]. cbn [fst snd] in *.
  cbn. rewrite A. repeat split; auto.
Qed.


Lemma createStars_spec random w h : forall remaining d acc,
  createStars random remaining w h d acc =
  (acc ++ map (fun k => {| x := random (d + 4 * k)%nat * w;
                           y := random (d + 4 * k + 1)%nat * h;
                           size := random (d + 4 * k + 2)%nat * 3 + 1;
                           opacity := random (d + 4 * k + 3)%nat |})
              (seq 0 remaining),
   (d + 4 * remaining)%nat).
Proof.
  induction remaining as [|n IH]; intros d acc.
  - cbn. now rewrite app_nil_r, Nat.add_0_r.
  - cbn [createStars]. rewrite IH. cbn [seq map]. rewrite <- app_assoc. cbn [app].
    rewrite <- seq_shift, map_map. f_equal; [|lia].
    f_equal. rewrite !Nat.mul_0_r, !Nat.add_0_r. f_equal.
    apply map_ext. intros k.
    replace (d + 4 + 4 * k)%nat with (d + 4 * S k)%nat by lia. reflexivity.
Qed.

Lemma sparkle_spec random x0 y0 : forall remaining d acc,
  sparkle random remaining x0 y0 d acc =
  (acc ++ map (fun k => {| x := x0 + (random (d + 3 * k)%nat - 0.5) * 50;
                           y := y0 + (random (d + 3 * k + 1)%nat - 0.5) * 50;
                           size := random (d + 3 * k + 2)%nat * 4 + 2;
                           opacity := 1 |})
              (seq 0 remaining),
   (d + 3 * remaining)%nat).
Proof.
  induction remaining as [|n IH]; intros d acc.
  - cbn. now rewrite app_nil_r, Nat.add_0_r.
  - cbn [sparkle]. rewrite IH. cbn [seq map]. rewrite <- app_assoc. cbn [app].
    rewrite <- seq_shift, map_map. f_equal; [|lia].
    f_equal. rewrite !Nat.mul_0_r, !Nat.add_0_r. f_equal.
    apply map_ext. intros k.
    replace (d + 3 + 3 * k)%nat with (d + 3 * S k)%nat by lia. reflexivity.
Qed.



Lemma step_stars random e c c' :
  step random e c = Some c' ->
  exists new,
    map place (stars c') = map place (stars c) ++ new /\
    List.length new = (if isClick e then 5 else 0)%nat /\
    (frameRequested c = true -> frameRequested c' = true) /\
    (listening c = false -> listening c' = false /\ isClick e = false) /\
    (Forall bright (stars c) -> Forall bright (stars c')).
Proof.
  destruct e; cbn [step isClick].
  - destruct (frameRequested c); [|discriminate]. intros H. injection H as <-.
    destruct (animate_keeps_stars random c) as [_ [P [B [F [L _]]]]].
    exists []. rewrite app_nil_r, L. repeat split; auto.
  - destruct (listening c) eqn:L; [|discriminate]. intros H. injection H as <-.
    unfold handleClick. rewrite sparkle_spec. cbn [stars frameRequested listening].
    eexists. rewrite map_app. split; [reflexivity|].
    split; [reflexivity|]. split; [auto|]. split; [discriminate|].
    intros B. apply Forall_app. split; [exact B|].
    apply Forall_forall. intros s H. apply in_map_iff in H. destruct H as [k [<- _]].
    split; cbn; discriminate.
  - intros H. injection H as <-. exists []. rewrite app_nil_r. cbn. repeat split; auto.
Qed.

(** Over any sequence of frames, clicks and an unmount: the star list only
    grows, by five per click; the stars there at the start keep their
    place and size; a requested frame stays requested, also after the
    unmount, which only detaches the click listener; and once the listener
    is detached no click is taken. *)
Theorem stars_never_removed random es : forall c c',
  run random es c = Some c' ->
  List.length (stars c') =
    (List.length (stars c) + 5 * List.length (filter isClick es))%nat /\
  firstn (List.length (stars c)) (map place (stars c')) = map place (stars c) /\
  (frameRequested c = true ->
   frameRequested c' = true /\ step random Frame c' = Some (animate random c')) /\
  (listening c = false -> listening c' = false /\ filter isClick es = []) /\
  (Forall bright (stars c) -> Forall bright (stars c')).
Proof.
  induction es as [|e es IH]; intros c c' H; cbn [run] in H.
  - injection H as <-. cbn [filter List.length]. rewrite Nat.add_0_r.
    split; [reflexivity|]. split.
    { rewrite <- (length_map place), firstn_all. reflexivity. }
    split; [|auto]. intros F. cbn [step]. now rewrite F.
  - destruct (step random e c) as [c1|] eqn:E; [|discriminate].
    destruct (step_stars random e c c1 E) as [new [P [L [F [Li B]]]]].
    destruct (IH c1 c' H) as [I1 [I2 [I3 [I4 I5]]]].
    assert (Len : List.length (stars c1) = (List.length (stars c) + List.length new)%nat).
    { rewrite <- (length_map place (stars c1)), P, length_app, length_map. reflexivity. }
    split; [|split; [|split; [|split]]].
    + rewrite I1, Len, L. cbn [filter]. destruct (isClick e); cbn [List.length]; lia.
    + assert (X : firstn (List.length (stars c))
                         (firstn (List.length (stars c1)) (map place (stars c')))
                  = firstn (List.length (stars c)) (map place (stars c1))) by now rewrite I2.
      rewrite firstn_firstn in X. rewrite Nat.min_l in X by lia. rewrite X, P.
      rewrite <- (length_map place (stars c)) at 1. rewrite firstn_app, firstn_all.
      rewrite Nat.sub_diag. cbn. apply app_nil_r.
    + intros Fr. exact (I3 (F Fr)).
    + intros Ls. destruct (Li Ls) as [L1 C]. destruct (I4 L1) as [L2 N].
      split; [exact L2|]. cbn [filter]. now rewrite C.
    + intros Br. exact (I5 (B Br)).
Qed.

Lemma stars_never_removed_witness :
  run (App.random App.demo) sample (mount (App.random App.demo) true true 800 600)
  = Some afterSample /\
  List.length (stars afterSample) = 105%nat /\
  frameRequested afterSample = true /\ listening afterSample = false.
Proof.
  assert (H : run (App.random App.demo) sample
                  (mount (App.random App.demo) true true 800 600) = Some afterSample)
    by (vm_compute; reflexivity).
  destruct (stars_never_removed (App.random App.demo) sample _ _ H) as [L [_ [F _]]].
  split; [exact H|]. split; [|split; [|reflexivity]].
  - rewrite L. reflexivity.
  - apply F. reflexivity.
Defined.



(** The mount effect.  Without a canvas element or without a 2D context
    it returns at once: no star, no listener, no frame, and from there no
    frame or click ever happens.  Otherwise it makes a hundred stars from
    four hundred random values, draws the first frame at once and requests
    the next, and attaches the click listener. *)
Theorem mount_effect random w h :
  (forall getContext, mount random false getContext w h = rendered) /\
  mount random true false w h = rendered /\
  (forall es c, run random es rendered = Some c ->
                stars c = [] /\ calls c = [] /\ frameRequested c = false /\
                Forall (fun e => e = Unmount) es) /\
  List.length (stars (mount random true true w h)) = 100%nat /\
  List.length (calls (mount random true true w h)) = 101%nat /\
  hd_error (calls (mount random true true w h)) = Some (clearRect w h) /\
  Forall bright (stars (mount random true true w h)) /\
  listening (mount random true true w h) = true /\
  frameRequested (mount random true true w h) = true /\
  drawn (mount random true true w h) = 500%nat.
Proof.
  split; [reflexivity|]. split; [reflexivity|]. split.
  { assert (K : forall es c, run random es (unmount rendered) = Some c ->
                stars c = [] /\ calls c = [] /\ frameRequested c = false /\
                Forall (fun e => e = Unmount) es).
    { induction es as [|e es IH]; intros c H; cbn [run] in H.
      - injection H as <-. repeat split; auto.
      - destruct e; cbn in H; try discriminate.
        destruct (IH c H) as [A [B [C D]]]. repeat split; auto. }
    exact K. }
  unfold mount. cbn [negb]. rewrite createStars_spec. cbn [app].
  match goal with
  | |- context [animate random ?c0] =>
      destruct (animate_keeps_stars random c0) as [C [P [B [F [_ D]]]]];
      set (c1 := animate random c0) in *
  end.
  cbn [stars calls listening frameRequested drawn width height] in *.
  assert (L : List.length (stars c1) = 100%nat).
  { rewrite <- (length_map place), P, length_map, length_map, length_seq. reflexivity. }
  split; [exact L|]. split.
  { rewrite C. cbn [List.length]. now rewrite !length_map, length_seq. }
  split; [now rewrite C|]. split; [exact B|]. split; [reflexivity|].
  split; [exact F|]. rewrite D, length_map, length_seq. reflexivity.
Qed.

(** With [Math.random] in [0, 1) and a canvas of positive size, each of
    the first hundred stars lies inside the canvas and has a radius from 1
    up to 4. *)
Theorem first_stars_inside random w h :
  (forall i, 0 <= random i /\ random i < 1) -> 0 < w -> 0 < h ->
  Forall (firstStar w h) (stars (mount random true true w h)).
Proof.
  intros R W H. unfold mount. cbn [negb]. rewrite createStars_spec. cbn [app].
  match goal with
  | |- context [animate random ?c0] =>
      destruct (animate_keeps_stars random c0) as [_ [P _]];
      set (c1 := animate random c0) in *
  end.
  cbn [stars] in *.
  assert (F : Forall (fun q => (0 <= fst (fst q) /\ fst (fst q) < w) /\
                               (0 <= snd (fst q) /\ snd (fst q) < h) /\
                               (1 <= snd q /\ snd q < 4))
                     (map place (stars c1))).
  { rewrite P. apply Forall_forall. intros q Hq. apply in_map_iff in Hq.
    destruct Hq as [s [<- Hs]]. apply in_map_iff in Hs. destruct Hs as [k [<- _]].
    cbn [place x y size fst snd].
    pose proof (R (0 + 4 * k)%nat). pose proof (R (0 + 4 * k + 1)%nat).
    pose proof (R (0 + 4 * k + 2)%nat). repeat split; nra. }
  apply Forall_forall. intros s Hs.
  exact (proj1 (Forall_forall _ _) F (place s) (in_map place _ _ Hs)).
Qed.

Lemma first_stars_inside_witness :
  Forall (firstStar 800 600) (stars (mount (App.random App.demo) true true 800 600)).
Proof.
  apply first_stars_inside; [|reflexivity|reflexivity].
  intros i. cbn. destruct (Nat.even i); split; discriminate || reflexivity.
Defined.
End StarFacts.
